(** * adcirc-rom: the parallel dataset builder of [dataset.py]

    A shallow embedding of [Dataset.create] and [Dataset._init_shared_arrs]:
    unit enumeration on the root rank, the static round-robin map loop of
    every rank, the per-rank consolidation of the accumulated fragments, and
    the per-key [gather]/[Gatherv] rounds that assemble the dataset on the
    root.  The Python, numpy and MPI operations the code calls are modelled
    in the modules [Py], [Np] and [Mpi]; the code itself is in [Dataset]. *)

From Stdlib Require Import String Ascii DecimalString OrderedTypeEx.
From Stdlib Require Import List Arith ZArith Bool Lia Permutation Sorted Finite.
Import Datatypes List ListNotations.
Open Scope string_scope.
Open Scope list_scope.
Open Scope nat_scope.

(* ================================================================== *)
(** * Python values the code relies on *)
(* ================================================================== *)

Module Py.

(** Exceptions the modelled lines can raise. *)
Inductive exn : Type :=
| KeyError (k : string)
| ValueError
| TypeError
| IndexError
| OSError
| MPIError.

Inductive result (A : Type) : Type :=
| Ok (a : A)
| Raise (e : exn).
Arguments Ok {A} a.
Arguments Raise {A} e.

Definition bind {A B} (r : result A) (k : A -> result B) : result B :=
  match r with
  | Ok a => k a
  | Raise e => Raise e
  end.

Definition result_map {A B} (f : A -> B) (r : result A) : result B :=
  match r with
  | Ok a => Ok (f a)
  | Raise e => Raise e
  end.

Fixpoint mapM {A B} (f : A -> result B) (l : list A) : result (list B) :=
  match l with
  | [] => Ok []
  | x :: t => bind (f x) (fun y => bind (mapM f t) (fun ys => Ok (y :: ys)))
  end.

(** A [dict] keeps its keys in insertion order; assigning to a key that is
    already present keeps the key's position. *)
Definition dict (V : Type) : Type := list (string * V).

Fixpoint dict_get {V} (k : string) (d : dict V) : option V :=
  match d with
  | [] => None
  | (k', v) :: t => if String.eqb k' k then Some v else dict_get k t
  end.

Fixpoint dict_set {V} (k : string) (v : V) (d : dict V) : dict V :=
  match d with
  | [] => [(k, v)]
  | (k', v') :: t =>
      if String.eqb k' k then (k, v) :: t else (k', v') :: dict_set k v t
  end.

Definition dict_keys {V} (d : dict V) : list string := map fst d.

(** [d.update(items)] *)
Definition dict_update {V} (d : dict V) (items : list (string * V)) : dict V :=
  fold_left (fun acc kv => dict_set (fst kv) (snd kv) acc) items d.

(** [sub in s] on strings: substring search. *)
Fixpoint py_in (sub s : string) : bool :=
  String.prefix sub s ||
  match s with
  | EmptyString => false
  | String _ t => py_in sub t
  end.

(** [range(start, stop, step)] for [step >= 1], as its iterator runs: the
    current value advances by [step] while it is below [stop]. *)
Fixpoint range_loop (fuel cur stop step : nat) : list nat :=
  match fuel with
  | 0 => []
  | S f => if cur <? stop then cur :: range_loop f (cur + step) stop step else []
  end.

Definition range (start stop step : nat) : list nat :=
  range_loop stop start stop step.

(** [l[start::step]] for [step >= 1]: drop [start] items, then keep one item
    and drop [step - 1], repeatedly. *)
Fixpoint slice_step {A} (skip step : nat) (l : list A) : list A :=
  match l with
  | [] => []
  | x :: t =>
      match skip with
      | 0 => x :: slice_step (step - 1) step t
      | S s => slice_step s step t
      end
  end.

(** [sorted(l)] on strings.  Python compares strings by code point, which on
    UTF-8 encoded text is the byte-wise order of [String.leb].  The sort is
    stable; an insertion sort from the right is. *)
Fixpoint insert_sorted (x : string) (l : list string) : list string :=
  match l with
  | [] => [x]
  | y :: t => if String.leb x y then x :: l else y :: insert_sorted x t
  end.

Definition sorted (l : list string) : list string :=
  fold_right insert_sorted [] l.

(** The order [sorted] arranges by. *)
Definition str_le (a b : string) : Prop := String.leb a b = true.

(** [str(n)] for a non-negative integer. *)
Definition str (n : nat) : string := NilEmpty.string_of_uint (Nat.to_uint n).

End Py.
Import Py.

Notation "x <- c1 ;; c2" := (bind c1 (fun x => c2))
  (at level 61, c1 at next level, right associativity).

(* ================================================================== *)
(** * numpy arrays *)
(* ================================================================== *)

Module Np.

(** An [ndarray] is its shape and its elements in C (row-major) order, which
    is what [flatten] returns.  The code never computes with the elements, so
    they are integer codes here and the dtype is left out; the only elements
    it creates itself are the storm indices of [np.full(..., dtype=int)]. *)
Record ndarray : Type := { shape : list nat; flat : list Z }.

(** An item of a result record: an array or a bare scalar. *)
Inductive value : Type :=
| VArr (a : ndarray)
| VScal (x : Z).

(** Number of elements of an array of the given shape ([ndarray.size]). *)
Definition size_of (shp : list nat) : nat := fold_right Nat.mul 1 shp.

(** The representation invariant of a numpy array. *)
Definition wf (a : ndarray) : bool := length (flat a) =? size_of (shape a).

(** [len(a)]: the first dimension; a 0-d array has no length. *)
Definition len (a : ndarray) : result nat :=
  match shape a with
  | [] => Raise TypeError
  | n :: _ => Ok n
  end.

(** [np.full(n, x, dtype=int)] *)
Definition full (n : nat) (x : Z) : ndarray :=
  {| shape := [n]; flat := repeat x n |}.

Definition shape_eqb (s1 s2 : list nat) : bool :=
  if list_eq_dec Nat.eq_dec s1 s2 then true else false.

(** The joining step of [np.concatenate]: every item must be an array of at
    least one dimension whose trailing dimensions are [trail]. *)
Fixpoint concat_along (trail : list nat) (vs : list value)
  : result (nat * list Z) :=
  match vs with
  | [] => Ok (0, [])
  | VScal _ :: _ => Raise ValueError
  | VArr a :: t =>
      match shape a with
      | [] => Raise ValueError
      | n :: tr =>
          if shape_eqb tr trail then
            r <- concat_along trail t ;; Ok (n + fst r, flat a ++ snd r)
          else Raise ValueError
      end
  end.

(** [np.concatenate(vs)] along axis 0. *)
Definition concatenate (vs : list value) : result ndarray :=
  match vs with
  | VArr a :: _ =>
      match shape a with
      | [] => Raise ValueError
      | _ :: tr =>
          r <- concat_along tr vs ;;
          Ok {| shape := fst r :: tr; flat := snd r |}
      end
  | _ => Raise ValueError
  end.

(** The items [np.array] accepts beside a first bare scalar: bare scalars
    and 0-d arrays, which count as scalars; an array with a dimension makes
    the list ragged. *)
Fixpoint scalars (vs : list value) : result (list Z) :=
  match vs with
  | [] => Ok []
  | VScal x :: t => xs <- scalars t ;; Ok (x :: xs)
  | VArr a :: t =>
      match shape a, flat a with
      | [], [x] => xs <- scalars t ;; Ok (x :: xs)
      | _, _ => Raise ValueError
      end
  end.

(** [np.array(vs)] for a list of scalars. *)
Definition array (vs : list value) : result ndarray :=
  xs <- scalars vs ;; Ok {| shape := [length xs]; flat := xs |}.

(** [buf.reshape(shp)] of a flat buffer. *)
Definition reshape (buf : list Z) (shp : list nat) : result ndarray :=
  if length buf =? size_of shp
  then Ok {| shape := shp; flat := buf |}
  else Raise ValueError.

(** The first dimension, [shape[0]]. *)
Definition rows (a : ndarray) : nat := hd 0 (shape a).

(** Rows a fragment adds to its key, and its elements in order. *)
Definition value_rows (v : value) : nat :=
  match v with
  | VArr a => match shape a with [] => 1 | n :: _ => n end
  | VScal _ => 1
  end.

Definition value_flat (v : value) : list Z :=
  match v with
  | VArr a => flat a
  | VScal x => [x]
  end.

(** Row [i] of an array: the [i]-th block of [size_of (tl shape)] elements. *)
Definition row (a : ndarray) (i : nat) : list Z :=
  let w := size_of (tl (shape a)) in
  firstn w (skipn (i * w) (flat a)).

End Np.
Import Np.

(* ================================================================== *)
(** * MPI collectives, seen from the whole communicator *)
(* ================================================================== *)

Module Mpi.

(** The state of a communicator is the list of what each rank holds, indexed
    by rank.  [comm.bcast(x, root)]: every rank receives the root's value. *)
Definition bcast {A} (root : nat) (vals : list A) : list A :=
  match nth_error vals root with
  | Some v => map (fun _ => v) vals
  | None => vals
  end.

(** [comm.gather(x, root)]: the root receives the values in rank order. *)
Definition gather {A} (vals : list A) : list A := vals.

(** [comm.Gatherv(sendbuf, (recvbuf, counts), root)] with the default
    displacements (the running sum of [counts]): rank [r]'s buffer lands
    after those of the ranks below it.  MPI requires each rank to send as
    many elements as the root's [counts] announce; anything else is an
    erroneous call, which ends the run here.  (An MPI library may let a
    rank that sends fewer elements pass and leave the rest of its part of
    the receive buffer unwritten; what the dataset then holds is not
    described.  The rounds whose contents are stated below are those in
    which the counts fit.) *)
Definition Gatherv (sendbufs : list (list Z)) (counts : list nat)
  : result (list Z) :=
  if list_eq_dec Nat.eq_dec (map (@length Z) sendbufs) counts
  then Ok (concat sendbufs)
  else Raise MPIError.

(** What a job of blocking collectives comes to on the root: it finishes,
    it is aborted by an exception, or it stalls in a collective that some
    rank never enters (the calls are blocking and have no timeout). *)
Inductive outcome (A : Type) : Type :=
| Finished (a : A)
| Aborted (e : exn)
| Stalled.
Arguments Finished {A} a.
Arguments Aborted {A} e.
Arguments Stalled {A}.

(** The next pending collective of every other rank, with what each rank
    has left after it; [None] when some rank has none left and never enters
    the call. *)
Definition heads {X} (queues : list (list X))
  : option (list X * list (list X)) :=
  if existsb (fun q => match q with [] => true | _ => false end) queues
  then None
  else Some (flat_map (firstn 1) queues, map (@tl X) queues).

End Mpi.
Import Mpi.

(* ================================================================== *)
(** * [dataset.py] *)
(* ================================================================== *)

Module Dataset.

(** What the code reads from disk: the entries [os.listdir] yields for a
    path, in the order the operating system returns them, [os.path.isdir],
    and for each HDF5 file that exists its datasets by name (the mesh
    variables are one-dimensional arrays over the mesh nodes). *)
Record filesystem : Type := {
  listdir : string -> option (list string);
  isdir : string -> bool;
  h5file : string -> option (dict (list Z))
}.

(** A result record of [_extract_storm_data], and the per-key lists a rank
    accumulates in [arrs = defaultdict(list)]. *)
Definition record : Type := dict value.
Definition accum : Type := dict (list value).
Definition local_data : Type := dict ndarray.

(** ** [_get_mesh_vars] *)
Definition _get_mesh_vars (fs : filesystem) (dirname : string)
  : result (dict (list Z)) :=
  res <- match h5file fs (dirname ++ "/coastal_dist.hdf5")%string with
         | Some coastal_ds =>
             match dict_get "dist" coastal_ds with
             | Some a => Ok (dict_set "coastal_dist" a [])
             | None => Raise (KeyError "dist")
             end
         | None => Ok []
         end ;;
  match h5file fs (dirname ++ "/bathy_stats.hdf5")%string with
  | Some bathy_ds => Ok (dict_update res bathy_ds)
  | None => Ok res
  end.

(** ** [_init_shared_arrs], the branch of the root rank (lines 172-177) *)
Fixpoint check_lengths (num_nodes : nat) (items : list (string * list Z))
  : result unit :=
  match items with
  | [] => Ok tt
  | (k, arr) :: t =>
      if length arr =? num_nodes then check_lengths num_nodes t
      else Raise ValueError
  end.

Definition _init_shared_arrs_root (fs : filesystem) (datadir : string)
  : result (list string * nat) :=
  mesh_vars <- _get_mesh_vars fs datadir ;;
  match dict_get "coastal_dist" mesh_vars with
  | None => Raise (KeyError "coastal_dist")
  | Some coastal =>
      let num_nodes := length coastal in
      _ <- check_lengths num_nodes mesh_vars ;;
      Ok (dict_keys mesh_vars, num_nodes)
  end.

(** ** [create]: unit enumeration on the root (lines 209-214) *)
Definition enumerate_units (fs : filesystem) (datadir stormsdir : string)
  : result (list string) :=
  let stormsdir := (datadir ++ "/" ++ stormsdir)%string in
  match listdir fs stormsdir with
  | None => Raise OSError
  | Some entries =>
      Ok (fold_left
            (fun dirs d =>
               let d := (stormsdir ++ "/" ++ d)%string in
               if isdir fs d && negb (py_in "." d) then dirs ++ [d] else dirs)
            entries [])
  end.

(** [dirs = comm.bcast(dirs, root=root)]: the root holds the list, every
    other rank holds [None] before the call. *)
Definition broadcast_units (size : nat) (dirs : list string)
  : list (option (list string)) :=
  bcast 0 (Some dirs :: repeat None (size - 1)).

Section Create.

(** The extractor is a collaborator of [create]: all [create] sees of it is
    the record, or [None], it returns for a storm directory under the
    parameters of the run. *)
Variable _extract_storm_data : string -> option record.
Variable dirs : list string.

(** ** [create]: the map loop of one rank (lines 231-238) *)

(** [arrs[k].append(v)] on a [defaultdict(list)] *)
Definition append_item (arrs : accum) (kv : string * value) : accum :=
  match dict_get (fst kv) arrs with
  | Some l => dict_set (fst kv) (l ++ [snd kv]) arrs
  | None => dict_set (fst kv) [snd kv] arrs
  end.

(** [info["storm"] = np.full(len(info["inds"]), i, dtype=int)] *)
Definition tag_storm (i : nat) (info : record) : result record :=
  match dict_get "inds" info with
  | None => Raise (KeyError "inds")
  | Some (VScal _) => Raise TypeError
  | Some (VArr inds) =>
      n <- len inds ;;
      Ok (dict_set "storm" (VArr (full n (Z.of_nat i))) info)
  end.

Definition missing_message (i : nat) : string :=
  ("Storm " ++ str i ++ " missing data.")%string.

(** The state of the loop is the accumulator and the lines printed so far. *)
Fixpoint map_loop (idxs : list nat) (arrs : accum) (out : list string)
  : result (accum * list string) :=
  match idxs with
  | [] => Ok (arrs, out)
  | i :: rest =>
      match _extract_storm_data (nth i dirs ""%string) with
      | None => map_loop rest arrs (out ++ [missing_message i])
      | Some info =>
          info' <- tag_storm i info ;;
          map_loop rest (fold_left append_item info' arrs) out
      end
  end.

(** ** [create]: local consolidation (lines 241-251) *)
Definition consolidate_key (v : list value) : result ndarray :=
  match v with
  | [] => Raise IndexError
  | VArr _ :: _ => concatenate v
  | VScal _ :: _ => array v
  end.

Fixpoint consolidate (arrs : accum) (local : local_data) : result local_data :=
  match arrs with
  | [] => Ok local
  | (k, v) :: rest =>
      a <- consolidate_key v ;; consolidate rest (dict_set k a local)
  end.

(** What a rank holds when it reaches the gather loop, from a list of unit
    indices; [worker] is the rank's own list, [range(rank, len(dirs), size)]. *)
Definition run_units (idxs : list nat) : result (local_data * list string) :=
  st <- map_loop idxs [] [] ;;
  ld <- consolidate (fst st) [] ;;
  Ok (ld, snd st).

Definition worker (rank size : nat) : result (local_data * list string) :=
  run_units (range rank (length dirs) size).

Definition worker_local (rank size : nat) : result local_data :=
  st <- worker rank size ;; Ok (fst st).

End Create.

(** [keys = sorted(list(local_data.keys()))] *)
Definition gather_keys (local : local_data) : list string :=
  sorted (dict_keys local).

(** The collectives a rank will enter, in order: one round per key of its
    own [keys], with its local array for that key. *)
Definition pending (local : local_data) : list (string * ndarray) :=
  flat_map (fun k => match dict_get k local with
                     | Some a => [(k, a)]
                     | None => []
                     end)
           (gather_keys local).

(** ** [create]: one round of the gather loop on the root (lines 255-267).
    [locals] holds the array each rank brings to the round, the root's
    first.  Integer division by zero in numpy yields zero. *)
Definition gather_round (locals : list ndarray) : result ndarray :=
  match locals with
  | [] => Raise IndexError
  | root_local :: _ =>
      counts <- mapM len (gather locals) ;;
      let local_shape := shape root_local in
      let total := list_sum counts in
      let buf_shape :=
        if 1 <? length local_shape then total :: tl local_shape else [total] in
      let recvbuf_size := size_of buf_shape in
      let flatcounts := map (fun c => recvbuf_size / total * c) counts in
      recvbuf <- Gatherv (map flat locals) flatcounts ;;
      reshape recvbuf buf_shape
  end.

(** ** [create]: the gather loop (lines 253-270), seen from the root.
    Collectives match by the order in which the ranks call them, not by key:
    in the root's round for its key [k] every other rank takes part with the
    array of its own next key. *)
Fixpoint gather_loop (root_pending : list (string * ndarray))
    (others : list (list (string * ndarray))) (data : local_data)
  : outcome local_data :=
  match root_pending with
  | [] => Finished data
  | (k, a) :: root_rest =>
      match heads others with
      | None => Stalled
      | Some (hs, others_rest) =>
          match gather_round (a :: map snd hs) with
          | Ok g => gather_loop root_rest others_rest (dict_set k g data)
          | Raise e => Aborted e
          end
      end
  end.

Definition gather_phase (locals : list local_data) : outcome local_data :=
  match locals with
  | [] => Finished []
  | root_local :: others =>
      gather_loop (pending root_local) (map pending others) []
  end.

(** ** [create], lines 231-270: the dataset the root holds before writing.
    An exception on any rank during its map loop or consolidation ends the
    job before the gather. *)
Definition map_phase (extract : string -> option record) (dirs : list string)
    (size : nat) : result (list local_data) :=
  mapM (fun rank => worker_local extract dirs rank size) (seq 0 size).

Definition create_data (extract : string -> option record)
    (dirs : list string) (size : nat) : outcome local_data :=
  match map_phase extract dirs size with
  | Raise e => Aborted e
  | Ok locals => gather_phase locals
  end.

(** ** What each unit adds to a key

    The names used to state where the rows of a unit end up. *)

(** The record a rank accumulates for unit [i]: the extractor's record with
    its storm tag; nothing when the extractor found no data. *)
Definition tagged (extract : string -> option record) (dirs : list string)
    (i : nat) : option record :=
  match extract (nth i dirs ""%string) with
  | Some info =>
      match tag_storm i info with
      | Ok info' => Some info'
      | Raise _ => None
      end
  | None => None
  end.

(** The values a record holds under key [k] (one at most in a dictionary). *)
Definition items_of (k : string) (r : record) : list value :=
  map snd (filter (fun kv => String.eqb (fst kv) k) r).

(** The fragments the units [idxs] add to key [k], in that order. *)
Definition fragments (extract : string -> option record) (dirs : list string)
    (k : string) (idxs : list nat) : list value :=
  flat_map (fun i => match tagged extract dirs i with
                     | Some r => items_of k r
                     | None => []
                     end) idxs.

(** The list accumulated under [k] so far, [arrs[k]] if present. *)
Definition frags_of (k : string) (arrs : accum) : list value :=
  match dict_get k arrs with
  | Some l => l
  | None => []
  end.

(** The units in the order their rows reach the root: rank by rank, and
    within a rank in the order the rank visited them. *)
Definition gather_order (n size : nat) : list nat :=
  flat_map (fun rank => range rank n size) (seq 0 size).

(** The unit each gathered row of key [k] comes from, row by row. *)
Definition row_origin (extract : string -> option record) (dirs : list string)
    (size : nat) (k : string) : list nat :=
  flat_map (fun i => repeat i (list_sum (map value_rows (fragments extract dirs k [i]))))
           (gather_order (length dirs) size).


(** The arrays the ranks hold for key [k], in rank order. *)
Definition arrays_of (k : string) (locals : list local_data)
  : result (list ndarray) :=
  mapM (fun ld => match dict_get k ld with
                  | Some a => Ok a
                  | None => Raise (KeyError k)
                  end) locals.

(** The precondition under which a round is well defined: the arrays are
    well formed, have at least one dimension, and agree with the root's on
    the trailing dimensions. *)
Definition round_ready (root_local : ndarray) (locals : list ndarray) : Prop :=
  forall a, In a locals ->
            wf a = true /\ shape a = rows a :: tl (shape root_local).

(** Every record the extractor returns is a dictionary: no key twice. *)
Definition records_are_dicts (extract : string -> option record) : Prop :=
  forall d info, extract d = Some info -> NoDup (dict_keys info).

(** All ranks reach the gather loop with the same key sequence. *)
Definition same_keys (locals : list local_data) : Prop :=
  forall ld, In ld locals -> gather_keys ld = gather_keys (hd [] locals).

End Dataset.
Import Dataset.

(* ================================================================== *)
(** * Concrete runs *)
(* ================================================================== *)

Module Examples.

(** A one-dimensional array. *)
Definition arr1 (xs : list Z) : ndarray :=
  {| shape := [length xs]; flat := xs |}.

(** A data directory given as [./data]: two storm directories exist. *)
Definition fs_dot : filesystem := {|
  listdir := fun p =>
    if String.eqb p "./data/storms" then Some ["s001"; "s002"]%string else None;
  isdir := fun _ => true;
  h5file := fun _ => None
|}.

(** [os.listdir] hands the storm directories back in an order of its own. *)
Definition fs_unsorted : filesystem := {|
  listdir := fun p =>
    if String.eqb p "data/storms" then Some ["s002"; "s001"; "notes.txt"]%string
    else None;
  isdir := fun p => negb (String.eqb p "data/storms/notes.txt");
  h5file := fun _ => None
|}.

(** A data directory with both reference files, all arrays of length 3. *)
Definition fs_mesh : filesystem := {|
  listdir := fun _ => None;
  isdir := fun _ => false;
  h5file := fun p =>
    if String.eqb p "data/coastal_dist.hdf5"
    then Some [("dist", [7; 8; 9]%Z)]
    else if String.eqb p "data/bathy_stats.hdf5"
    then Some [("depth_mean", [1; 2; 3]%Z); ("depth_std", [4; 5; 6]%Z)]
    else None
|}.

(** Two storms on two ranks; the second storm has no usable data. *)
Definition extract_one_missing (d : string) : option record :=
  if String.eqb d "data/storms/s001"
  then Some [("maxele", VArr (arr1 [11; 12; 13]%Z));
             ("inds", VArr (arr1 [4; 8; 9]%Z))]
  else None.

Definition dirs_two : list string :=
  ["data/storms/s001"; "data/storms/s002"]%string.

(** Four storms on two ranks; [maxele] has 3, 5, 2 and 4 rows, and the
    elements of each array name the storm they come from. *)
Definition extract_four (d : string) : option record :=
  if String.eqb d "data/storms/s000"
  then Some [("maxele", VArr (arr1 [100; 101; 102]%Z));
             ("inds", VArr (arr1 [7; 8; 9]%Z))]
  else if String.eqb d "data/storms/s001"
  then Some [("maxele", VArr (arr1 [110; 111; 112; 113; 114]%Z));
             ("inds", VArr (arr1 [1; 2; 3; 4; 5]%Z))]
  else if String.eqb d "data/storms/s002"
  then Some [("maxele", VArr (arr1 [120; 121]%Z));
             ("inds", VArr (arr1 [5; 6]%Z))]
  else if String.eqb d "data/storms/s003"
  then Some [("maxele", VArr (arr1 [130; 131; 132; 133]%Z));
             ("inds", VArr (arr1 [2; 4; 6; 8]%Z))]
  else None.

Definition dirs_four : list string :=
  ["data/storms/s000"; "data/storms/s001";
   "data/storms/s002"; "data/storms/s003"]%string.

Definition locals_four : list local_data :=
  [[("maxele", arr1 [100; 101; 102; 120; 121]%Z);
    ("inds", arr1 [7; 8; 9; 5; 6]%Z);
    ("storm", arr1 [0; 0; 0; 2; 2]%Z)];
   [("maxele", arr1 [110; 111; 112; 113; 114; 130; 131; 132; 133]%Z);
    ("inds", arr1 [1; 2; 3; 4; 5; 2; 4; 6; 8]%Z);
    ("storm", arr1 [1; 1; 1; 1; 1; 3; 3; 3; 3]%Z)]].

Definition data_four : local_data :=
  [("inds", arr1 [7; 8; 9; 5; 6; 1; 2; 3; 4; 5; 2; 4; 6; 8]%Z);
   ("maxele", arr1 [100; 101; 102; 120; 121;
                    110; 111; 112; 113; 114; 130; 131; 132; 133]%Z);
   ("storm", arr1 [0; 0; 0; 2; 2; 1; 1; 1; 1; 1; 3; 3; 3; 3]%Z)].

(** Two storms on one rank, as the extractor builds its records: two
    selected indices each, and one landfall location (a [1 x 2] array) per
    storm. *)
Definition extract_landfall (d : string) : option record :=
  if String.eqb d "data/storms/s000"
  then Some [("maxele", VArr (arr1 [100; 101]%Z));
             ("landfall_location",
              VArr {| shape := [1; 2]; flat := [29; -90]%Z |});
             ("inds", VArr (arr1 [7; 8]%Z))]
  else if String.eqb d "data/storms/s001"
  then Some [("maxele", VArr (arr1 [110; 111]%Z));
             ("landfall_location",
              VArr {| shape := [1; 2]; flat := [30; -89]%Z |});
             ("inds", VArr (arr1 [3; 4]%Z))]
  else None.

Definition data_landfall : local_data :=
  [("inds", arr1 [7; 8; 3; 4]%Z);
   ("landfall_location", {| shape := [2; 2]; flat := [29; -90; 30; -89]%Z |});
   ("maxele", arr1 [100; 101; 110; 111]%Z);
   ("storm", arr1 [0; 0; 1; 1]%Z)].

(** One storm whose record holds a key with no rows. *)
Definition extract_empty_key (d : string) : option record :=
  if String.eqb d "data/storms/s000"
  then Some [("inds", VArr (arr1 [7; 8]%Z));
             ("extra", VArr {| shape := [0; 3]; flat := [] |})]
  else None.

End Examples.

(* ================================================================== *)
(** * Statements of the specification, as worded there *)
(* ================================================================== *)

Module AsStated.



(** C3 as worded: every key present on at least one rank has a gathered
    array, whose first dimension is the sum over the ranks of the rank's
    local row count for the key. *)
Definition C3 : Prop :=
  forall extract dirs size locals k,
    map_phase extract dirs size = Ok locals ->
    (exists ld, In ld locals /\ In k (dict_keys ld)) ->
    exists data g,
      create_data extract dirs size = Finished data
      /\ dict_get k data = Some g
      /\ rows g
         = list_sum (map (fun ld => match dict_get k ld with
                                    | Some a => rows a
                                    | None => 0
                                    end) locals).

(** C5 as worded: the enumerated unit list is sorted. *)
Definition C5 : Prop :=
  forall fs datadir stormsdir dirs,
    enumerate_units fs datadir stormsdir = Ok dirs ->
    sorted dirs = dirs.

(** C9 as worded: a key for which every rank reports zero rows has no entry
    in the dataset. *)
Definition C9 : Prop :=
  forall extract dirs size locals data k,
    map_phase extract dirs size = Ok locals ->
    gather_phase locals = Finished data ->
    (forall ld a, In ld locals -> dict_get k ld = Some a -> rows a = 0) ->
    dict_get k data = None.

End AsStated.

(* ================================================================== *)
(** * [dataset.py], the parts around the gather *)
(* ================================================================== *)

From Stdlib Require Import QArith.
Close Scope Q_scope.

(** ** [determine_landfall], the scan for the landfall index (lines 25-37)

    The track is the list of its [(latitude, longitude)] rows; the
    coordinates are finite floating-point numbers, which the comparisons of
    the scan treat as the rationals they are.  [globe.is_land] is a
    collaborator. *)
Module Landfall.

Definition Qlt_bool (a b : Q) : bool := negb (Qle_bool b a).

(** [24 < lat < 31 and -98 < lon < -88] *)
Definition in_gulf (lat lon : Q) : bool :=
  Qlt_bool 24 lat && Qlt_bool lat 31
  && (Qlt_bool (-98) lon && Qlt_bool lon (-88)).

Section Scan.

Variable is_land : Q -> Q -> bool.

(** The loop from index [i] on, with [was_land] as the previous iteration
    left it; [Some t] is the [break] with [t = i], [None] the loop running
    out. *)
Fixpoint landfall_scan (i : nat) (was_land : bool) (coords : list (Q * Q))
  : option nat :=
  match coords with
  | [] => None
  | (lat, lon) :: rest =>
      let land := is_land lat lon in
      if negb was_land && land && in_gulf lat lon then Some i
      else landfall_scan (S i) land rest
  end.

Definition landfall_index (track_coords : list (Q * Q)) : option nat :=
  landfall_scan 0 false track_coords.

(** Row [j] of the track is on land. *)
Definition on_land (track_coords : list (Q * Q)) (j : nat) : bool :=
  match nth_error track_coords j with
  | Some (lat, lon) => is_land lat lon
  | None => false
  end.

(** Row [j] comes onto land inside the box: it is on land and in the box,
    and it is the first row or the row before it is off land. *)
Definition comes_ashore (track_coords : list (Q * Q)) (j : nat) : bool :=
  match nth_error track_coords j with
  | Some (lat, lon) =>
      is_land lat lon && in_gulf lat lon
      && match j with
         | 0 => true
         | S p => negb (on_land track_coords p)
         end
  | None => false
  end.

End Scan.

End Landfall.
Import Landfall.

(** ** [_extract_storm_data] *)
Module Extractor.

(** Lines 80-83: the storm's own mesh variables, completed with the shared
    ones it does not have. *)
Definition merge_mesh_vars (local_mesh_vars shared : dict (list Z))
  : dict (list Z) :=
  fold_left (fun acc kv =>
               match dict_get (fst kv) acc with
               | Some _ => acc
               | None => dict_set (fst kv) (snd kv) acc
               end)
            shared local_mesh_vars.

(** [np.where(mask)[0]]: the indices at which the mask holds. *)
Fixpoint where_from (i : nat) (mask : list bool) : list nat :=
  match mask with
  | [] => []
  | b :: t => if b then i :: where_from (S i) t else where_from (S i) t
  end.

Definition np_where (mask : list bool) : list nat := where_from 0 mask.

(** [l[::step]]: every [step]-th item, from the front for a positive step
    and from the back for a negative one; a step of zero is an error. *)
Definition slice_by {A} (step : Z) (l : list A) : result (list A) :=
  if (step =? 0)%Z then Raise ValueError
  else if (0 <? step)%Z then Ok (slice_step 0 (Z.to_nat step) l)
  else Ok (slice_step 0 (Z.to_nat (- step)) (rev l)).

(** Line 102: [inds = np.where(mask)[0][::downsample_factor]] *)
Definition select_inds (mask : list bool) (downsample_factor : Z)
  : result (list nat) :=
  slice_by downsample_factor (np_where mask).

(** [arr[inds]] for a one-dimensional array and an array of non-negative
    indices: an index past the end raises. *)
Definition take (arr : list Z) (inds : list nat) : result ndarray :=
  vals <- mapM (fun i => match nth_error arr i with
                         | Some v => Ok v
                         | None => Raise IndexError
                         end) inds ;;
  Ok {| shape := [length inds]; flat := vals |}.

(** Lines 138-139: [for k, arr in local_mesh_vars.items(): res[k] = arr[inds]] *)
Fixpoint add_mesh_vars (inds : list nat) (items : list (string * list Z))
    (res : record) : result record :=
  match items with
  | [] => Ok res
  | (k, arr) :: t =>
      a <- take arr inds ;; add_mesh_vars inds t (dict_set k (VArr a) res)
  end.

(** Lines 130-141: the record is completed and returned.  [res] holds the
    forcing statistics and encodings computed before. *)
Definition finish_record (res : record)
    (x y landfall_dists depth zeta_max : list Z) (landfall_coord : Z * Z)
    (inds : list nat) (local_mesh_vars : dict (list Z)) : result record :=
  maxele <- take zeta_max inds ;;
  xs <- take x inds ;;
  ys <- take y inds ;;
  dists <- take landfall_dists inds ;;
  depths <- take depth inds ;;
  add_mesh_vars inds local_mesh_vars
    (dict_update res
       [("x", VArr xs); ("y", VArr ys);
        ("landfall_dist", VArr dists); ("depth", VArr depths);
        ("landfall_location",
         VArr {| shape := [1; 2];
                 flat := [fst landfall_coord; snd landfall_coord] |});
        ("maxele", VArr maxele);
        ("inds", VArr {| shape := [length inds];
                         flat := map Z.of_nat inds |})]).

(** The node arrays of [fort.73.nc] and the distances to the landfall
    computed from them (lines 92-98). *)
Record node_arrays : Type := {
  x : list Z;
  y : list Z;
  depth : list Z;
  landfall_dists : list Z
}.

(** What the function reads and computes for one storm apart from the
    lines modelled here, each with the error it may end in: the track and
    the landfall [determine_landfall] finds in it, if any (lines 72-75);
    the time indices of [fort.73.nc] within the window around the landfall
    (lines 85-88); the node arrays (lines 92-98); the node mask as a
    function of the coastal distances, a comparison of arrays that fails
    when their lengths do not fit (lines 99-100); the forcing read from
    [fort.73.nc] and [fort.74.nc], its statistics and their encodings, as
    a function of the selected indices (lines 106-128); and the maximum
    elevations of [maxele.63.nc] (line 130). *)
Record storm_inputs : Type := {
  landfall : result (option (Z * Z));
  time_inds : result (list nat);
  nodes : result node_arrays;
  node_mask : list Z -> result (list bool);
  forcing_stats : list nat -> result record;
  zeta_max : result (list Z)
}.

(** The function, for the storm directory [dirname] with the shared mesh
    variables [self.mesh_vars] of the rank. *)
Definition _extract_storm_data (fs : filesystem) (shared : dict (list Z))
    (dirname : string) (s : storm_inputs) (downsample_factor : Z)
  : result (option record) :=
  time <- landfall s ;;
  match time with
  | None => Ok None
  | Some landfall_coord =>
      own <- _get_mesh_vars fs dirname ;;
      let local_mesh_vars := merge_mesh_vars own shared in
      time_inds <- time_inds s ;;
      match time_inds with
      | [] => Ok None
      | _ :: _ =>
          nd <- nodes s ;;
          match dict_get "coastal_dist" local_mesh_vars with
          | None => Raise (KeyError "coastal_dist")
          | Some coastal =>
              mask <- node_mask s coastal ;;
              inds <- select_inds mask downsample_factor ;;
              match inds with
              | [] => Ok None
              | _ :: _ =>
                  res <- forcing_stats s inds ;;
                  maxele <- zeta_max s ;;
                  r <- finish_record res (x nd) (y nd)
                         (landfall_dists nd) (depth nd) maxele
                         landfall_coord inds local_mesh_vars ;;
                  Ok (Some r)
              end
          end
      end
  end.

End Extractor.
Import Extractor.

(** ** [create] with an extractor that can raise

    Line 232 calls [_extract_storm_data] without a guard: an exception of
    the call ends the loop of the rank, and with it the run. *)
Module Unguarded.

(** What a call that returns hands to the loop. *)
Definition returned (extract : string -> result (option record))
    (d : string) : option record :=
  match extract d with
  | Ok info => info
  | Raise _ => None
  end.

Section Create.

Variable _extract_storm_data : string -> result (option record).
Variable dirs : list string.

Fixpoint map_loop (idxs : list nat) (arrs : accum) (out : list string)
  : result (accum * list string) :=
  match idxs with
  | [] => Ok (arrs, out)
  | i :: rest =>
      info <- _extract_storm_data (nth i dirs ""%string) ;;
      match info with
      | None => map_loop rest arrs (out ++ [missing_message i])
      | Some info =>
          info' <- tag_storm i info ;;
          map_loop rest (fold_left append_item info' arrs) out
      end
  end.

Definition run_units (idxs : list nat) : result (local_data * list string) :=
  st <- map_loop idxs [] [] ;;
  ld <- consolidate (fst st) [] ;;
  Ok (ld, snd st).

Definition worker (rank size : nat) : result (local_data * list string) :=
  run_units (range rank (length dirs) size).

Definition worker_local (rank size : nat) : result local_data :=
  st <- worker rank size ;; Ok (fst st).

End Create.

Definition map_phase (extract : string -> result (option record))
    (dirs : list string) (size : nat) : result (list local_data) :=
  mapM (fun rank => worker_local extract dirs rank size) (seq 0 size).

Definition create_data (extract : string -> result (option record))
    (dirs : list string) (size : nat) : outcome local_data :=
  match map_phase extract dirs size with
  | Raise e => Aborted e
  | Ok locals => gather_phase locals
  end.

End Unguarded.

(** ** [create] and [_init_shared_arrs], setup and output *)
Module Setup.

(** The module's [default_kwargs]. *)
Definition default_kwargs : dict Z :=
  [("hours_before", 6); ("hours_after", 6); ("cutoff_coastal_dist", 30);
   ("max_depth", 2); ("min_depth", -4); ("r", 150);
   ("downsample_factor", 10)]%Z.

(** Lines 198-199: [params = default_kwargs.copy(); params.update(kwargs)] *)
Definition create_params (kwargs : dict Z) : dict Z :=
  dict_update default_kwargs kwargs.

(** Lines 208-222 on the root: the unit list, the root's own read of the
    coastal distances, and the root's part of [_init_shared_arrs]. *)
Definition create_setup (fs : filesystem) (datadir stormsdir : string)
  : result (list string * (list string * nat)) :=
  dirs <- enumerate_units fs datadir stormsdir ;;
  coastal_dists <-
    match h5file fs (datadir ++ "/coastal_dist.hdf5")%string with
    | None => Raise OSError
    | Some coastal_dist_ds =>
        match dict_get "dist" coastal_dist_ds with
        | Some a => Ok a
        | None => Raise (KeyError "dist")
        end
    end ;;
  built <- _init_shared_arrs_root fs datadir ;;
  Ok (dirs, built).

(** [os.path.basename]: what follows the last slash. *)
Fixpoint basename (p : string) : string :=
  match p with
  | EmptyString => EmptyString
  | String c t =>
      if py_in "/" t then basename t
      else if Ascii.eqb c "/" then t else p
  end.

(** Line 277: [[os.path.basename(d) for d in dirs]] *)
Definition storm_names (dirs : list string) : list string :=
  map basename dirs.

(** *** [_init_shared_arrs], all ranks (lines 170-192)

    The windows allocated so far, each with the contents of the segment of
    rank 0 that every rank maps, and [self.mesh_vars] of every rank, which
    maps a name to its window. *)
Record shared_state : Type := {
  windows : list (list Z);
  mesh_views : list (dict nat)
}.

(** [arr[:] = src] on a one-dimensional array: a source of the same length
    is copied, one of length 1 is repeated, any other does not fit. *)
Definition assign_all (arr src : list Z) : result (list Z) :=
  if length src =? length arr then Ok src
  else if length src =? 1 then Ok (repeat (hd 0%Z src) (length arr))
  else Raise ValueError.

Section SharedArrays.

Variable num_nodes : nat.

(** What the memory of a fresh window holds before anyone writes it, per
    window and offset. *)
Variable uninit : nat -> nat -> Z.

(** The root's loaded arrays. *)
Variable mesh_vars : dict (list Z).

(** One turn of the loop over [var_names]: every rank maps the new window
    under the name, and rank 0 fills it. *)
Definition allocate (st : shared_state) (v : string) : result shared_state :=
  let win := length (windows st) in
  let arr := map (uninit win) (seq 0 num_nodes) in
  match dict_get v mesh_vars with
  | None => Raise (KeyError v)
  | Some src =>
      filled <- assign_all arr src ;;
      Ok {| windows := windows st ++ [filled];
            mesh_views := map (dict_set v win) (mesh_views st) |}
  end.

Fixpoint allocate_all (var_names : list string) (st : shared_state)
  : result shared_state :=
  match var_names with
  | [] => Ok st
  | v :: rest => st' <- allocate st v ;; allocate_all rest st'
  end.

End SharedArrays.

(** The function: the state all ranks share after the barrier. *)
Definition _init_shared_arrs (fs : filesystem) (datadir : string)
    (size : nat) (uninit : nat -> nat -> Z) : result shared_state :=
  mesh_vars <- _get_mesh_vars fs datadir ;;
  match dict_get "coastal_dist" mesh_vars with
  | None => Raise (KeyError "coastal_dist")
  | Some coastal =>
      let num_nodes := length coastal in
      _ <- check_lengths num_nodes mesh_vars ;;
      let var_names := dict_keys mesh_vars in
      allocate_all num_nodes uninit mesh_vars var_names
        {| windows := []; mesh_views := repeat [] size |}
  end.

(** What rank [rank] reads as [self.mesh_vars[v]]. *)
Definition read_mesh_var (st : shared_state) (rank : nat) (v : string)
  : option (list Z) :=
  match nth_error (mesh_views st) rank with
  | None => None
  | Some view =>
      match dict_get v view with
      | None => None
      | Some win => nth_error (windows st) win
      end
  end.

End Setup.
Import Setup.

(** ** More concrete runs *)
Module MoreExamples.

(** A data directory with both reference files and three storm
    directories, one of them with a dot in its name. *)
Definition fs_full : filesystem := {|
  listdir := fun p =>
    if String.eqb p "data/storms"
    then Some ["s002"; "s001"; "s003.old"]%string else None;
  isdir := fun _ => true;
  h5file := fun p =>
    if String.eqb p "data/coastal_dist.hdf5"
    then Some [("dist", [7; 8; 9]%Z)]
    else if String.eqb p "data/bathy_stats.hdf5"
    then Some [("depth_mean", [1; 2; 3]%Z); ("depth_std", [4; 5; 6]%Z)]
    else None
|}.

(** A land mask with the coast along latitude 29, and a track that starts
    at sea, is over land outside the box at its second row, back at sea at
    the third, and comes ashore inside the box at the fourth. *)
Definition land_north_of_29 (lat lon : Q) : bool := Qle_bool 29 lat.

Definition track : list (Q * Q) :=
  [(25 # 1, - (90 # 1)); (30 # 1, - (80 # 1)); (28 # 1, - (85 # 1));
   (59 # 2, - (90 # 1)); (30 # 1, - (90 # 1))]%Q.

(** A mask over eight nodes. *)
Definition mask8 : list bool :=
  [false; true; true; false; true; true; true; false].

(** The inputs of one storm over eight nodes, with a landfall, and the
    shared mesh variables of the rank. *)
Definition shared8 : dict (list Z) :=
  [("coastal_dist", [5; 5; 5; 5; 5; 5; 5; 5]%Z);
   ("depth_mean", [1; 2; 3; 4; 5; 6; 7; 8]%Z)].

Definition nodes8 : node_arrays := {|
  x := [10; 11; 12; 13; 14; 15; 16; 17]%Z;
  y := [20; 21; 22; 23; 24; 25; 26; 27]%Z;
  depth := [0; 1; 0; 1; 0; 1; 0; 1]%Z;
  landfall_dists := [30; 31; 32; 33; 34; 35; 36; 37]%Z
|}.

Definition zeta8 : list Z := [40; 41; 42; 43; 44; 45; 46; 47]%Z.

Definition storm8 : storm_inputs := {|
  landfall := Ok (Some (29, -90)%Z);
  time_inds := Ok [3; 4; 5];
  nodes := Ok nodes8;
  node_mask := fun coastal =>
    if length coastal =? 8 then Ok mask8 else Raise ValueError;
  forcing_stats := fun inds =>
    Ok [("max_pressure", VArr {| shape := [length inds];
                                 flat := map Z.of_nat inds |})];
  zeta_max := Ok zeta8
|}.

(** A file system without any file. *)
Definition fs_empty : filesystem := {|
  listdir := fun _ => None;
  isdir := fun _ => false;
  h5file := fun _ => None
|}.

End MoreExamples.

(* ================================================================== *)
(** * Facts about the Python model *)
(* ================================================================== *)

Section RangeFacts.

Variable step : nat.
Hypothesis step_pos : 1 <= step.

(** Enough fuel is any fuel. *)
Lemma range_loop_fuel (f1 : nat) :
  forall cur stop f2,
    stop <= cur + f1 -> stop <= cur + f2 ->
    range_loop f1 cur stop step = range_loop f2 cur stop step.
Proof.
  induction f1 as [|f1 IH]; intros cur stop f2 H1 H2.
  - destruct f2 as [|f2]; simpl; [reflexivity|].
    destruct (Nat.ltb_spec cur stop); [lia | reflexivity].
  - destruct f2 as [|f2]; simpl.
    + destruct (Nat.ltb_spec cur stop); [lia | reflexivity].
    + destruct (Nat.ltb_spec cur stop); [|reflexivity].
      f_equal. apply IH; lia.
Qed.

(** The values of a range are [cur], [cur + step], [cur + 2 step], ...,
    one for each multiple that stays below [stop]. *)
Lemma range_loop_closed (fuel : nat) :
  forall cur stop,
    stop <= cur + fuel ->
    exists m,
      range_loop fuel cur stop step = map (fun j => cur + j * step) (seq 0 m)
      /\ forall j, cur + j * step < stop <-> j < m.
Proof.
  induction fuel as [|f IH]; intros cur stop Hf.
  - exists 0. split; [reflexivity|]. intros j. nia.
  - simpl. destruct (Nat.ltb_spec cur stop) as [Hlt|Hge].
    + destruct (IH (cur + step) stop) as [m [Heq Hm]]; [lia|].
      exists (S m). split.
      * rewrite Heq. simpl. f_equal; [lia|].
        rewrite <- seq_shift, map_map. apply map_ext. intros j. simpl. lia.
      * intros [|j]; [lia|].
        specialize (Hm j). simpl. split; intros H.
        -- apply -> Nat.succ_lt_mono. apply Hm. lia.
        -- apply Nat.succ_lt_mono in H. apply Hm in H. lia.
    + exists 0. split; [reflexivity|]. intros j. nia.
Qed.

Lemma range_closed (start stop : nat) :
  exists m,
    range start stop step = map (fun j => start + j * step) (seq 0 m)
    /\ forall j, start + j * step < stop <-> j < m.
Proof. apply range_loop_closed. lia. Qed.

Lemma in_range (start stop i : nat) :
  In i (range start stop step) <->
  i < stop /\ exists j, i = start + j * step.
Proof.
  destruct (range_closed start stop) as [m [Heq Hm]]. rewrite Heq.
  rewrite in_map_iff. split.
  - intros [j [Hj Hin]]. apply in_seq in Hin. subst i. split.
    + apply Hm. lia.
    + exists j. reflexivity.
  - intros [Hlt [j Hj]]. subst i. exists j. split; [reflexivity|].
    apply in_seq. apply Hm in Hlt. lia.
Qed.

Lemma range_NoDup (start stop : nat) : NoDup (range start stop step).
Proof.
  destruct (range_closed start stop) as [m [Heq _]]. rewrite Heq.
  apply Finite.Injective_map_NoDup; [|apply seq_NoDup].
  intros a b Hab. nia.
Qed.

Lemma range_loop_shift (fuel : nat) :
  forall cur stop,
    range_loop fuel (S cur) (S stop) step
    = map S (range_loop fuel cur stop step).
Proof.
  induction fuel as [|f IH]; intros cur stop; simpl; [reflexivity|].
  change (S cur <? S stop) with (cur <? stop).
  destruct (cur <? stop); [|reflexivity].
  simpl. f_equal. apply IH.
Qed.

(** Indexing with a range is the strided slice [l[start::step]]. *)
Lemma range_loop_slice {A} (d : A) (l : list A) :
  forall cur fuel,
    length l <= cur + fuel ->
    map (fun i => nth i l d) (range_loop fuel cur (length l) step)
    = slice_step cur step l.
Proof.
  induction l as [|x t IH]; intros cur fuel Hf.
  - destruct fuel; reflexivity.
  - destruct cur as [|c].
    + destruct fuel as [|f]; [simpl in Hf; lia|].
      simpl. f_equal.
      assert (E : range_loop f step (S (length t)) step
                  = range_loop f (S (step - 1)) (S (length t)) step)
        by (f_equal; lia).
      rewrite E, range_loop_shift, map_map. simpl.
      apply IH. simpl in Hf. lia.
    + simpl length. rewrite range_loop_shift, map_map. simpl.
      apply IH. simpl in Hf. lia.
Qed.

End RangeFacts.

Lemma map_nth_seq {A} (d : A) (l : list A) :
  map (fun i => nth i l d) (seq 0 (length l)) = l.
Proof.
  induction l as [|x t IH]; [reflexivity|].
  simpl. f_equal. rewrite <- seq_shift, map_map. exact IH.
Qed.

Lemma flat_map_map_out {A B C} (g : B -> C) (f : A -> list B) (l : list A) :
  flat_map (fun x => map g (f x)) l = map g (flat_map f l).
Proof.
  induction l as [|x t IH]; simpl; [reflexivity|].
  rewrite map_app, IH. reflexivity.
Qed.

Lemma NoDup_flat_map {A B} (f : A -> list B) (l : list A) :
  NoDup l ->
  (forall x, In x l -> NoDup (f x)) ->
  (forall x y z, In x l -> In y l -> In z (f x) -> In z (f y) -> x = y) ->
  NoDup (flat_map f l).
Proof.
  induction l as [|x t IH]; intros Hnd Hf Hdisj; simpl; [constructor|].
  inversion Hnd as [|? ? Hnotin Hnd']; subst.
  apply NoDup_app.
  - apply Hf. left. reflexivity.
  - apply IH; [assumption| |].
    + intros y Hy. apply Hf. right. exact Hy.
    + intros a b z Ha Hb. apply Hdisj; right; assumption.
  - intros z Hz Hz'. apply in_flat_map in Hz'. destruct Hz' as [y [Hy Hzy]].
    assert (x = y) by (apply (Hdisj x y z); simpl; auto).
    subst y. contradiction.
Qed.

(** Every index below [n] is visited by exactly one rank. *)
Lemma round_robin_indices (n size : nat) :
  1 <= size ->
  Permutation (flat_map (fun rank => range rank n size) (seq 0 size)) (seq 0 n).
Proof.
  intros Hs. apply NoDup_Permutation.
  - apply NoDup_flat_map.
    + apply seq_NoDup.
    + intros r _. apply range_NoDup. exact Hs.
    + intros r1 r2 i H1 H2 Hi1 Hi2.
      apply in_seq in H1. apply in_seq in H2.
      apply in_range in Hi1; [|exact Hs]. apply in_range in Hi2; [|exact Hs].
      destruct Hi1 as [_ [j1 E1]]. destruct Hi2 as [_ [j2 E2]].
      assert (M1 : i mod size = r1).
      { rewrite E1, Nat.Div0.mod_add. apply Nat.mod_small. lia. }
      assert (M2 : i mod size = r2).
      { rewrite E2, Nat.Div0.mod_add. apply Nat.mod_small. lia. }
      congruence.
  - apply seq_NoDup.
  - intros i. rewrite in_flat_map, in_seq. split.
    + intros [r [_ Hi]]. apply in_range in Hi; [|exact Hs]. lia.
    + intros [_ Hi]. exists (i mod size). split.
      * apply in_seq. split; [lia|]. simpl. apply Nat.mod_upper_bound. lia.
      * apply in_range; [exact Hs|]. split; [lia|].
        exists (i / size). rewrite (Nat.div_mod_eq i size) at 1. lia.
Qed.


(* ================================================================== *)
(** * Unit enumeration and the shared reference arrays *)
(* ================================================================== *)

Lemma prefix_empty (s : string) : String.prefix "" s = true.
Proof. destruct s; reflexivity. Qed.

(** A one-character needle is in a concatenation iff it is in a part. *)
Lemma py_in_char_app (c : ascii) (a b : string) :
  py_in (String c "") (a ++ b)%string
  = py_in (String c "") a || py_in (String c "") b.
Proof.
  induction a as [|x t IH]; [reflexivity|].
  cbn [String.append py_in String.prefix].
  rewrite IH, !prefix_empty.
  destruct (ascii_dec c x); [reflexivity|].
  reflexivity.
Qed.

Lemma path_has_dot (datadir stormsdir e : string) :
  py_in "." datadir = true \/ py_in "." stormsdir = true ->
  py_in "." ((datadir ++ "/" ++ stormsdir) ++ "/" ++ e)%string = true.
Proof.
  intros Hdot. rewrite !py_in_char_app.
  destruct Hdot as [H|H]; rewrite H; simpl; rewrite ?orb_true_r; reflexivity.
Qed.

Lemma filter_all_false {A} (f : A -> bool) (l : list A) :
  (forall x, In x l -> f x = false) -> filter f l = [].
Proof.
  induction l as [|x t IH]; intros H; [reflexivity|].
  simpl. rewrite (H x (or_introl eq_refl)).
  apply IH. intros y Hy. apply H. right. exact Hy.
Qed.

Lemma enumerate_fold (keep : string -> bool) (pre : string -> string)
    (entries : list string) :
  forall acc,
    fold_left (fun dirs d => if keep (pre d) then dirs ++ [pre d] else dirs)
              entries acc
    = acc ++ filter keep (map pre entries).
Proof.
  induction entries as [|e t IH]; intros acc; simpl.
  - rewrite app_nil_r. reflexivity.
  - rewrite IH. destruct (keep (pre e)); [|reflexivity].
    rewrite <- app_assoc. reflexivity.
Qed.

(** The unit list is the listing, in the listing's order, with the entries
    that are no directory or have a dot in their path left out. *)
Lemma enumerate_units_filter (fs : filesystem) (datadir stormsdir : string)
    (entries : list string) :
  listdir fs (datadir ++ "/" ++ stormsdir)%string = Some entries ->
  enumerate_units fs datadir stormsdir
  = Ok (filter (fun d => isdir fs d && negb (py_in "." d))
          (map (fun e => ((datadir ++ "/" ++ stormsdir) ++ "/" ++ e)%string)
               entries)).
Proof.
  intros H. unfold enumerate_units. rewrite H. f_equal.
  apply (enumerate_fold (fun d => isdir fs d && negb (py_in "." d))
           (fun e => ((datadir ++ "/" ++ stormsdir) ++ "/" ++ e)%string)).
Qed.

Lemma bcast_root_value {A} (v : A) (rest : list A) :
  bcast 0 (v :: rest) = repeat v (S (length rest)).
Proof.
  unfold bcast. simpl. f_equal.
  induction rest as [|x t IH]; simpl; [reflexivity|]. f_equal. exact IH.
Qed.

Lemma check_lengths_ok (n : nat) (items : list (string * list Z)) :
  check_lengths n items = Ok tt <->
  forall k arr, In (k, arr) items -> length arr = n.
Proof.
  induction items as [|[k arr] t IH]; simpl.
  - split; [intros _ k arr [] | reflexivity].
  - destruct (Nat.eqb_spec (length arr) n) as [E|E].
    + rewrite IH. split.
      * intros H k' arr' [Heq|Hin]; [congruence | eauto].
      * intros H k' arr' Hin. apply (H k'). right. exact Hin.
    + split; [discriminate|]. intros H. exfalso. apply E.
      apply (H k). left. reflexivity.
Qed.

Lemma check_lengths_cases (n : nat) (items : list (string * list Z)) :
  check_lengths n items = Ok tt \/ check_lengths n items = Raise ValueError.
Proof.
  induction items as [|[k arr] t IH]; simpl; [left; reflexivity|].
  destruct (length arr =? n); [exact IH | right; reflexivity].
Qed.

Lemma check_lengths_fail (n : nat) (items : list (string * list Z)) :
  check_lengths n items = Raise ValueError <->
  exists k arr, In (k, arr) items /\ length arr <> n.
Proof.
  induction items as [|[k arr] t IH]; simpl.
  - split; [discriminate | intros [k [arr [[] _]]]].
  - destruct (Nat.eqb_spec (length arr) n) as [E|E].
    + rewrite IH. split.
      * intros [k' [arr' [Hin Hne]]]. exists k', arr'. auto.
      * intros [k' [arr' [[Heq|Hin] Hne]]]; [congruence|].
        exists k', arr'. auto.
    + split; [|reflexivity]. intros _. exists k, arr. auto.
Qed.


(* ================================================================== *)
(** * Sorting and dictionaries *)
(* ================================================================== *)

Lemma str_le_cases (a b : string) :
  str_le a b <-> a = b \/ String_as_OT.lt a b.
Proof.
  unfold str_le, String.leb.
  destruct (String.compare a b) eqn:E.
  - apply String_as_OT.cmp_eq in E. tauto.
  - apply String_as_OT.cmp_lt in E. tauto.
  - split; [discriminate|]. intros [H|H].
    + apply String_as_OT.cmp_eq in H. unfold String_as_OT.cmp in H. congruence.
    + apply String_as_OT.cmp_lt in H. unfold String_as_OT.cmp in H. congruence.
Qed.

Lemma str_le_trans (a b c : string) : str_le a b -> str_le b c -> str_le a c.
Proof.
  rewrite !str_le_cases. intros [->|H1] [->|H2]; auto.
  right. exact (String_as_OT.lt_trans _ _ _ H1 H2).
Qed.

Lemma str_le_total (a b : string) : str_le a b \/ str_le b a.
Proof. apply String.leb_total. Qed.

Lemma insert_sorted_perm (x : string) (l : list string) :
  Permutation (insert_sorted x l) (x :: l).
Proof.
  induction l as [|y t IH]; simpl; [reflexivity|].
  destruct (String.leb x y); [reflexivity|].
  rewrite IH. apply perm_swap.
Qed.

Lemma sorted_perm (l : list string) : Permutation (sorted l) l.
Proof.
  induction l as [|x t IH]; simpl; [reflexivity|].
  rewrite insert_sorted_perm, IH. reflexivity.
Qed.

Lemma insert_sorted_ordered (x : string) (l : list string) :
  StronglySorted str_le l -> StronglySorted str_le (insert_sorted x l).
Proof.
  induction 1 as [|y t Ht IH Hall]; simpl.
  - constructor; constructor.
  - destruct (String.leb x y) eqn:E.
    + constructor; [constructor; assumption|].
      constructor; [exact E|].
      eapply Forall_impl; [|exact Hall].
      intros z Hz. exact (str_le_trans _ _ _ E Hz).
    + constructor; [exact IH|].
      assert (Hyx : str_le y x).
      { destruct (str_le_total x y) as [H|H]; [unfold str_le in H; congruence|exact H]. }
      apply (Permutation_Forall (Permutation_sym (insert_sorted_perm x t))).
      constructor; assumption.
Qed.

Lemma sorted_ordered (l : list string) : StronglySorted str_le (sorted l).
Proof.
  induction l as [|x t IH]; simpl; [constructor|].
  apply insert_sorted_ordered. exact IH.
Qed.

(** A list of strings has one sorted arrangement. *)
Lemma ordered_unique (l1 : list string) :
  forall l2,
    StronglySorted str_le l1 -> StronglySorted str_le l2 ->
    Permutation l1 l2 -> l1 = l2.
Proof.
  induction l1 as [|x t IH]; intros l2 S1 S2 P.
  - apply Permutation_nil in P. congruence.
  - destruct l2 as [|y u].
    + apply Permutation_sym, Permutation_nil in P. discriminate.
    + inversion S1 as [|? ? St Hx]; subst.
      inversion S2 as [|? ? Su Hy]; subst.
      assert (x = y).
      { assert (Iy : In y (x :: t)) by
          (apply (Permutation_in _ (Permutation_sym P)); left; reflexivity).
        assert (Ix : In x (y :: u)) by
          (apply (Permutation_in _ P); left; reflexivity).
        destruct Iy as [->|Iy]; [reflexivity|].
        destruct Ix as [->|Ix]; [reflexivity|].
        rewrite Forall_forall in Hx, Hy.
        apply String.leb_antisym; [apply Hx | apply Hy]; assumption. }
      subst y. f_equal. apply IH; try assumption.
      exact (Permutation_cons_inv P).
Qed.

Lemma sorted_perm_eq (l1 l2 : list string) :
  Permutation l1 l2 -> sorted l1 = sorted l2.
Proof.
  intros P. apply ordered_unique; try apply sorted_ordered.
  rewrite !sorted_perm. exact P.
Qed.

Lemma sorted_In (l : list string) (k : string) : In k (sorted l) <-> In k l.
Proof.
  split; apply Permutation_in;
    [apply sorted_perm | apply Permutation_sym, sorted_perm].
Qed.

Lemma sorted_NoDup (l : list string) : NoDup l -> NoDup (sorted l).
Proof.
  apply Permutation_NoDup. apply Permutation_sym, sorted_perm.
Qed.

Section DictFacts.

Context {V : Type}.
Implicit Types (d : dict V) (k : string) (v : V).

Lemma dict_get_set_same d k v : dict_get k (dict_set k v d) = Some v.
Proof.
  induction d as [|[k' v'] t IH]; simpl.
  - rewrite String.eqb_refl. reflexivity.
  - destruct (String.eqb k' k) eqn:E; simpl.
    + rewrite String.eqb_refl. reflexivity.
    + rewrite E. exact IH.
Qed.

Lemma dict_get_set_other d k k' v :
  k <> k' -> dict_get k' (dict_set k v d) = dict_get k' d.
Proof.
  intros Hne. induction d as [|[k0 v0] t IH]; simpl.
  - apply String.eqb_neq in Hne. rewrite Hne. reflexivity.
  - destruct (String.eqb_spec k0 k) as [->|N]; simpl.
    + apply String.eqb_neq in Hne. rewrite Hne. reflexivity.
    + rewrite IH. reflexivity.
Qed.

Lemma dict_keys_set d k v k' :
  In k' (dict_keys (dict_set k v d)) <-> k' = k \/ In k' (dict_keys d).
Proof.
  unfold dict_keys. induction d as [|[k0 v0] t IH]; simpl.
  - intuition congruence.
  - destruct (String.eqb_spec k0 k) as [->|N]; simpl.
    + intuition congruence.
    + rewrite IH. intuition congruence.
Qed.

Lemma dict_set_NoDup d k v :
  NoDup (dict_keys d) -> NoDup (dict_keys (dict_set k v d)).
Proof.
  unfold dict_keys. induction d as [|[k0 v0] t IH]; simpl; intros Hnd.
  - constructor; [intros []|constructor].
  - inversion Hnd as [|? ? Hnot Hnd']; subst.
    destruct (String.eqb_spec k0 k) as [->|N]; simpl.
    + constructor; assumption.
    + constructor; [|apply IH; exact Hnd'].
      intros Hin. apply (dict_keys_set t k v k0) in Hin.
      destruct Hin as [->|Hin]; [apply N; reflexivity | contradiction].
Qed.

Lemma dict_get_None d k : dict_get k d = None <-> ~ In k (dict_keys d).
Proof.
  unfold dict_keys. induction d as [|[k0 v0] t IH]; simpl.
  - tauto.
  - destruct (String.eqb_spec k0 k) as [->|N].
    + split; [discriminate|]. intros H. exfalso. apply H. left. reflexivity.
    + rewrite IH. tauto.
Qed.

Lemma dict_get_Some_In d k v : dict_get k d = Some v -> In (k, v) d.
Proof.
  induction d as [|[k0 v0] t IH]; simpl; [discriminate|].
  destruct (String.eqb_spec k0 k) as [->|N].
  - intros [= ->]. left. reflexivity.
  - intros H. right. apply IH. exact H.
Qed.

Lemma dict_In_get d k v :
  NoDup (dict_keys d) -> In (k, v) d -> dict_get k d = Some v.
Proof.
  unfold dict_keys. induction d as [|[k0 v0] t IH]; simpl; intros Hnd Hin.
  - contradiction.
  - inversion Hnd as [|? ? Hnot Hnd']; subst.
    destruct Hin as [[= -> ->]|Hin].
    + rewrite String.eqb_refl. reflexivity.
    + destruct (String.eqb_spec k0 k) as [->|N].
      * exfalso. apply Hnot. apply (in_map fst) in Hin. exact Hin.
      * apply IH; assumption.
Qed.

Lemma dict_keys_In_get d k :
  In k (dict_keys d) <-> exists v, dict_get k d = Some v.
Proof.
  destruct (dict_get k d) as [v|] eqn:E.
  - split; [eauto|]. intros _. apply dict_get_Some_In in E.
    apply (in_map fst) in E. exact E.
  - apply dict_get_None in E. split; [contradiction|]. intros [v Hv]. discriminate.
Qed.

End DictFacts.

(** ** Consolidation keeps the keys *)

Lemma consolidate_keys (arrs : accum) :
  forall local ld,
    consolidate arrs local = Ok ld ->
    forall k, In k (dict_keys ld) <->
              In k (dict_keys arrs) \/ In k (dict_keys local).
Proof.
  induction arrs as [|[k0 v0] t IH]; simpl; intros local ld H k.
  - injection H as <-. tauto.
  - destruct (consolidate_key v0) as [a|e]; simpl in H; [|discriminate].
    rewrite (IH _ _ H k), dict_keys_set. intuition congruence.
Qed.

Lemma consolidate_NoDup (arrs : accum) :
  forall local ld,
    NoDup (dict_keys local) ->
    consolidate arrs local = Ok ld -> NoDup (dict_keys ld).
Proof.
  induction arrs as [|[k0 v0] t IH]; simpl; intros local ld Hnd H.
  - injection H as <-. exact Hnd.
  - destruct (consolidate_key v0) as [a|e]; simpl in H; [|discriminate].
    apply (IH _ _ (dict_set_NoDup local k0 a Hnd) H).
Qed.


(* ================================================================== *)
(** * The map loop and local consolidation *)
(* ================================================================== *)

Section MapLoop.

Variable extract : string -> option record.
Variable dirs : list string.

Lemma append_item_frags (arrs : accum) (kv : string * value) (k : string) :
  frags_of k (append_item arrs kv)
  = frags_of k arrs ++ (if String.eqb (fst kv) k then [snd kv] else []).
Proof.
  unfold append_item, frags_of.
  destruct (String.eqb_spec (fst kv) k) as [E|N].
  - rewrite <- E. destruct (dict_get (fst kv) arrs) as [l|];
      rewrite dict_get_set_same; reflexivity.
  - destruct (dict_get (fst kv) arrs) as [l|];
      rewrite (dict_get_set_other _ _ _ _ N), app_nil_r; reflexivity.
Qed.

Lemma fold_append_frags (items : record) :
  forall arrs k,
    frags_of k (fold_left append_item items arrs)
    = frags_of k arrs ++ items_of k items.
Proof.
  unfold items_of.
  induction items as [|kv t IH]; intros arrs k; simpl.
  - rewrite app_nil_r. reflexivity.
  - rewrite IH, append_item_frags, <- app_assoc.
    destruct (String.eqb (fst kv) k); reflexivity.
Qed.

Lemma append_item_keys (arrs : accum) (kv : string * value) (k : string) :
  In k (dict_keys (append_item arrs kv)) <-> k = fst kv \/ In k (dict_keys arrs).
Proof.
  unfold append_item. destruct (dict_get (fst kv) arrs); apply dict_keys_set.
Qed.

Lemma fold_append_keys (items : record) :
  forall arrs k,
    In k (dict_keys (fold_left append_item items arrs))
    <-> In k (dict_keys arrs) \/ In k (dict_keys items).
Proof.
  induction items as [|kv t IH]; intros arrs k; simpl.
  - tauto.
  - rewrite IH, append_item_keys. intuition congruence.
Qed.

Lemma fold_append_NoDup (items : record) :
  forall arrs,
    NoDup (dict_keys arrs) ->
    NoDup (dict_keys (fold_left append_item items arrs)).
Proof.
  induction items as [|kv t IH]; intros arrs Hnd; simpl; [exact Hnd|].
  apply IH. unfold append_item.
  destruct (dict_get (fst kv) arrs); apply dict_set_NoDup; exact Hnd.
Qed.

(** The loop over a concatenation runs the two loops in turn. *)
Lemma map_loop_app (l1 : list nat) :
  forall l2 arrs out,
    map_loop extract dirs (l1 ++ l2) arrs out
    = (st <- map_loop extract dirs l1 arrs out ;;
       map_loop extract dirs l2 (fst st) (snd st)).
Proof.
  induction l1 as [|i t IH]; intros l2 arrs out; simpl; [reflexivity|].
  destruct (extract (nth i dirs ""%string)) as [info|]; [|apply IH].
  destruct (tag_storm i info) as [info'|e]; simpl; [apply IH | reflexivity].
Qed.

(** What has been printed before does not influence the loop. *)
Lemma map_loop_out (idxs : list nat) :
  forall arrs out,
    map_loop extract dirs idxs arrs out
    = (st <- map_loop extract dirs idxs arrs [] ;;
       Ok (fst st, out ++ snd st)).
Proof.
  induction idxs as [|i t IH]; intros arrs out; simpl.
  - rewrite app_nil_r. reflexivity.
  - destruct (extract (nth i dirs ""%string)) as [info|].
    + destruct (tag_storm i info) as [info'|e]; simpl; [apply IH | reflexivity].
    + rewrite IH. rewrite (IH arrs [missing_message i]).
      destruct (map_loop extract dirs t arrs []) as [[a o]|e]; simpl;
        [|reflexivity].
      rewrite <- app_assoc. reflexivity.
Qed.

Lemma map_loop_frags (idxs : list nat) :
  forall arrs out arrs' out' k,
    map_loop extract dirs idxs arrs out = Ok (arrs', out') ->
    frags_of k arrs' = frags_of k arrs ++ fragments extract dirs k idxs.
Proof.
  unfold fragments, tagged.
  induction idxs as [|i t IH]; intros arrs out arrs' out' k H; simpl in *.
  - injection H as <- _. rewrite app_nil_r. reflexivity.
  - destruct (extract (nth i dirs ""%string)) as [info|].
    + destruct (tag_storm i info) as [info'|e]; simpl in H; [|discriminate].
      rewrite (IH _ _ _ _ k H), fold_append_frags, app_assoc. reflexivity.
    + apply (IH _ _ _ _ k H).
Qed.

Lemma map_loop_keys (idxs : list nat) :
  forall arrs out arrs' out' k,
    map_loop extract dirs idxs arrs out = Ok (arrs', out') ->
    (In k (dict_keys arrs') <->
     In k (dict_keys arrs) \/
     exists i r, In i idxs /\ tagged extract dirs i = Some r
                 /\ In k (dict_keys r)).
Proof.
  unfold tagged.
  induction idxs as [|i t IH]; intros arrs out arrs' out' k H; simpl in *.
  - injection H as <- _. split; [tauto|].
    intros [H|[i [r [[] _]]]]. exact H.
  - destruct (extract (nth i dirs ""%string)) as [info|] eqn:Ex.
    + destruct (tag_storm i info) as [info'|e] eqn:Et; simpl in H;
        [|discriminate].
      rewrite (IH _ _ _ _ k H), fold_append_keys. split.
      * intros [[Ha|Hi]|[j [r [Hj Hr]]]].
        -- left. exact Ha.
        -- right. exists i, info'. rewrite Ex, Et. auto.
        -- right. exists j, r. auto.
      * intros [Ha|[j [r [[<-|Hj] Hr]]]].
        -- left. left. exact Ha.
        -- rewrite Ex, Et in Hr. destruct Hr as [[= <-] Hk]. left. right. exact Hk.
        -- right. exists j, r. auto.
    + rewrite (IH _ _ _ _ k H). split.
      * intros [Ha|[j [r [Hj Hr]]]]; [left; exact Ha|].
        right. exists j, r. auto.
      * intros [Ha|[j [r [[<-|Hj] Hr]]]].
        -- left. exact Ha.
        -- rewrite Ex in Hr. destruct Hr as [Hr _]. discriminate.
        -- right. exists j, r. auto.
Qed.

Lemma map_loop_NoDup (idxs : list nat) :
  forall arrs out arrs' out',
    NoDup (dict_keys arrs) ->
    map_loop extract dirs idxs arrs out = Ok (arrs', out') ->
    NoDup (dict_keys arrs').
Proof.
  induction idxs as [|i t IH]; intros arrs out arrs' out' Hnd H; simpl in *.
  - injection H as <- _. exact Hnd.
  - destruct (extract (nth i dirs ""%string)) as [info|].
    + destruct (tag_storm i info) as [info'|e]; simpl in H; [|discriminate].
      apply (IH _ _ _ _ (fold_append_NoDup info' arrs Hnd) H).
    + apply (IH _ _ _ _ Hnd H).
Qed.

End MapLoop.

(** ** numpy joins *)

Lemma concat_along_spec (trail : list nat) (vs : list value) :
  forall n fl,
    concat_along trail vs = Ok (n, fl) ->
    n = list_sum (map value_rows vs) /\ fl = flat_map value_flat vs.
Proof.
  induction vs as [|v t IH]; intros n fl H; simpl in *.
  - injection H as <- <-. auto.
  - destruct v as [a|x]; [|discriminate].
    destruct (shape a) as [|m tr] eqn:Es; [discriminate|].
    destruct (shape_eqb tr trail); [|discriminate].
    destruct (concat_along trail t) as [[n' fl']|e]; simpl in H; [|discriminate].
    injection H as <- <-. destruct (IH _ _ eq_refl) as [-> ->].
    simpl. rewrite Es. auto.
Qed.

Lemma scalars_spec (vs : list value) :
  forall xs,
    scalars vs = Ok xs ->
    length xs = list_sum (map value_rows vs) /\ xs = flat_map value_flat vs.
Proof.
  induction vs as [|v t IH]; intros xs H; simpl in *.
  - injection H as <-. auto.
  - destruct v as [a|x].
    + destruct (shape a) as [|m tr] eqn:Es; [|discriminate].
      destruct (flat a) as [|x [|y l]] eqn:Ef; try discriminate.
      destruct (scalars t) as [xs'|e]; simpl in H; [|discriminate].
      injection H as <-. destruct (IH _ eq_refl) as [E ->].
      simpl. rewrite E, Es, Ef. auto.
    + destruct (scalars t) as [xs'|e]; simpl in H; [|discriminate].
      injection H as <-. destruct (IH _ eq_refl) as [E ->].
      simpl. rewrite E. auto.
Qed.

(** A consolidated key has the rows of its fragments, in order. *)
Lemma consolidate_key_spec (v : list value) (a : ndarray) :
  consolidate_key v = Ok a ->
  flat a = flat_map value_flat v
  /\ exists tr, shape a = list_sum (map value_rows v) :: tr.
Proof.
  unfold consolidate_key. destruct v as [|[a0|x0] t]; [discriminate| |].
  - unfold concatenate. destruct (shape a0) as [|m tr] eqn:Es; [discriminate|].
    destruct (concat_along tr (VArr a0 :: t)) as [[n fl]|e] eqn:Ec;
      simpl; [|discriminate].
    intros [= <-]. apply concat_along_spec in Ec. destruct Ec as [-> ->].
    simpl. eauto.
  - unfold array. destruct (scalars (VScal x0 :: t)) as [xs|e] eqn:Ec;
      simpl; [|discriminate].
    intros [= <-]. apply scalars_spec in Ec. destruct Ec as [E ->].
    simpl. simpl in E. rewrite E. eauto.
Qed.

Lemma consolidate_get (arrs : accum) :
  forall local ld,
    NoDup (dict_keys arrs) ->
    consolidate arrs local = Ok ld ->
    forall k,
      match dict_get k arrs with
      | Some v => exists a, consolidate_key v = Ok a /\ dict_get k ld = Some a
      | None => dict_get k ld = dict_get k local
      end.
Proof.
  induction arrs as [|[k0 v0] t IH]; intros local ld Hnd H k; simpl in *.
  - injection H as <-. reflexivity.
  - inversion Hnd as [|? ? Hnot Hnd']; subst.
    destruct (consolidate_key v0) as [a|e] eqn:Ek; simpl in H; [|discriminate].
    specialize (IH _ _ Hnd' H k).
    destruct (String.eqb_spec k0 k) as [->|N].
    + exists a. split; [exact Ek|].
      apply dict_get_None in Hnot. rewrite Hnot in IH.
      rewrite IH. apply dict_get_set_same.
    + destruct (dict_get k t) as [v|]; [exact IH|].
      rewrite IH. apply dict_get_set_other. exact N.
Qed.

(** ** What a rank holds for a key *)

Section RunUnits.

Variable extract : string -> option record.
Variable dirs : list string.

Lemma run_units_inv (idxs : list nat) (ld : local_data) (out : list string) :
  run_units extract dirs idxs = Ok (ld, out) ->
  exists arrs,
    map_loop extract dirs idxs [] [] = Ok (arrs, out)
    /\ consolidate arrs [] = Ok ld.
Proof.
  unfold run_units.
  destruct (map_loop extract dirs idxs [] []) as [[arrs o]|e]; simpl;
    [|discriminate].
  destruct (consolidate arrs []) as [l|e] eqn:Ec; simpl; [|discriminate].
  intros [= <- <-]. eauto.
Qed.

(** A rank holds a key iff one of its own units' records has it. *)
Lemma run_units_keys (idxs : list nat) (ld : local_data) (out : list string)
    (k : string) :
  run_units extract dirs idxs = Ok (ld, out) ->
  (In k (dict_keys ld) <->
   exists i r, In i idxs /\ tagged extract dirs i = Some r
               /\ In k (dict_keys r)).
Proof.
  intros H. apply run_units_inv in H. destruct H as [arrs [Hm Hc]].
  rewrite (consolidate_keys _ _ _ Hc k), (map_loop_keys _ _ _ _ _ _ _ k Hm).
  simpl. tauto.
Qed.

Lemma run_units_NoDup (idxs : list nat) (ld : local_data) (out : list string) :
  run_units extract dirs idxs = Ok (ld, out) -> NoDup (dict_keys ld).
Proof.
  intros H. apply run_units_inv in H. destruct H as [arrs [Hm Hc]].
  apply (consolidate_NoDup arrs [] ld); [constructor | exact Hc].
Qed.

(** The local array of a key is the concatenation of the fragments the
    rank's units gave it, in the order the rank visited them. *)
Lemma run_units_layout (idxs : list nat) (ld : local_data) (out : list string)
    (k : string) (a : ndarray) :
  run_units extract dirs idxs = Ok (ld, out) ->
  dict_get k ld = Some a ->
  flat a = flat_map value_flat (fragments extract dirs k idxs)
  /\ exists tr,
       shape a
       = list_sum (map value_rows (fragments extract dirs k idxs)) :: tr.
Proof.
  intros H Hk. apply run_units_inv in H. destruct H as [arrs [Hm Hc]].
  assert (Hnd : NoDup (dict_keys arrs)).
  { apply (map_loop_NoDup extract dirs idxs [] [] arrs out);
      [constructor | exact Hm]. }
  pose proof (consolidate_get _ _ _ Hnd Hc k) as G.
  pose proof (map_loop_frags _ _ _ _ _ _ _ k Hm) as F.
  unfold frags_of in F. simpl in F.
  destruct (dict_get k arrs) as [v|].
  - destruct G as [a' [Ha' Hg]]. rewrite Hk in Hg. injection Hg as <-.
    rewrite <- F. apply consolidate_key_spec. exact Ha'.
  - rewrite Hk in G. discriminate.
Qed.

End RunUnits.

(* ================================================================== *)
(** * Units without data, and the keys a rank holds *)
(* ================================================================== *)

Section Skips.

Variable extract : string -> option record.
Variable dirs : list string.

Lemma tag_storm_inv (i : nat) (info r : record) :
  tag_storm i info = Ok r ->
  exists inds n,
    dict_get "inds" info = Some (VArr inds)
    /\ len inds = Ok n
    /\ r = dict_set "storm" (VArr (full n (Z.of_nat i))) info.
Proof.
  unfold tag_storm. destruct (dict_get "inds" info) as [[inds|x]|];
    [|discriminate|discriminate].
  destruct (len inds) as [n|e] eqn:El; simpl; [|discriminate].
  intros [= <-]. exists inds, n. auto.
Qed.

Lemma tagged_inv (i : nat) (r : record) :
  tagged extract dirs i = Some r <->
  exists info, extract (nth i dirs ""%string) = Some info
               /\ tag_storm i info = Ok r.
Proof.
  unfold tagged. destruct (extract (nth i dirs ""%string)) as [info|].
  - destruct (tag_storm i info) as [r'|e] eqn:Et; split.
    + intros [= <-]. exists info. auto.
    + intros [info' [[= <-] H]]. rewrite Et in H. injection H as <-.
      reflexivity.
    + discriminate.
    + intros [info' [[= <-] H]]. rewrite Et in H. discriminate.
  - split; [discriminate|]. intros [info [H _]]. discriminate.
Qed.

(** When the loop completes, every unit that had data was tagged. *)
Lemma map_loop_tagged (idxs : list nat) :
  forall arrs out st i info,
    map_loop extract dirs idxs arrs out = Ok st ->
    In i idxs ->
    extract (nth i dirs ""%string) = Some info ->
    exists r, tag_storm i info = Ok r.
Proof.
  induction idxs as [|j t IH]; intros arrs out st i info H Hin Hex;
    simpl in *; [contradiction|].
  destruct Hin as [->|Hin].
  - rewrite Hex in H. destruct (tag_storm i info) as [r|e]; [eauto|discriminate].
  - destruct (extract (nth j dirs ""%string)) as [info'|].
    + destruct (tag_storm j info') as [r|e]; simpl in H; [|discriminate].
      apply (IH _ _ _ _ _ H Hin Hex).
    + apply (IH _ _ _ _ _ H Hin Hex).
Qed.

Lemma map_loop_skip (pre post : list nat) (i : nat) (arrs : accum)
    (out : list string) :
  extract (nth i dirs ""%string) = None ->
  result_map fst (map_loop extract dirs (pre ++ i :: post) arrs out)
  = result_map fst (map_loop extract dirs (pre ++ post) arrs out).
Proof.
  intros Hnone. rewrite !map_loop_app.
  destruct (map_loop extract dirs pre arrs out) as [[a o]|e]; simpl;
    [|reflexivity].
  rewrite Hnone.
  rewrite (map_loop_out extract dirs post a (o ++ [missing_message i])).
  rewrite (map_loop_out extract dirs post a o).
  destruct (map_loop extract dirs post a []) as [[a' o']|e]; reflexivity.
Qed.

Lemma run_units_fst (idxs : list nat) :
  result_map fst (run_units extract dirs idxs)
  = (arrs <- result_map fst (map_loop extract dirs idxs [] []) ;;
     consolidate arrs []).
Proof.
  unfold run_units.
  destruct (map_loop extract dirs idxs [] []) as [[a o]|e]; simpl;
    [|reflexivity].
  destruct (consolidate a []); reflexivity.
Qed.

Lemma map_loop_message (idxs : list nat) :
  forall arrs out arrs' out' i,
    map_loop extract dirs idxs arrs out = Ok (arrs', out') ->
    In i idxs ->
    extract (nth i dirs ""%string) = None ->
    In (missing_message i) out'.
Proof.
  induction idxs as [|j t IH]; intros arrs out arrs' out' i H Hin Hnone;
    simpl in *; [contradiction|].
  destruct Hin as [->|Hin].
  - rewrite Hnone in H. rewrite map_loop_out in H.
    destruct (map_loop extract dirs t arrs []) as [[a o]|e]; simpl in H;
      [|discriminate].
    injection H as _ <-. apply in_or_app. left. apply in_or_app. right.
    left. reflexivity.
  - destruct (extract (nth j dirs ""%string)) as [info'|].
    + destruct (tag_storm j info') as [r|e]; simpl in H; [|discriminate].
      apply (IH _ _ _ _ _ H Hin Hnone).
    + apply (IH _ _ _ _ _ H Hin Hnone).
Qed.

End Skips.

Lemma items_of_get (r : record) (k : string) :
  NoDup (dict_keys r) ->
  items_of k r = match dict_get k r with Some v => [v] | None => [] end.
Proof.
  unfold items_of, dict_keys.
  induction r as [|[k0 v0] t IH]; simpl; intros Hnd; [reflexivity|].
  inversion Hnd as [|? ? Hnot Hnd']; subst.
  destruct (String.eqb_spec k0 k) as [->|N]; simpl.
  - f_equal. apply dict_get_None in Hnot. rewrite (IH Hnd') , Hnot. reflexivity.
  - apply IH. exact Hnd'.
Qed.

(** The storm tag of unit [i]: one fragment, [i] repeated once per selected
    index. *)
Lemma tagged_storm (extract : string -> option record) (dirs : list string)
    (i : nat) (r : record) :
  records_are_dicts extract ->
  tagged extract dirs i = Some r ->
  exists inds n,
    dict_get "inds" r = Some (VArr inds)
    /\ len inds = Ok n
    /\ items_of "storm" r = [VArr (full n (Z.of_nat i))]
    /\ NoDup (dict_keys r).
Proof.
  intros Hd Ht. apply tagged_inv in Ht. destruct Ht as [info [Hex Htag]].
  apply tag_storm_inv in Htag. destruct Htag as [inds [n [Hi [Hn ->]]]].
  assert (Hnd : NoDup (dict_keys (dict_set "storm" (VArr (full n (Z.of_nat i))) info))).
  { apply dict_set_NoDup. apply (Hd _ _ Hex). }
  exists inds, n. repeat split; try assumption.
  - rewrite dict_get_set_other; [exact Hi | discriminate].
  - rewrite (items_of_get _ _ Hnd), dict_get_set_same. reflexivity.
Qed.

(** The labels in a rank's storm array are indices of its units that had
    data. *)
Lemma storm_labels (extract : string -> option record) (dirs : list string)
    (idxs : list nat) (z : Z) :
  records_are_dicts extract ->
  In z (flat_map value_flat (fragments extract dirs "storm" idxs)) ->
  exists j, In j idxs /\ z = Z.of_nat j
            /\ extract (nth j dirs ""%string) <> None.
Proof.
  intros Hd Hin. apply in_flat_map in Hin. destruct Hin as [v [Hv Hz]].
  unfold fragments in Hv. apply in_flat_map in Hv.
  destruct Hv as [j [Hj Hv]].
  destruct (tagged extract dirs j) as [r|] eqn:Et; [|contradiction].
  destruct (tagged_storm _ _ _ _ Hd Et) as [inds [n [_ [_ [Hs _]]]]].
  rewrite Hs in Hv. destruct Hv as [<-|[]]. simpl in Hz.
  apply repeat_spec in Hz. exists j. repeat split; [exact Hj | exact Hz |].
  apply tagged_inv in Et. destruct Et as [info [Hex _]]. congruence.
Qed.


(* ================================================================== *)
(** * One round of the gather loop *)
(* ================================================================== *)

Lemma mapM_Forall2 {A B} (f : A -> result B) (l : list A) :
  forall ys, mapM f l = Ok ys <-> Forall2 (fun x y => f x = Ok y) l ys.
Proof.
  induction l as [|x t IH]; intros ys; simpl.
  - split.
    + intros [= <-]. constructor.
    + intros H. inversion H. reflexivity.
  - split.
    + destruct (f x) as [y|e] eqn:Ex; simpl; [|discriminate].
      destruct (mapM f t) as [ys'|e] eqn:Et; simpl; [|discriminate].
      intros [= <-]. constructor; [exact Ex|]. apply IH. reflexivity.
    + intros H. inversion H as [|? y ? ys' Hx Ht]; subst.
      rewrite Hx. simpl. apply IH in Ht. rewrite Ht. reflexivity.
Qed.

Lemma len_rows (a : ndarray) (n : nat) : len a = Ok n -> rows a = n.
Proof.
  unfold len, rows. destruct (shape a); [discriminate|].
  intros [= <-]. reflexivity.
Qed.

Lemma mapM_len_rows (locals : list ndarray) (counts : list nat) :
  mapM len locals = Ok counts -> counts = map rows locals.
Proof.
  intros H. apply mapM_Forall2 in H.
  induction H as [|a c t cs Ha _ IH]; [reflexivity|].
  simpl. rewrite (len_rows _ _ Ha), IH. reflexivity.
Qed.

(** When a round completes, the gathered array is the ranks' buffers one
    after the other in rank order, with the summed row count in front of
    the root's trailing shape. *)
Lemma gather_round_inv (root_local : ndarray) (rest : list ndarray)
    (g : ndarray) :
  gather_round (root_local :: rest) = Ok g ->
  flat g = concat (map flat (root_local :: rest))
  /\ shape g
     = (if 1 <? length (shape root_local)
        then list_sum (map rows (root_local :: rest)) :: tl (shape root_local)
        else [list_sum (map rows (root_local :: rest))]).
Proof.
  unfold gather_round, gather.
  destruct (mapM len (root_local :: rest)) as [counts|e] eqn:Ec;
    simpl bind; [|discriminate].
  rewrite (mapM_len_rows _ _ Ec).
  unfold Gatherv.
  destruct (list_eq_dec Nat.eq_dec _ _); simpl bind; [|discriminate].
  unfold reshape. destruct (_ =? _); [|discriminate].
  intros [= <-]. simpl. auto.
Qed.

Lemma gather_round_shape (root_local : ndarray) (rest : list ndarray)
    (g : ndarray) :
  gather_round (root_local :: rest) = Ok g ->
  exists tr, shape g = list_sum (map rows (root_local :: rest)) :: tr.
Proof.
  intros H. apply gather_round_inv in H. destruct H as [_ Hs].
  rewrite Hs. destruct (1 <? length (shape root_local)); eauto.
Qed.

Lemma ready_len (root_local : ndarray) (locals : list ndarray) :
  round_ready root_local locals -> mapM len locals = Ok (map rows locals).
Proof.
  intros H. apply mapM_Forall2.
  induction locals as [|a t IH]; simpl; constructor.
  - destruct (H a (or_introl eq_refl)) as [_ Hs]. unfold len. rewrite Hs.
    reflexivity.
  - apply IH. intros b Hb. apply H. right. exact Hb.
Qed.

Lemma ready_length (root_local a : ndarray) (locals : list ndarray) :
  round_ready root_local locals -> In a locals ->
  length (flat a) = rows a * size_of (tl (shape root_local)).
Proof.
  intros H Hin. destruct (H a Hin) as [Hwf Hs]. unfold wf in Hwf.
  apply Nat.eqb_eq in Hwf. rewrite Hwf, Hs. reflexivity.
Qed.

Lemma ready_concat_length (root_local : ndarray) (locals : list ndarray) :
  round_ready root_local locals ->
  length (concat (map flat locals))
  = list_sum (map rows locals) * size_of (tl (shape root_local)).
Proof.
  intros H. induction locals as [|a t IH]; [reflexivity|].
  simpl. rewrite length_app, IH.
  - rewrite (ready_length root_local a (a :: t) H (or_introl eq_refl)). lia.
  - intros b Hb. apply H. right. exact Hb.
Qed.

Lemma list_sum_zero (l : list nat) :
  list_sum l = 0 -> forall c, In c l -> c = 0.
Proof.
  induction l as [|x t IH]; simpl; intros H c Hc; [contradiction|].
  destruct Hc as [<-|Hc]; [lia|]. apply IH; [lia | exact Hc].
Qed.

Lemma gather_round_unfold (root_local : ndarray) (rest : list ndarray) :
  gather_round (root_local :: rest)
  = (counts <- mapM len (root_local :: rest) ;;
     recvbuf <-
       Gatherv (map flat (root_local :: rest))
         (map (fun c =>
                 size_of (if 1 <? length (shape root_local)
                          then list_sum counts :: tl (shape root_local)
                          else [list_sum counts])
                 / list_sum counts * c) counts) ;;
     reshape recvbuf
       (if 1 <? length (shape root_local)
        then list_sum counts :: tl (shape root_local)
        else [list_sum counts])).
Proof. reflexivity. Qed.

(** Under that precondition the round completes. *)
Lemma gather_round_ready (root_local : ndarray) (rest : list ndarray) :
  round_ready root_local (root_local :: rest) ->
  gather_round (root_local :: rest)
  = Ok {| shape := list_sum (map rows (root_local :: rest))
                   :: tl (shape root_local);
          flat := concat (map flat (root_local :: rest)) |}.
Proof.
  intros H. rewrite gather_round_unfold.
  remember (root_local :: rest) as locals eqn:El.
  assert (Hroot : In root_local locals) by (subst locals; left; reflexivity).
  clear El rest.
  set (w := size_of (tl (shape root_local))).
  rewrite (ready_len root_local locals H). cbn [bind].
  set (total := list_sum (map rows locals)).
  assert (Hbuf : (if 1 <? length (shape root_local)
                  then total :: tl (shape root_local) else [total])
                 = total :: tl (shape root_local)).
  { destruct (H root_local Hroot) as [_ Hs].
    destruct (Nat.ltb_spec 1 (length (shape root_local))); [reflexivity|].
    rewrite Hs in *. simpl in *.
    destruct (tl (shape root_local)); [reflexivity | simpl in *; lia]. }
  rewrite Hbuf.
  assert (Hsize : size_of (total :: tl (shape root_local)) = total * w)
    by reflexivity.
  rewrite Hsize.
  assert (Hcounts : map (@length Z) (map flat locals)
                    = map (fun c => total * w / total * c) (map rows locals)).
  { rewrite !map_map. apply map_ext_in. intros a Ha.
    rewrite (ready_length root_local a locals H Ha). fold w.
    destruct (Nat.eq_dec total 0) as [E|E].
    - assert (rows a = 0).
      { apply (list_sum_zero (map rows locals) E). apply in_map. exact Ha. }
      rewrite E. simpl. lia.
    - rewrite (Nat.mul_comm total w), Nat.div_mul by exact E. lia. }
  unfold Gatherv. destruct (list_eq_dec Nat.eq_dec _ _) as [_|N];
    [|contradiction].
  cbn [bind]. unfold reshape. rewrite Hsize.
  rewrite (ready_concat_length root_local locals H).
  fold total. fold w. rewrite Nat.eqb_refl. reflexivity.
Qed.

(** Rank [r]'s rows start at the row offset that is the summed row count of
    the ranks below it. *)
Lemma gathered_row (root_local : ndarray) (locals : list ndarray) :
  round_ready root_local locals ->
  forall r a i,
    nth_error locals r = Some a ->
    i < rows a ->
    let w := size_of (tl (shape root_local)) in
    firstn w (skipn ((list_sum (map rows (firstn r locals)) + i) * w)
                    (concat (map flat locals)))
    = firstn w (skipn (i * w) (flat a)).
Proof.
  intros H r a i Hr Hi w.
  apply nth_error_split in Hr. destruct Hr as [l1 [l2 [-> <-]]].
  rewrite firstn_app, firstn_all, Nat.sub_diag, firstn_O, app_nil_r.
  rewrite map_app, concat_app. simpl.
  assert (H1 : round_ready root_local l1).
  { intros b Hb. apply H. apply in_or_app. left. exact Hb. }
  assert (Ha : length (flat a) = rows a * w).
  { apply (ready_length root_local a _ H). apply in_or_app. right. left.
    reflexivity. }
  rewrite skipn_app, (ready_concat_length root_local l1 H1). fold w.
  rewrite skipn_all2 by (rewrite (ready_concat_length root_local l1 H1); fold w; nia).
  simpl.
  replace ((list_sum (map rows l1) + i) * w - list_sum (map rows l1) * w)
    with (i * w) by nia.
  rewrite skipn_app, firstn_app.
  replace (w - length (skipn (i * w) (flat a))) with 0
    by (rewrite length_skipn, Ha; nia).
  rewrite firstn_O, app_nil_r. reflexivity.
Qed.

(* ================================================================== *)
(** * The gather loop *)
(* ================================================================== *)

Lemma heads_inv {X} (queues : list (list X)) (hs : list X)
    (rest : list (list X)) :
  heads queues = Some (hs, rest) ->
  hs = flat_map (firstn 1) queues /\ rest = map (@tl X) queues.
Proof.
  unfold heads. destruct (existsb _ queues); [discriminate|].
  intros [= <- <-]. auto.
Qed.

(** Every key of the root's sequence gets an entry: no round is skipped. *)
Lemma gather_loop_keys (root_pending : list (string * ndarray)) :
  forall others data res,
    gather_loop root_pending others data = Finished res ->
    forall k, In k (dict_keys res) <->
              In k (dict_keys root_pending) \/ In k (dict_keys data).
Proof.
  induction root_pending as [|[k0 a] t IH]; intros others data res H k;
    cbn [gather_loop] in H.
  - injection H as <-. simpl. tauto.
  - destruct (heads others) as [[hs rest]|]; [|discriminate].
    destruct (gather_round (a :: map snd hs)) as [g|e]; [|discriminate].
    rewrite (IH _ _ _ H k), dict_keys_set. simpl. intuition congruence.
Qed.

Section SameKeys.

(** The other ranks' pending rounds carry the same keys as the root's. *)
Local Abbreviation aligned keys others :=
  (Forall (fun q : list (string * ndarray) => dict_keys q = keys) others).

Lemma aligned_tl (k0 : string) (keys : list string)
    (others : list (list (string * ndarray))) :
  aligned (k0 :: keys) others -> aligned keys (map (@tl _) others).
Proof.
  intros H. apply Forall_map.
  eapply Forall_impl; [|exact H].
  intros [|h q] Hq; [discriminate|]. simpl in *. congruence.
Qed.

Lemma aligned_heads (k0 : string) (keys : list string)
    (others : list (list (string * ndarray))) :
  aligned (k0 :: keys) others ->
  Forall2 (fun q h => dict_get k0 q = Some h) others
          (map snd (flat_map (firstn 1) others)).
Proof.
  induction 1 as [|q t Hq _ IH]; simpl; [constructor|].
  destruct q as [|[k h] q]; [discriminate|].
  simpl in *. constructor; [|exact IH].
  injection Hq as -> _. simpl. rewrite String.eqb_refl. reflexivity.
Qed.

Lemma aligned_get_tl (k0 k : string) (keys : list string)
    (others : list (list (string * ndarray))) (hs : list ndarray) :
  aligned (k0 :: keys) others ->
  k0 <> k ->
  Forall2 (fun q h => dict_get k q = Some h) (map (@tl _) others) hs ->
  Forall2 (fun q h => dict_get k q = Some h) others hs.
Proof.
  intros H Hne. revert hs.
  induction H as [|q t Hq _ IH]; intros hs F; simpl in *.
  - exact F.
  - inversion F as [|? h ? hs' Hh Ht]; subst. constructor; [|apply IH; exact Ht].
    destruct q as [|[k1 h1] q]; [discriminate|].
    simpl in *. injection Hq as -> _.
    apply String.eqb_neq in Hne. simpl. rewrite Hne. exact Hh.
Qed.

(** With the same keys on every rank, the entry the loop stores under a key
    is the round over the arrays the ranks hold for that very key. *)
Lemma gather_loop_get (root_pending : list (string * ndarray)) :
  forall others data res,
    NoDup (dict_keys root_pending) ->
    aligned (dict_keys root_pending) others ->
    gather_loop root_pending others data = Finished res ->
    forall k,
      match dict_get k root_pending with
      | Some a =>
          exists hs g,
            Forall2 (fun q h => dict_get k q = Some h) others hs
            /\ gather_round (a :: hs) = Ok g
            /\ dict_get k res = Some g
      | None => dict_get k res = dict_get k data
      end.
Proof.
  induction root_pending as [|[k0 a] t IH]; intros others data res Hnd Hal H k;
    cbn [gather_loop] in H.
  - injection H as <-. reflexivity.
  - destruct (heads others) as [[hs rest]|] eqn:Eh; [|discriminate].
    apply heads_inv in Eh. destruct Eh as [-> ->].
    destruct (gather_round (a :: map snd (flat_map (firstn 1) others)))
      as [g|e] eqn:Eg; [|discriminate].
    simpl in Hnd, Hal. inversion Hnd as [|? ? Hnot Hnd']; subst.
    pose proof (IH _ _ _ Hnd' (aligned_tl _ _ _ Hal) H k) as R.
    simpl. destruct (String.eqb_spec k0 k) as [->|N].
    + exists (map snd (flat_map (firstn 1) others)), g.
      split; [apply (aligned_heads _ _ _ Hal)|]. split; [exact Eg|].
      apply dict_get_None in Hnot. rewrite Hnot in R. rewrite R.
      apply dict_get_set_same.
    + destruct (dict_get k t) as [a'|].
      * destruct R as [hs [g' [F [Hr Hres]]]]. exists hs, g'.
        split; [|auto]. apply (aligned_get_tl k0 k _ _ _ Hal N F).
      * rewrite R. apply dict_get_set_other. exact N.
Qed.

End SameKeys.

(** ** The rounds a rank enters *)

Lemma pending_keys_gen (ld : local_data) (keys : list string) :
  (forall k, In k keys -> In k (dict_keys ld)) ->
  dict_keys
    (flat_map (fun k => match dict_get k ld with
                        | Some a => [(k, a)]
                        | None => []
                        end) keys)
  = keys.
Proof.
  unfold dict_keys at 2. induction keys as [|k t IH]; intros H; simpl; [reflexivity|].
  rewrite map_app, IH by (intros k' Hk'; apply H; right; exact Hk').
  destruct (proj1 (dict_keys_In_get ld k) (H k (or_introl eq_refl))) as [a Ha].
  rewrite Ha. reflexivity.
Qed.

Lemma pending_keys (ld : local_data) : dict_keys (pending ld) = gather_keys ld.
Proof.
  apply pending_keys_gen. intros k Hk. unfold gather_keys in Hk.
  rewrite sorted_In in Hk. exact Hk.
Qed.

Lemma pending_get_sound (ld : local_data) (keys : list string) (k : string)
    (a : ndarray) :
  dict_get k
    (flat_map (fun k0 => match dict_get k0 ld with
                         | Some a0 => [(k0, a0)]
                         | None => []
                         end) keys) = Some a ->
  dict_get k ld = Some a.
Proof.
  induction keys as [|k0 t IH]; simpl; [discriminate|].
  destruct (dict_get k0 ld) as [a0|] eqn:E0; simpl; [|exact IH].
  destruct (String.eqb_spec k0 k) as [E|N]; [|exact IH].
  intros [= <-]. rewrite <- E. exact E0.
Qed.

Lemma pending_get_complete (ld : local_data) (keys : list string) (k : string)
    (a : ndarray) :
  In k keys ->
  dict_get k ld = Some a ->
  dict_get k
    (flat_map (fun k0 => match dict_get k0 ld with
                         | Some a0 => [(k0, a0)]
                         | None => []
                         end) keys) = Some a.
Proof.
  intros Hin Hld. induction keys as [|k0 t IH]; simpl; [contradiction|].
  destruct (string_dec k0 k) as [E|N].
  - rewrite E, Hld. simpl. rewrite String.eqb_refl. reflexivity.
  - destruct Hin as [E|Hin]; [contradiction|].
    destruct (dict_get k0 ld) as [a0|]; simpl; [|exact (IH Hin)].
    apply String.eqb_neq in N. rewrite N. exact (IH Hin).
Qed.

Lemma pending_get (ld : local_data) (k : string) :
  dict_get k (pending ld) = dict_get k ld.
Proof.
  unfold pending. destruct (dict_get k ld) as [a|] eqn:E.
  - apply pending_get_complete; [|exact E].
    unfold gather_keys. rewrite sorted_In. apply dict_keys_In_get. eauto.
  - match goal with |- ?x = None => destruct x as [a|] eqn:Ep end;
      [|reflexivity].
    apply pending_get_sound in Ep. congruence.
Qed.

(** ** The whole gather phase *)

(** With the same keys on every rank, the dataset holds, for every key of
    the root, the round over the arrays the ranks hold for that key. *)
Lemma gather_phase_get (locals : list local_data) (data : local_data)
    (k : string) (g : ndarray) :
  same_keys locals ->
  NoDup (dict_keys (hd [] locals)) ->
  gather_phase locals = Finished data ->
  dict_get k data = Some g ->
  exists arrays,
    Forall2 (fun ld a => dict_get k ld = Some a) locals arrays
    /\ gather_round arrays = Ok g.
Proof.
  intros Hsame Hnd H Hk. destruct locals as [|root others]; simpl in *.
  - injection H as <-. discriminate.
  - assert (Hal : Forall (fun q => dict_keys q = dict_keys (pending root))
                         (map pending others)).
    { apply Forall_map. apply Forall_forall. intros ld Hld.
      rewrite !pending_keys. apply (Hsame ld). right. exact Hld. }
    assert (Hnd' : NoDup (dict_keys (pending root))).
    { rewrite pending_keys. apply sorted_NoDup. exact Hnd. }
    pose proof (gather_loop_get _ _ _ _ Hnd' Hal H k) as R.
    rewrite pending_get in R.
    destruct (dict_get k root) as [a|] eqn:Er.
    + destruct R as [hs [g' [F [Hr Hres]]]].
      rewrite Hk in Hres. injection Hres as <-.
      exists (a :: hs). split; [|exact Hr].
      constructor; [exact Er|].
      clear - F. remember (map pending others) as qs eqn:Eq.
      revert others Eq. induction F as [|q h qs hs Hq _ IH]; intros others Eq.
      * destruct others; [constructor | discriminate].
      * destruct others as [|ld others]; [discriminate|].
        injection Eq as -> ->. constructor; [|apply IH; reflexivity].
        rewrite pending_get in Hq. exact Hq.
    + rewrite Hk in R. discriminate.
Qed.

(** The dataset has exactly the root's keys. *)
Lemma gather_phase_keys (locals : list local_data) (data : local_data) :
  gather_phase locals = Finished data ->
  forall k, In k (dict_keys data) <-> In k (gather_keys (hd [] locals)).
Proof.
  intros H k. destruct locals as [|root others]; simpl in *.
  - injection H as <-. simpl. tauto.
  - rewrite (gather_loop_keys _ _ _ _ H k), pending_keys. simpl. tauto.
Qed.

(* ================================================================== *)
(** * From the units to the gathered arrays *)
(* ================================================================== *)

Lemma flat_map_flat_map {A B C} (g : B -> list C) (h : A -> list B)
    (l : list A) :
  flat_map g (flat_map h l) = flat_map (fun x => flat_map g (h x)) l.
Proof.
  induction l as [|x t IH]; simpl; [reflexivity|].
  rewrite flat_map_app, IH. reflexivity.
Qed.



Section Job.

Variable extract : string -> option record.
Variable dirs : list string.
Variable size : nat.


Lemma fragments_flat_map {A} (k : string) (h : A -> list nat) (l : list A) :
  fragments extract dirs k (flat_map h l)
  = flat_map (fun x => fragments extract dirs k (h x)) l.
Proof. unfold fragments. apply flat_map_flat_map. Qed.


Lemma worker_local_inv (rank : nat) (ld : local_data) :
  worker_local extract dirs rank size = Ok ld ->
  exists out,
    run_units extract dirs (range rank (length dirs) size) = Ok (ld, out).
Proof.
  unfold worker_local, worker.
  destruct (run_units extract dirs (range rank (length dirs) size))
    as [[l o]|e]; simpl; [|discriminate].
  intros [= <-]. eauto.
Qed.

Lemma map_phase_ranks (locals : list local_data) :
  map_phase extract dirs size = Ok locals ->
  Forall2 (fun rank ld => worker_local extract dirs rank size = Ok ld)
          (seq 0 size) locals.
Proof. intros H. apply mapM_Forall2 in H. exact H. Qed.

Lemma map_phase_NoDup (locals : list local_data) :
  map_phase extract dirs size = Ok locals ->
  NoDup (dict_keys (hd [] locals)).
Proof.
  intros H. apply map_phase_ranks in H.
  destruct H as [|r ld rs lds Hr _]; simpl; [constructor|].
  apply worker_local_inv in Hr. destruct Hr as [out Hr].
  apply (run_units_NoDup _ _ _ _ _ Hr).
Qed.

(** The arrays the ranks bring to the round of [k], joined in rank order,
    are the fragments of the units in gather order. *)
Lemma ranks_layout (k : string) (ranks : list nat) :
  forall locals arrays,
    Forall2 (fun rank ld => worker_local extract dirs rank size = Ok ld)
            ranks locals ->
    Forall2 (fun ld a => dict_get k ld = Some a) locals arrays ->
    concat (map flat arrays)
    = flat_map value_flat
        (fragments extract dirs k
           (flat_map (fun rank => range rank (length dirs) size) ranks))
    /\ list_sum (map rows arrays)
       = list_sum (map value_rows
           (fragments extract dirs k
              (flat_map (fun rank => range rank (length dirs) size) ranks))).
Proof.
  induction ranks as [|r rs IH]; intros locals arrays F1 F2.
  - inversion F1; subst. inversion F2; subst. auto.
  - inversion F1 as [|? ld ? lds Hr Hrs]; subst.
    inversion F2 as [|? a ? arrs Ha Harrs]; subst.
    destruct (IH _ _ Hrs Harrs) as [E1 E2].
    apply worker_local_inv in Hr. destruct Hr as [out Hr].
    destruct (run_units_layout _ _ _ _ _ _ _ Hr Ha) as [Hf [tr Hs]].
    simpl. unfold fragments in *. rewrite flat_map_app, flat_map_app, map_app,
      list_sum_app, E1, E2, Hf.
    unfold rows at 1. rewrite Hs. auto.
Qed.

(** Where the rows of every unit end up: with the same keys on every rank,
    a gathered array is the fragments of the units joined in gather order,
    rank by rank. *)
Lemma job_layout (locals : list local_data) (data : local_data) (k : string)
    (g : ndarray) :
  map_phase extract dirs size = Ok locals ->
  same_keys locals ->
  gather_phase locals = Finished data ->
  dict_get k data = Some g ->
  (exists arrays, arrays_of k locals = Ok arrays /\ gather_round arrays = Ok g)
  /\ flat g
     = flat_map value_flat
         (fragments extract dirs k (gather_order (length dirs) size))
  /\ rows g
     = list_sum (map value_rows
         (fragments extract dirs k (gather_order (length dirs) size))).
Proof.
  intros Hmap Hsame Hg Hk.
  destruct (gather_phase_get _ _ _ _ Hsame (map_phase_NoDup _ Hmap) Hg Hk)
    as [arrays [F Hr]].
  destruct (ranks_layout k _ _ _ (map_phase_ranks _ Hmap) F) as [E1 E2].
  split; [|split].
  - exists arrays. split; [|exact Hr]. apply mapM_Forall2.
    eapply Forall2_impl; [|exact F]. intros ld a H. simpl in H. rewrite H.
    reflexivity.
  - destruct arrays as [|a0 rest]; [discriminate|].
    destruct (gather_round_inv _ _ _ Hr) as [Hf _]. rewrite Hf. exact E1.
  - destruct arrays as [|a0 rest]; [discriminate|].
    destruct (gather_round_shape _ _ _ Hr) as [tr Hs].
    unfold rows at 1. rewrite Hs. exact E2.
Qed.



End Job.

(* ================================================================== *)
(** * Facts about the concrete runs *)
(* ================================================================== *)





(* ================================================================== *)
(** * The statements of the specification, settled on the code *)
(* ================================================================== *)







(** C3, as the claim states it, fails: [maxele] is present on rank 0, whose
    storm has data, and absent on rank 1, whose storm has none; rank 1 enters
    no collective, the root's first round never completes, and no gathered
    array comes to exist. *)
Lemma C3_counterexample :
  ~ AsStated.C3
  /\ (exists a,
      result_map (dict_get "maxele")
        (worker_local Examples.extract_one_missing Examples.dirs_two 0 2)
      = Ok (Some a))
  /\ result_map pending
       (worker_local Examples.extract_one_missing Examples.dirs_two 1 2)
     = Ok []
  /\ create_data Examples.extract_one_missing Examples.dirs_two 2 = Stalled.
Proof.
  split; [|split; [eexists; reflexivity | split; reflexivity]].
  intros H.
  destruct (H Examples.extract_one_missing Examples.dirs_two 2
              [[("maxele", Examples.arr1 [11; 12; 13]%Z);
                ("inds", Examples.arr1 [4; 8; 9]%Z);
                ("storm", Examples.arr1 [0; 0; 0]%Z)]; []]
              "maxele"%string eq_refl) as [data [g [Hc _]]].
  - eexists. split; [left; reflexivity|]. left. reflexivity.
  - discriminate.
Qed.

(** C3, amended: in a round to which every rank brings an array for the
    key, all of the root's trailing shape, the gathered array has as first
    dimension the sum of the ranks' row counts, rank
    [r]'s rows start at the row offset that is the summed row count of the
    ranks [0..r-1], and the shape is the total in front of the trailing
    shape; when all ranks reach the gather loop with the same key sequence,
    the dataset entry of a key is that round over the ranks' arrays for the
    key, the ranks' buffers one after the other in rank order; and in the
    run of four units with 3, 5, 2 and 4 rows on two ranks,
    [maxele] has length 14 with rows 0-2 from unit 0, 3-4 from unit 2, 5-9
    from unit 1 and 10-13 from unit 3. *)
Theorem C3_gather_layout :
  (forall root_local rest,
      round_ready root_local (root_local :: rest) ->
      exists g,
        gather_round (root_local :: rest) = Ok g
        /\ shape g
           = list_sum (map rows (root_local :: rest)) :: tl (shape root_local)
        /\ forall r a i,
             nth_error (root_local :: rest) r = Some a ->
             i < rows a ->
             row g (list_sum (map rows (firstn r (root_local :: rest))) + i)
             = row a i)
  /\ (forall extract dirs size locals data k g,
         map_phase extract dirs size = Ok locals ->
         same_keys locals ->
         gather_phase locals = Finished data ->
         dict_get k data = Some g ->
         exists arrays,
           arrays_of k locals = Ok arrays
           /\ gather_round arrays = Ok g
           /\ flat g = concat (map flat arrays)
           /\ rows g = list_sum (map rows arrays))
  /\ (create_data Examples.extract_four Examples.dirs_four 2
      = Finished Examples.data_four
      /\ gather_order 4 2 = [0; 2; 1; 3]
      /\ row_origin Examples.extract_four Examples.dirs_four 2 "maxele"
         = [0; 0; 0; 2; 2; 1; 1; 1; 1; 1; 3; 3; 3; 3]).
Proof.
  split; [|split].
  - intros root_local rest Hready.
    eexists. split; [apply (gather_round_ready _ _ Hready)|].
    split; [reflexivity|].
    intros r a i Hr Hi. unfold row. simpl shape. simpl flat.
    destruct (Hready a (nth_error_In _ _ Hr)) as [_ Hs].
    rewrite Hs. simpl tl.
    apply (gathered_row root_local _ Hready r a i Hr Hi).
  - intros extract dirs size locals data k g Hmap Hsame Hg Hk.
    destruct (job_layout _ _ _ _ _ _ _ Hmap Hsame Hg Hk)
      as [[arrays [Ha Hr]] _].
    exists arrays. split; [exact Ha|]. split; [exact Hr|].
    destruct arrays as [|a0 rest]; [discriminate|].
    split; [apply (gather_round_inv _ _ _ Hr)|].
    destruct (gather_round_shape _ _ _ Hr) as [tr Hs].
    unfold rows at 1. rewrite Hs. reflexivity.
  - repeat split; reflexivity.
Qed.

Lemma C3_gather_layout_witness :
  exists g,
    gather_round [Examples.arr1 [100; 101; 102; 120; 121]%Z;
                  Examples.arr1 [110; 111; 112; 113; 114;
                                 130; 131; 132; 133]%Z] = Ok g
    /\ shape g = [14].
Proof.
  destruct (proj1 C3_gather_layout
              (Examples.arr1 [100; 101; 102; 120; 121]%Z)
              [Examples.arr1 [110; 111; 112; 113; 114;
                              130; 131; 132; 133]%Z])
    as [g [Hg [Hs _]]].
  - intros a [<-|[<-|[]]]; split; reflexivity.
  - exists g. split; [exact Hg | exact Hs].
Defined.

Lemma map_loop_lines (extract : string -> option record)
    (dirs : list string) (idxs : list nat) :
  forall arrs out arrs' out',
    map_loop extract dirs idxs arrs out = Ok (arrs', out') ->
    out' = out ++ map missing_message
                    (filter (fun i => match extract (nth i dirs ""%string) with
                                      | None => true
                                      | Some _ => false
                                      end) idxs).
Proof.
  induction idxs as [|i rest IH]; intros arrs out arrs' out' H;
    cbn [map_loop] in H.
  - injection H as _ <-. simpl. rewrite app_nil_r. reflexivity.
  - cbn [filter]. destruct (extract (nth i dirs ""%string)) as [info|].
    + destruct (tag_storm i info) as [info'|e]; cbn [bind] in H;
        [|discriminate].
      exact (IH _ _ _ _ H).
    + rewrite (IH _ _ _ _ H). cbn [map]. rewrite <- app_assoc. reflexivity.
Qed.

Lemma map_loop_no_data (dirs : list string) (idxs : list nat) :
  forall arrs out,
    map_loop (fun _ => None) dirs idxs arrs out
    = Ok (arrs, out ++ map missing_message idxs).
Proof.
  induction idxs as [|i rest IH]; intros arrs out; cbn [map_loop map].
  - rewrite app_nil_r. reflexivity.
  - rewrite IH, <- app_assoc. reflexivity.
Qed.

(** C4: with [size >= 1] ranks, the loop of rank [k] visits the units
    [dirs[i] for i in range(k, len(dirs), size)], which are the units at
    indices [k], [k + size], [k + 2 size], ... below [len(dirs)], that is
    the slice [dirs[k::size]]: each of them either is reported missing or
    adds its fragments to the rank's arrays, in that order, and no other
    unit does; and the assignments of all ranks together hold every unit
    index, and every unit, exactly once. *)
Theorem C4_round_robin_partition (dirs : list string) (size : nat)
    (Hsize : 1 <= size) :
  (forall k,
      (exists m,
          range k (length dirs) size = map (fun j => k + j * size) (seq 0 m)
          /\ forall j, k + j * size < length dirs <-> j < m)
      /\ map (fun i => nth i dirs ""%string) (range k (length dirs) size)
         = slice_step k size dirs)
  /\ Permutation
       (flat_map (fun k => range k (length dirs) size) (seq 0 size))
       (seq 0 (length dirs))
  /\ Permutation
       (flat_map (fun k => slice_step k size dirs) (seq 0 size))
       dirs
  /\ (forall extract k ld out,
         worker extract dirs k size = Ok (ld, out) ->
         out = map missing_message
                 (filter (fun i => match extract (nth i dirs ""%string) with
                                   | None => true
                                   | Some _ => false
                                   end)
                         (range k (length dirs) size))
         /\ (forall key,
                In key (dict_keys ld) <->
                exists i r,
                  In i (range k (length dirs) size)
                  /\ tagged extract dirs i = Some r
                  /\ In key (dict_keys r))
         /\ (forall key a,
                dict_get key ld = Some a ->
                flat a
                = flat_map value_flat
                    (fragments extract dirs key
                       (range k (length dirs) size))))
  /\ (forall k,
         worker (fun _ => None) dirs k size
         = Ok ([], map missing_message (range k (length dirs) size)))
  /\ (forall i,
         i < length dirs ->
         forall k, k < size ->
                   (In i (range k (length dirs) size) <-> k = i mod size)).
Proof.
  split; [|split; [|split; [|split; [|split]]]].
  - intros k. split.
    + apply range_closed. exact Hsize.
    + apply range_loop_slice; [exact Hsize | lia].
  - apply round_robin_indices. exact Hsize.
  - pose proof (Permutation_map (fun i => nth i dirs ""%string)
                  (round_robin_indices (length dirs) size Hsize)) as P.
    rewrite map_nth_seq, <- flat_map_map_out in P.
    erewrite flat_map_ext; [exact P|].
    intros k. simpl. symmetry. apply range_loop_slice; [exact Hsize | lia].
  - intros extract k ld out Hw. unfold worker in Hw.
    split; [|split].
    + destruct (run_units_inv _ _ _ _ _ Hw) as [arrs [Hloop _]].
      exact (map_loop_lines _ _ _ _ _ _ _ Hloop).
    + intros key. exact (run_units_keys _ _ _ _ _ key Hw).
    + intros key a Hg.
      exact (proj1 (run_units_layout _ _ _ _ _ _ _ Hw Hg)).
  - intros k. unfold worker, run_units.
    rewrite map_loop_no_data. reflexivity.
  - intros i Hi k Hk. rewrite (in_range size Hsize). split.
    + intros [_ [j ->]].
      rewrite Nat.Div0.mod_add. symmetry.
      apply Nat.mod_small. exact Hk.
    + intros ->. split; [exact Hi|]. exists (i / size).
      rewrite (Nat.div_mod_eq i size) at 1. lia.
Qed.

Lemma C4_round_robin_partition_witness :
  1 <= 2 /\
  Permutation
    (flat_map (fun k => slice_step k 2 ["s0"; "s1"; "s2"; "s3"; "s4"]%string)
              (seq 0 2))
    ["s0"; "s1"; "s2"; "s3"; "s4"]%string
  /\ worker (fun _ => None) ["s0"; "s1"; "s2"; "s3"; "s4"]%string 1 2
     = Ok ([], [missing_message 1; missing_message 3]).
Proof.
  split; [lia|].
  destruct (C4_round_robin_partition ["s0"; "s1"; "s2"; "s3"; "s4"]%string 2)
    as [_ [_ [Hperm [_ [Hnone _]]]]].
  - lia.
  - split; [exact Hperm | exact (Hnone 1)].
Defined.

(** C5, as the claim states it, fails: the unit list comes out in the order
    of the listing, here with [s002] before [s001], which is not its sorted
    order. *)
Lemma C5_counterexample :
  ~ AsStated.C5
  /\ enumerate_units Examples.fs_unsorted "data" "storms"
  = Ok ["data/storms/s002"; "data/storms/s001"]%string
  /\ sorted ["data/storms/s002"; "data/storms/s001"]%string
     <> ["data/storms/s002"; "data/storms/s001"]%string.
Proof.
  split; [|split; [reflexivity | discriminate]].
  intros H.
  specialize (H Examples.fs_unsorted "data"%string "storms"%string
                ["data/storms/s002"; "data/storms/s001"]%string eq_refl).
  discriminate.
Qed.

(** C5, amended: the root's unit list is the directory listing in the order
    [os.listdir] returned it, filtered (not sorted); after the broadcast
    every rank holds that same list; and every index a rank visits is a
    position of that list, the one of the unit it extracts. *)
Theorem C5_units_in_listing_order (fs : filesystem)
    (datadir stormsdir : string) (entries : list string)
    (Hls : listdir fs (datadir ++ "/" ++ stormsdir)%string = Some entries) :
  enumerate_units fs datadir stormsdir
  = Ok (filter (fun d => isdir fs d && negb (py_in "." d))
          (map (fun e => ((datadir ++ "/" ++ stormsdir) ++ "/" ++ e)%string)
               entries))
  /\ (forall dirs size,
         1 <= size ->
         broadcast_units size dirs = repeat (Some dirs) size)
  /\ (forall (dirs : list string) rank size i,
         1 <= size ->
         In i (range rank (length dirs) size) ->
         nth_error dirs i = Some (nth i dirs ""%string)).
Proof.
  split; [|split].
  - apply enumerate_units_filter. exact Hls.
  - intros dirs size Hs. unfold broadcast_units.
    rewrite bcast_root_value, repeat_length.
    replace (S (size - 1)) with size by lia. reflexivity.
  - intros dirs rank size i Hs Hin.
    apply in_range in Hin; [|exact Hs].
    apply nth_error_nth'. lia.
Qed.

Lemma C5_units_in_listing_order_witness :
  enumerate_units Examples.fs_unsorted "data" "storms"
  = Ok ["data/storms/s002"; "data/storms/s001"]%string.
Proof.
  exact (proj1 (C5_units_in_listing_order Examples.fs_unsorted "data" "storms"
                  ["s002"; "s001"; "notes.txt"]%string eq_refl)).
Defined.

(** C6: the keys a rank iterates in its gather loop, one round per key,
    are the names it accumulated, in lexicographic order; two accumulators
    with the same key names, inserted in whatever order, give the same key
    sequence. *)
Theorem C6_key_order_is_lexicographic (arrs1 arrs2 : accum)
    (ld1 ld2 : local_data)
    (H1 : consolidate arrs1 [] = Ok ld1)
    (H2 : consolidate arrs2 [] = Ok ld2)
    (Hsame : forall k, In k (dict_keys arrs1) <-> In k (dict_keys arrs2)) :
  gather_keys ld1 = gather_keys ld2
  /\ StronglySorted (fun a b => String.leb a b = true) (gather_keys ld1)
  /\ (forall k, In k (gather_keys ld1) <-> In k (dict_keys arrs1))
  /\ dict_keys (pending ld1) = gather_keys ld1.
Proof.
  assert (K1 := consolidate_keys _ _ _ H1).
  assert (K2 := consolidate_keys _ _ _ H2).
  split; [|split; [|split]].
  - apply sorted_perm_eq. apply NoDup_Permutation.
    + apply (consolidate_NoDup arrs1 [] ld1); [constructor | exact H1].
    + apply (consolidate_NoDup arrs2 [] ld2); [constructor | exact H2].
    + intros k. rewrite K1, K2, Hsame. simpl. tauto.
  - apply sorted_ordered.
  - intros k. unfold gather_keys. rewrite sorted_In, K1. simpl. tauto.
  - apply pending_keys.
Qed.

Lemma C6_key_order_is_lexicographic_witness :
  gather_keys [("maxele", Examples.arr1 [1%Z]); ("inds", Examples.arr1 [2%Z])]
  = gather_keys [("inds", Examples.arr1 [2%Z]); ("maxele", Examples.arr1 [1%Z])].
Proof.
  apply (C6_key_order_is_lexicographic
           [("maxele", [VScal 1%Z]); ("inds", [VScal 2%Z])]
           [("inds", [VScal 2%Z]); ("maxele", [VScal 1%Z])]
           [("maxele", Examples.arr1 [1%Z]); ("inds", Examples.arr1 [2%Z])]
           [("inds", Examples.arr1 [2%Z]); ("maxele", Examples.arr1 [1%Z])]
           eq_refl eq_refl).
  intros k. simpl. tauto.
Defined.

Lemma dict_update_head {V} (items : list (string * V)) :
  forall (k : string) (v : V) (t : dict V),
    exists v' t', dict_update ((k, v) :: t) items = (k, v') :: t'.
Proof.
  unfold dict_update.
  induction items as [|[k1 v1] rest IH]; intros k v t; simpl; [eauto|].
  destruct (String.eqb_spec k k1) as [->|N]; apply IH.
Qed.

(** C7: [_init_shared_arrs] runs on the root after [create] has read
    [coastal_dist.hdf5] and its ["dist"] dataset (lines 216-217).  Then the
    loaded arrays begin with [coastal_dist], whose length is [num_nodes];
    construction fails with the inconsistent-length error, a [ValueError],
    iff some loaded array's length differs from that first length, it fails
    in no other way, and when all lengths agree it returns the variable
    names and the common length. *)
Theorem C7_shared_arrays_length_check (fs : filesystem) (datadir : string)
    (coastal_dist_ds : dict (list Z)) (coastal_dists : list Z)
    (Hfile : h5file fs (datadir ++ "/coastal_dist.hdf5")%string
             = Some coastal_dist_ds)
    (Hdist : dict_get "dist" coastal_dist_ds = Some coastal_dists) :
  exists mesh_vars first rest,
    _get_mesh_vars fs datadir = Ok mesh_vars
    /\ mesh_vars = ("coastal_dist"%string, first) :: rest
    /\ (_init_shared_arrs_root fs datadir = Raise ValueError <->
        exists k arr, In (k, arr) mesh_vars /\ length arr <> length first)
    /\ ((forall k arr, In (k, arr) mesh_vars -> length arr = length first) ->
        _init_shared_arrs_root fs datadir
        = Ok (dict_keys mesh_vars, length first))
    /\ (forall e, _init_shared_arrs_root fs datadir = Raise e ->
                  e = ValueError).
Proof.
  assert (Hload : exists first rest,
             _get_mesh_vars fs datadir
             = Ok (("coastal_dist"%string, first) :: rest)).
  { unfold _get_mesh_vars. rewrite Hfile, Hdist. cbn [bind dict_set].
    destruct (h5file fs (datadir ++ "/bathy_stats.hdf5")%string) as [b|].
    - destruct (dict_update_head b "coastal_dist"%string coastal_dists [])
        as [v' [t' E]].
      rewrite E. eauto.
    - eauto. }
  destruct Hload as [first [rest Hload]].
  exists (("coastal_dist"%string, first) :: rest), first, rest.
  split; [exact Hload|]. split; [reflexivity|].
  unfold _init_shared_arrs_root. rewrite Hload.
  cbn [bind dict_get]. rewrite String.eqb_refl.
  destruct (check_lengths_cases (length first)
              (("coastal_dist"%string, first) :: rest)) as [E|E].
  - split; [|split].
    + rewrite <- check_lengths_fail. rewrite E. simpl. split; congruence.
    + intros _. rewrite E. reflexivity.
    + rewrite E. discriminate.
  - split; [|split].
    + rewrite <- check_lengths_fail. rewrite E. simpl. split; congruence.
    + intros Hall. apply check_lengths_ok in Hall. rewrite Hall. reflexivity.
    + rewrite E. simpl. congruence.
Qed.

Lemma C7_shared_arrays_length_check_witness :
  _init_shared_arrs_root Examples.fs_mesh "data"
  = Ok (["coastal_dist"; "depth_mean"; "depth_std"]%string, 3).
Proof.
  destruct (C7_shared_arrays_length_check Examples.fs_mesh "data"
              [("dist", [7; 8; 9]%Z)] [7; 8; 9]%Z eq_refl eq_refl)
    as [mesh_vars [first [rest [Hload [Hhead [_ [Hok _]]]]]]].
  vm_compute in Hload. injection Hload as <-.
  injection Hhead as <- <-.
  apply Hok. intros k arr Hin. simpl in Hin.
  destruct Hin as [H|[H|[H|[]]]]; inversion H; reflexivity.
Defined.

(** C8: when the extractor returns no data for a unit, the loop prints the
    message for that unit and goes on with its remaining units on an
    unchanged accumulator; the rank ends up holding exactly what it would
    hold had the unit not been assigned to it; the unit adds no fragment to
    any key, and its index labels no row of the rank's storm array nor of
    the gathered one. *)
Theorem C8_unit_without_data_is_skipped (extract : string -> option record)
    (dirs : list string) (pre post : list nat) (i : nat)
    (Hnone : extract (nth i dirs ""%string) = None) :
  (forall arrs out,
      map_loop extract dirs (i :: post) arrs out
      = map_loop extract dirs post arrs (out ++ [missing_message i]))
  /\ result_map fst (run_units extract dirs (pre ++ i :: post))
     = result_map fst (run_units extract dirs (pre ++ post))
  /\ (forall ld out,
         run_units extract dirs (pre ++ i :: post) = Ok (ld, out) ->
         In (missing_message i) out)
  /\ (forall k, fragments extract dirs k [i] = [])
  /\ (records_are_dicts extract ->
      forall ld out s,
        run_units extract dirs (pre ++ i :: post) = Ok (ld, out) ->
        dict_get "storm" ld = Some s ->
        ~ In (Z.of_nat i) (flat s))
  /\ (records_are_dicts extract ->
      forall size locals data s,
        map_phase extract dirs size = Ok locals ->
        same_keys locals ->
        gather_phase locals = Finished data ->
        dict_get "storm" data = Some s ->
        ~ In (Z.of_nat i) (flat s)).
Proof.
  split; [|split; [|split; [|split; [|split]]]].
  - intros arrs out. simpl. rewrite Hnone. reflexivity.
  - rewrite !run_units_fst, map_loop_skip; [reflexivity | exact Hnone].
  - intros ld out H. apply run_units_inv in H. destruct H as [arrs [Hm _]].
    apply (map_loop_message _ _ _ _ _ _ _ i Hm); [|exact Hnone].
    apply in_or_app. right. left. reflexivity.
  - intros k. unfold fragments, tagged. simpl. rewrite Hnone. reflexivity.
  - intros Hd ld out s H Hs Hin.
    destruct (run_units_layout _ _ _ _ _ _ _ H Hs) as [Hflat _].
    rewrite Hflat in Hin. apply (storm_labels _ _ _ _ Hd) in Hin.
    destruct Hin as [j [_ [Hj Hex]]]. apply Nat2Z.inj in Hj. subst j.
    contradiction.
  - intros Hd size locals data s Hmap Hsame Hg Hs Hin.
    destruct (job_layout _ _ _ _ _ _ _ Hmap Hsame Hg Hs) as [_ [Hflat _]].
    rewrite Hflat in Hin. apply (storm_labels _ _ _ _ Hd) in Hin.
    destruct Hin as [j [_ [Hj Hex]]]. apply Nat2Z.inj in Hj. subst j.
    contradiction.
Qed.

Lemma C8_unit_without_data_is_skipped_witness :
  Examples.extract_one_missing (nth 1 Examples.dirs_two ""%string) = None
  /\ result_map fst
       (run_units Examples.extract_one_missing Examples.dirs_two [0; 1])
     = result_map fst
         (run_units Examples.extract_one_missing Examples.dirs_two [0]).
Proof.
  split; [reflexivity|].
  apply (C8_unit_without_data_is_skipped Examples.extract_one_missing
           Examples.dirs_two [0] [] 1).
  reflexivity.
Defined.

(** C9, as the claim states it, fails: the only storm gives key [extra] an
    array of no rows, so every rank reports zero rows for it, and the
    dataset still holds an entry for [extra], of shape [(0, 3)]. *)
Lemma C9_counterexample :
  ~ AsStated.C9
  /\ create_data Examples.extract_empty_key ["data/storms/s000"]%string 1
  = Finished [("extra", {| shape := [0; 3]; flat := [] |});
              ("inds", Examples.arr1 [7; 8]%Z);
              ("storm", Examples.arr1 [0; 0]%Z)].
Proof.
  split; [|reflexivity].
  intros H.
  specialize (H Examples.extract_empty_key ["data/storms/s000"]%string 1
                [[("inds", Examples.arr1 [7; 8]%Z);
                  ("extra", {| shape := [0; 3]; flat := [] |});
                  ("storm", Examples.arr1 [0; 0]%Z)]]
                [("extra", {| shape := [0; 3]; flat := [] |});
                 ("inds", Examples.arr1 [7; 8]%Z);
                 ("storm", Examples.arr1 [0; 0]%Z)]
                "extra"%string eq_refl eq_refl).
  assert (E : dict_get "extra"
                [("extra", {| shape := [0; 3]; flat := [] |});
                 ("inds", Examples.arr1 [7; 8]%Z);
                 ("storm", Examples.arr1 [0; 0]%Z)] = None).
  { apply H. intros ld a [<-|[]] Ha. simpl in Ha. injection Ha as <-.
    reflexivity. }
  discriminate.
Qed.

(** C9, amended: a key for which all ranks report zero rows is not skipped.
    Its round completes like any other (given arrays that agree on the
    trailing shape) and yields an array of no rows, of shape [(0,)] plus the
    trailing shape; and whenever the gather loop finishes, the dataset holds
    an entry for every key of the root's key sequence. *)
Theorem C9_zero_row_key_is_stored :
  (forall root_local rest,
      round_ready root_local (root_local :: rest) ->
      (forall a, In a (root_local :: rest) -> rows a = 0) ->
      gather_round (root_local :: rest)
      = Ok {| shape := 0 :: tl (shape root_local); flat := [] |})
  /\ (forall locals data,
         gather_phase locals = Finished data ->
         forall k, In k (gather_keys (hd [] locals)) ->
                   exists g, dict_get k data = Some g).
Proof.
  split.
  - intros root_local rest Hready Hzero.
    rewrite (gather_round_ready _ _ Hready).
    assert (Hsum : list_sum (map rows (root_local :: rest)) = 0).
    { generalize dependent (root_local :: rest). intros l _ Hz.
      induction l as [|a t IH]; [reflexivity|].
      simpl. rewrite (Hz a (or_introl eq_refl)), IH; [reflexivity|].
      intros b Hb. apply Hz. right. exact Hb. }
    assert (Hlen : length (concat (map flat (root_local :: rest))) = 0).
    { rewrite (ready_concat_length _ _ Hready), Hsum. reflexivity. }
    rewrite Hsum. apply length_zero_iff_nil in Hlen. rewrite Hlen.
    reflexivity.
  - intros locals data H k Hk. apply dict_keys_In_get.
    apply (gather_phase_keys _ _ H). exact Hk.
Qed.

Lemma C9_zero_row_key_is_stored_witness :
  gather_round [{| shape := [0; 3]; flat := [] |};
                {| shape := [0; 3]; flat := [] |}]
  = Ok {| shape := [0; 3]; flat := [] |}.
Proof.
  apply (proj1 C9_zero_row_key_is_stored
               {| shape := [0; 3]; flat := [] |}
               [{| shape := [0; 3]; flat := [] |}]).
  - intros a [<-|[<-|[]]]; split; reflexivity.
  - intros a [<-|[<-|[]]]; reflexivity.
Defined.

(** C10: a listed entry becomes a unit iff its full path
    [datadir/stormsdir/entry] is a directory and has no dot anywhere in it;
    so when [datadir] or [stormsdir] itself has a dot, the unit list is
    empty. *)
Theorem C10_dot_in_path_excludes_units (fs : filesystem)
    (datadir stormsdir : string) (dirs : list string)
    (Henum : enumerate_units fs datadir stormsdir = Ok dirs) :
  (forall d,
      In d dirs <->
      exists entries e,
        listdir fs (datadir ++ "/" ++ stormsdir)%string = Some entries
        /\ In e entries
        /\ d = ((datadir ++ "/" ++ stormsdir) ++ "/" ++ e)%string
        /\ isdir fs d = true
        /\ py_in "." d = false)
  /\ (py_in "." datadir = true \/ py_in "." stormsdir = true -> dirs = []).
Proof.
  destruct (listdir fs (datadir ++ "/" ++ stormsdir)%string) as [entries|] eqn:Hls.
  2: { unfold enumerate_units in Henum. rewrite Hls in Henum. discriminate. }
  rewrite (enumerate_units_filter _ _ _ _ Hls) in Henum.
  injection Henum as Hdirs. split.
  - intros d. rewrite <- Hdirs, filter_In, in_map_iff. split.
    + intros [[e [He Hin]] Hk]. apply andb_true_iff in Hk.
      destruct Hk as [Hd Hdot]. apply negb_true_iff in Hdot.
      exists entries, e. auto.
    + intros [entries' [e [Hl [Hin [He [Hd Hdot]]]]]].
      injection Hl as <-. split.
      * exists e. auto.
      * rewrite Hd, Hdot. reflexivity.
  - intros Hdot. rewrite <- Hdirs. apply filter_all_false.
    intros d Hin. apply in_map_iff in Hin. destruct Hin as [e [<- _]].
    replace (py_in "." _) with true; [apply andb_false_r|].
    symmetry. apply path_has_dot. exact Hdot.
Qed.

Lemma C10_dot_in_path_excludes_units_witness :
  enumerate_units Examples.fs_dot "./data" "storms" = Ok []
  /\ (py_in "." "./data" = true \/ py_in "." "storms" = true ->
      @nil string = []).
Proof.
  split; [reflexivity|].
  exact (proj2 (C10_dot_in_path_excludes_units
                  Examples.fs_dot "./data" "storms" [] eq_refl)).
Defined.

(* ================================================================== *)
(** * Further properties of the code *)
(* ================================================================== *)

(** ** Setup: units, names, parameters, reference arrays *)

Lemma append_inj (p a b : string) : (p ++ a = p ++ b)%string -> a = b.
Proof.
  induction p as [|c t IH]; simpl; intros H; [exact H|].
  injection H as H. exact (IH H).
Qed.

Lemma map_filter_pull {A B} (f : A -> B) (g : B -> A) (keep : B -> bool)
    (l : list A) :
  (forall a, In a l -> g (f a) = a) ->
  map g (filter keep (map f l)) = filter (fun a => keep (f a)) l.
Proof.
  induction l as [|a t IH]; intros H; simpl; [reflexivity|].
  rewrite <- IH by (intros b Hb; apply H; right; exact Hb).
  destruct (keep (f a)); simpl; [|reflexivity].
  rewrite (H a (or_introl eq_refl)). reflexivity.
Qed.

Lemma py_in_slash_join (t e : string) :
  py_in "/" (t ++ "/" ++ e)%string = true.
Proof.
  rewrite py_in_char_app. apply orb_true_iff. right.
  cbn [String.append py_in String.prefix].
  destruct (ascii_dec "/" "/") as [_|N]; [|exfalso; apply N; reflexivity].
  rewrite prefix_empty. reflexivity.
Qed.

(** The base name of a path whose last component has no slash is that
    component. *)
Lemma basename_join (p e : string) :
  py_in "/" e = false -> basename (p ++ "/" ++ e)%string = e.
Proof.
  intros He. induction p as [|c t IH].
  - simpl. rewrite He. reflexivity.
  - change (String c t ++ "/" ++ e)%string
      with (String c (t ++ "/" ++ e))%string.
    cbn [basename]. rewrite py_in_slash_join. exact IH.
Qed.

(** X1: when the listing has no entry twice, no unit is enumerated twice,
    and there are at most as many units as entries. *)
Theorem X1_units_are_distinct (fs : filesystem) (datadir stormsdir : string)
    (entries dirs : list string)
    (Hls : listdir fs (datadir ++ "/" ++ stormsdir)%string = Some entries)
    (Hnd : NoDup entries)
    (Henum : enumerate_units fs datadir stormsdir = Ok dirs) :
  NoDup dirs /\ length dirs <= length entries.
Proof.
  rewrite (enumerate_units_filter _ _ _ _ Hls) in Henum.
  injection Henum as <-. split.
  - apply NoDup_filter. apply Finite.Injective_map_NoDup; [|exact Hnd].
    intros a b Hab. apply append_inj in Hab. injection Hab as Hab. exact Hab.
  - rewrite <- (length_map (fun e => ((datadir ++ "/" ++ stormsdir) ++ "/" ++ e)%string) entries).
    apply filter_length_le.
Qed.

Lemma X1_units_are_distinct_witness :
  NoDup ["data/storms/s002"; "data/storms/s001"]%string
  /\ 2 <= 3.
Proof.
  apply (X1_units_are_distinct MoreExamples.fs_full "data" "storms"
           ["s002"; "s001"; "s003.old"]%string
           ["data/storms/s002"; "data/storms/s001"]%string eq_refl).
  - repeat constructor; simpl; intuition discriminate.
  - reflexivity.
Defined.

(** X2: the storm names written beside the dataset are the listing's
    entries that became units, in unit order: the name at position [i] is
    the directory entry of unit [i], and the unit's path is the storms
    directory joined with it. *)
Theorem X2_storm_names_are_the_entries (fs : filesystem)
    (datadir stormsdir : string) (entries dirs : list string)
    (Hls : listdir fs (datadir ++ "/" ++ stormsdir)%string = Some entries)
    (Hplain : forall e, In e entries -> py_in "/" e = false)
    (Henum : enumerate_units fs datadir stormsdir = Ok dirs) :
  storm_names dirs
  = filter (fun e =>
              let d := ((datadir ++ "/" ++ stormsdir) ++ "/" ++ e)%string in
              isdir fs d && negb (py_in "." d)) entries
  /\ length (storm_names dirs) = length dirs
  /\ (forall i d,
         nth_error dirs i = Some d ->
         d = ((datadir ++ "/" ++ stormsdir) ++ "/"
              ++ nth i (storm_names dirs) "")%string).
Proof.
  rewrite (enumerate_units_filter _ _ _ _ Hls) in Henum.
  injection Henum as <-. split; [|split].
  - unfold storm_names.
    apply (map_filter_pull
             (fun e => ((datadir ++ "/" ++ stormsdir) ++ "/" ++ e)%string)
             basename (fun d => isdir fs d && negb (py_in "." d))).
    intros e He. apply basename_join. apply Hplain. exact He.
  - apply length_map.
  - intros i d Hd.
    assert (Hin : In d (filter (fun d => isdir fs d && negb (py_in "." d))
                          (map (fun e => ((datadir ++ "/" ++ stormsdir) ++ "/" ++ e)%string)
                               entries)))
      by (apply (nth_error_In _ _ Hd)).
    apply filter_In in Hin. destruct Hin as [Hin _].
    apply in_map_iff in Hin. destruct Hin as [e [He Hine]].
    unfold storm_names.
    rewrite (nth_indep _ ""%string (basename ""%string))
      by (rewrite length_map; apply nth_error_Some; congruence).
    rewrite map_nth, (nth_error_nth _ _ _ Hd), <- He.
    rewrite (basename_join _ e (Hplain e Hine)). reflexivity.
Qed.

Lemma X2_storm_names_are_the_entries_witness :
  storm_names ["data/storms/s002"; "data/storms/s001"]%string
  = ["s002"; "s001"]%string.
Proof.
  refine (proj1 (X2_storm_names_are_the_entries MoreExamples.fs_full
                   "data" "storms" ["s002"; "s001"; "s003.old"]%string
                   ["data/storms/s002"; "data/storms/s001"]%string
                   eq_refl _ eq_refl)).
  intros e [<-|[<-|[<-|[]]]]; reflexivity.
Defined.

(** *** Updating a dictionary *)

Section UpdateFacts.

Context {V : Type}.
Implicit Types (d items : dict V) (k : string).

Lemma dict_set_keys_old d k (v : V) :
  In k (dict_keys d) -> dict_keys (dict_set k v d) = dict_keys d.
Proof.
  unfold dict_keys. induction d as [|[k0 v0] t IH]; simpl; [contradiction|].
  intros Hin. destruct (String.eqb_spec k0 k) as [E|N]; simpl.
  - rewrite E. reflexivity.
  - f_equal. apply IH. destruct Hin as [E|Hin]; [contradiction | exact Hin].
Qed.

Lemma dict_set_keys_new d k (v : V) :
  ~ In k (dict_keys d) -> dict_keys (dict_set k v d) = dict_keys d ++ [k].
Proof.
  unfold dict_keys. induction d as [|[k0 v0] t IH]; simpl; [reflexivity|].
  intros Hnot. destruct (String.eqb_spec k0 k) as [E|N]; simpl.
  - exfalso. apply Hnot. left. exact E.
  - f_equal. apply IH. intros H. apply Hnot. right. exact H.
Qed.

Lemma dict_update_get items :
  forall d k,
    NoDup (dict_keys items) ->
    dict_get k (dict_update d items)
    = match dict_get k items with
      | Some v => Some v
      | None => dict_get k d
      end.
Proof.
  unfold dict_update.
  induction items as [|[k0 v0] t IH]; intros d k Hnd; simpl; [reflexivity|].
  inversion Hnd as [|? ? Hnot Hnd']; subst.
  rewrite (IH _ k Hnd'). destruct (String.eqb_spec k0 k) as [E|N].
  - subst k0. apply dict_get_None in Hnot. rewrite Hnot.
    apply dict_get_set_same.
  - destruct (dict_get k t); [reflexivity|].
    apply dict_get_set_other. exact N.
Qed.

Lemma dict_update_keys_in items :
  forall d k,
    In k (dict_keys (dict_update d items))
    <-> In k (dict_keys d) \/ In k (dict_keys items).
Proof.
  unfold dict_update.
  induction items as [|[k0 v0] t IH]; intros d k; simpl; [tauto|].
  rewrite IH, dict_keys_set. intuition congruence.
Qed.

Lemma dict_update_NoDup items :
  forall d, NoDup (dict_keys d) -> NoDup (dict_keys (dict_update d items)).
Proof.
  unfold dict_update.
  induction items as [|[k0 v0] t IH]; intros d Hnd; simpl; [exact Hnd|].
  apply IH. apply dict_set_NoDup. exact Hnd.
Qed.

(** The keys a dictionary had stay in front, in their order; the new ones
    follow. *)
Lemma dict_update_keys items :
  forall d,
    exists extra,
      dict_keys (dict_update d items) = dict_keys d ++ extra
      /\ forall k, In k extra <->
                   In k (dict_keys items) /\ ~ In k (dict_keys d).
Proof.
  unfold dict_update.
  induction items as [|[k0 v0] t IH]; intros d; simpl.
  - exists []. rewrite app_nil_r. split; [reflexivity|]. simpl. tauto.
  - destruct (IH (dict_set k0 v0 d)) as [extra [Hk Hin]].
    rewrite Hk.
    destruct (in_dec string_dec k0 (dict_keys d)) as [Hd|Hd].
    + rewrite (dict_set_keys_old d k0 v0 Hd).
      exists extra. split; [reflexivity|]. intros k. rewrite Hin.
      rewrite dict_keys_set. split.
      * intros [Ht Hn]. split; [right; exact Ht|]. tauto.
      * intros [[<-|Ht] Hn]; [contradiction|]. split; [exact Ht|].
        intros [->|H]; contradiction.
    + rewrite (dict_set_keys_new d k0 v0 Hd).
      exists (k0 :: extra). rewrite <- app_assoc. split; [reflexivity|].
      intros k. simpl. rewrite Hin, dict_keys_set. split.
      * intros [<-|[Ht Hn]]; [tauto|]. split; [right; exact Ht|]. tauto.
      * intros [[<-|Ht] Hn]; [left; reflexivity|].
        destruct (string_dec k0 k) as [E|N]; [left; exact E|].
        right. split; [exact Ht|]. intros [->|H]; [apply N; reflexivity|].
        contradiction.
Qed.

End UpdateFacts.

(** X3: the parameters of a run are the defaults overridden by the
    keyword arguments: a given argument wins, a default stays otherwise,
    the seven default names come first in their order, and an argument
    under another name is added after them. *)
Theorem X3_params_override_defaults (kwargs : dict Z)
    (Hnd : NoDup (dict_keys kwargs)) :
  (forall k,
      dict_get k (create_params kwargs)
      = match dict_get k kwargs with
        | Some v => Some v
        | None => dict_get k default_kwargs
        end)
  /\ (exists extra,
         dict_keys (create_params kwargs)
         = ["hours_before"; "hours_after"; "cutoff_coastal_dist";
            "max_depth"; "min_depth"; "r"; "downsample_factor"]%string
           ++ extra
         /\ forall k, In k extra <->
                      In k (dict_keys kwargs)
                      /\ ~ In k (dict_keys default_kwargs))
  /\ NoDup (dict_keys (create_params kwargs)).
Proof.
  unfold create_params. split; [|split].
  - intros k. apply dict_update_get. exact Hnd.
  - apply (dict_update_keys kwargs default_kwargs).
  - apply dict_update_NoDup.
    repeat constructor; simpl; intuition discriminate.
Qed.

Lemma X3_params_override_defaults_witness :
  dict_get "r" (create_params [("r", 200%Z); ("verbose", 1%Z)]) = Some 200%Z.
Proof.
  refine (proj1 (X3_params_override_defaults
                   [("r", 200%Z); ("verbose", 1%Z)] _) "r"%string).
  repeat constructor; simpl; intuition discriminate.
Defined.

(** *** The mesh variables of a directory *)

Lemma get_mesh_vars_cases (fs : filesystem) (dirname : string) :
  _get_mesh_vars fs dirname
  = match h5file fs (dirname ++ "/coastal_dist.hdf5")%string with
    | Some coastal_ds =>
        match dict_get "dist" coastal_ds with
        | Some a =>
            Ok (match h5file fs (dirname ++ "/bathy_stats.hdf5")%string with
                | Some bathy_ds =>
                    dict_update [("coastal_dist"%string, a)] bathy_ds
                | None => [("coastal_dist"%string, a)]
                end)
        | None => Raise (KeyError "dist")
        end
    | None =>
        Ok (match h5file fs (dirname ++ "/bathy_stats.hdf5")%string with
            | Some bathy_ds => dict_update [] bathy_ds
            | None => []
            end)
    end.
Proof.
  unfold _get_mesh_vars.
  destruct (h5file fs (dirname ++ "/coastal_dist.hdf5")%string) as [ds|].
  - destruct (dict_get "dist" ds) as [a|]; [|reflexivity]. simpl.
    destruct (h5file fs (dirname ++ "/bathy_stats.hdf5")%string); reflexivity.
  - simpl.
    destruct (h5file fs (dirname ++ "/bathy_stats.hdf5")%string); reflexivity.
Qed.

(** X4: loading the mesh variables of a directory fails only when
    [coastal_dist.hdf5] exists without a ["dist"] dataset.  Otherwise the
    result holds every dataset of [bathy_stats.hdf5] under its name and the
    coastal distances under ["coastal_dist"], a bathymetry dataset of that
    name taking their place; no name is there twice, and when the coastal
    file exists ["coastal_dist"] is the first name. *)
Theorem X4_mesh_vars_of_a_directory (fs : filesystem) (dirname : string)
    (Hbathy : forall b,
        h5file fs (dirname ++ "/bathy_stats.hdf5")%string = Some b ->
        NoDup (dict_keys b)) :
  (forall e,
      _get_mesh_vars fs dirname = Raise e <->
      e = KeyError "dist"
      /\ exists ds,
           h5file fs (dirname ++ "/coastal_dist.hdf5")%string = Some ds
           /\ dict_get "dist" ds = None)
  /\ (forall mesh_vars,
         _get_mesh_vars fs dirname = Ok mesh_vars ->
         NoDup (dict_keys mesh_vars)
         /\ (forall k,
                dict_get k mesh_vars
                = match
                    match h5file fs (dirname ++ "/bathy_stats.hdf5")%string with
                    | Some b => dict_get k b
                    | None => None
                    end
                  with
                  | Some v => Some v
                  | None =>
                      if String.eqb k "coastal_dist"
                      then match h5file fs (dirname ++ "/coastal_dist.hdf5")%string with
                           | Some ds => dict_get "dist" ds
                           | None => None
                           end
                      else None
                  end)
         /\ (h5file fs (dirname ++ "/coastal_dist.hdf5")%string <> None ->
             hd_error (dict_keys mesh_vars) = Some "coastal_dist"%string)).
Proof.
  rewrite get_mesh_vars_cases.
  destruct (h5file fs (dirname ++ "/coastal_dist.hdf5")%string) as [ds|].
  - destruct (dict_get "dist" ds) as [a|] eqn:Ed.
    + split.
      * intros e. split; [discriminate|]. intros [_ [ds' [[= <-] H]]].
        congruence.
      * intros mv [= <-].
        destruct (h5file fs (dirname ++ "/bathy_stats.hdf5")%string)
          as [b|] eqn:Eb.
        -- split; [|split].
           ++ apply dict_update_NoDup. repeat constructor. intros [].
           ++ intros k. rewrite (dict_update_get b _ k (Hbathy b eq_refl)).
              destruct (dict_get k b); [reflexivity|]. simpl.
              rewrite String.eqb_sym. destruct (String.eqb k "coastal_dist");
                reflexivity.
           ++ intros _.
              destruct (dict_update_keys b [("coastal_dist"%string, a)])
                as [extra [Hk _]].
              rewrite Hk. reflexivity.
        -- split; [|split].
           ++ repeat constructor. intros [].
           ++ intros k. simpl. rewrite String.eqb_sym.
              destruct (String.eqb k "coastal_dist"); reflexivity.
           ++ reflexivity.
    + split.
      * intros e. split.
        -- intros [= <-]. split; [reflexivity|]. exists ds. auto.
        -- intros [-> _]. reflexivity.
      * intros mv H. discriminate.
  - split.
    + intros e. split; [discriminate|]. intros [_ [ds [H _]]]. discriminate.
    + intros mv [= <-].
      destruct (h5file fs (dirname ++ "/bathy_stats.hdf5")%string)
        as [b|] eqn:Eb.
      * split; [|split].
        -- apply dict_update_NoDup. constructor.
        -- intros k. rewrite (dict_update_get b _ k (Hbathy b eq_refl)).
           destruct (dict_get k b); [reflexivity|]. simpl.
           destruct (String.eqb k "coastal_dist"); reflexivity.
        -- intros H. contradiction.
      * split; [|split].
        -- constructor.
        -- intros k. simpl. destruct (String.eqb k "coastal_dist"); reflexivity.
        -- intros H. contradiction.
Qed.

Lemma X4_mesh_vars_of_a_directory_witness :
  exists mesh_vars,
    _get_mesh_vars MoreExamples.fs_full "data" = Ok mesh_vars
    /\ NoDup (dict_keys mesh_vars)
    /\ hd_error (dict_keys mesh_vars) = Some "coastal_dist"%string.
Proof.
  eexists. split; [reflexivity|].
  destruct (proj2 (X4_mesh_vars_of_a_directory MoreExamples.fs_full "data"
                     ltac:(intros b [= <-]; repeat constructor; simpl;
                           intuition discriminate))
                  _ eq_refl) as [Hnd [_ Hhd]].
  split; [exact Hnd | apply Hhd; discriminate].
Defined.

(** X5: the setup of [create] on the root fails only because the storms
    directory cannot be listed or [coastal_dist.hdf5] is missing, because
    that file has no ["dist"] dataset, or because the reference arrays
    differ in length; the lookup of ["coastal_dist"] in
    [_init_shared_arrs] cannot fail there, since [create] has read the file
    before.  When it succeeds, ["coastal_dist"] is among the variable
    names. *)
Theorem X5_create_setup_failures (fs : filesystem)
    (datadir stormsdir : string) :
  (forall e,
      create_setup fs datadir stormsdir = Raise e ->
      e = OSError \/ e = KeyError "dist" \/ e = ValueError)
  /\ (forall dirs var_names num_nodes,
         create_setup fs datadir stormsdir = Ok (dirs, (var_names, num_nodes)) ->
         enumerate_units fs datadir stormsdir = Ok dirs
         /\ In "coastal_dist"%string var_names).
Proof.
  unfold create_setup, _init_shared_arrs_root.
  rewrite get_mesh_vars_cases.
  assert (Henum : forall e, enumerate_units fs datadir stormsdir = Raise e ->
                            e = OSError).
  { unfold enumerate_units.
    destruct (listdir fs (datadir ++ "/" ++ stormsdir)%string);
      intros e H; [discriminate | congruence]. }
  destruct (enumerate_units fs datadir stormsdir) as [dirs|e0] eqn:Ee; simpl.
  2: { split; [|discriminate]. intros e [= <-]. left. apply Henum.
       reflexivity. }
  destruct (h5file fs (datadir ++ "/coastal_dist.hdf5")%string) as [ds|];
    simpl.
  2: { split; [|discriminate]. intros e [= <-]. auto. }
  destruct (dict_get "dist" ds) as [a|]; simpl.
  2: { split; [|discriminate]. intros e [= <-]. auto. }
  set (mv := match h5file fs (datadir ++ "/bathy_stats.hdf5")%string with
             | Some bathy_ds => dict_update [("coastal_dist"%string, a)] bathy_ds
             | None => [("coastal_dist"%string, a)]
             end).
  assert (Hin : In "coastal_dist"%string (dict_keys mv)).
  { unfold mv. destruct (h5file fs (datadir ++ "/bathy_stats.hdf5")%string).
    - apply dict_update_keys_in. left. left. reflexivity.
    - left. reflexivity. }
  destruct (proj1 (dict_keys_In_get mv "coastal_dist") Hin) as [c Hc].
  rewrite Hc.
  destruct (check_lengths_cases (length c) mv) as [E|E]; rewrite E; simpl.
  - split; [discriminate|]. intros dirs' names n [= <- <- <-]. auto.
  - split; [|discriminate]. intros e [= <-]. auto.
Qed.

Lemma X5_create_setup_failures_witness :
  In "coastal_dist"%string ["coastal_dist"; "depth_mean"; "depth_std"]%string.
Proof.
  exact (proj2 (proj2 (X5_create_setup_failures MoreExamples.fs_full
                         "data" "storms")
                      ["data/storms/s002"; "data/storms/s001"]%string
                      ["coastal_dist"; "depth_mean"; "depth_std"]%string 3
                      eq_refl)).
Defined.

(** *** The shared reference arrays *)

Lemma get_mesh_vars_NoDup (fs : filesystem) (dirname : string)
    (mesh_vars : dict (list Z)) :
  _get_mesh_vars fs dirname = Ok mesh_vars -> NoDup (dict_keys mesh_vars).
Proof.
  rewrite get_mesh_vars_cases.
  destruct (h5file fs (dirname ++ "/coastal_dist.hdf5")%string) as [ds|].
  - destruct (dict_get "dist" ds) as [a|]; [|discriminate].
    intros [= <-].
    destruct (h5file fs (dirname ++ "/bathy_stats.hdf5")%string).
    + apply dict_update_NoDup. repeat constructor. intros [].
    + repeat constructor. intros [].
  - intros [= <-].
    destruct (h5file fs (dirname ++ "/bathy_stats.hdf5")%string).
    + apply dict_update_NoDup. constructor.
    + constructor.
Qed.

Section SharedFacts.

Variable num_nodes : nat.
Variable mesh_vars : dict (list Z).

(** Every name a rank maps refers to an allocated window. *)
Local Abbreviation consistent st :=
  (forall view v win,
      In view (mesh_views st) -> dict_get v view = Some win ->
      win < length (windows st)).

(** The variables to allocate are loaded, with [num_nodes] elements. *)
Local Abbreviation loaded vs :=
  (forall v, In v vs ->
             exists src, dict_get v mesh_vars = Some src
                         /\ length src = num_nodes).

Lemma allocate_eq (uninit : nat -> nat -> Z) (st : shared_state)
    (v : string) (src : list Z) :
  dict_get v mesh_vars = Some src ->
  length src = num_nodes ->
  allocate num_nodes uninit mesh_vars st v
  = Ok {| windows := windows st ++ [src];
          mesh_views := map (dict_set v (length (windows st)))
                            (mesh_views st) |}.
Proof.
  intros Hv Hl. unfold allocate, assign_all. rewrite Hv.
  rewrite length_map, length_seq, Hl, Nat.eqb_refl. reflexivity.
Qed.

Lemma read_after_allocate (st : shared_state) (v : string) (src : list Z)
    (rank : nat) (v' : string) :
  consistent st ->
  rank < length (mesh_views st) ->
  read_mesh_var
    {| windows := windows st ++ [src];
       mesh_views := map (dict_set v (length (windows st))) (mesh_views st) |}
    rank v'
  = if String.eqb v v' then Some src else read_mesh_var st rank v'.
Proof.
  intros Hc Hr. unfold read_mesh_var. simpl.
  rewrite nth_error_map.
  destruct (nth_error (mesh_views st) rank) as [view|] eqn:Ev.
  2: { apply nth_error_None in Ev. lia. }
  simpl. destruct (String.eqb_spec v v') as [E|N].
  - rewrite <- E, dict_get_set_same, nth_error_app2, Nat.sub_diag by lia.
    reflexivity.
  - rewrite (dict_get_set_other _ _ _ _ N).
    destruct (dict_get v' view) as [win|] eqn:Ew; [|reflexivity].
    apply nth_error_app1. apply (Hc view v' win); [|exact Ew].
    apply (nth_error_In _ _ Ev).
Qed.

Lemma consistent_after_allocate (st : shared_state) (v : string)
    (src : list Z) :
  consistent st ->
  consistent
    {| windows := windows st ++ [src];
       mesh_views := map (dict_set v (length (windows st))) (mesh_views st) |}.
Proof.
  intros Hc view v' win Hin Hg. simpl in *. rewrite length_app. simpl.
  apply in_map_iff in Hin. destruct Hin as [view0 [<- Hin0]].
  destruct (String.eqb_spec v v') as [E|N].
  - rewrite <- E, dict_get_set_same in Hg. injection Hg as <-. lia.
  - rewrite (dict_get_set_other _ _ _ _ N) in Hg.
    pose proof (Hc view0 v' win Hin0 Hg). lia.
Qed.

(** The loop over the variable names: it succeeds, every rank then reads
    the loaded array under each allocated name, and what it read under
    other names is unchanged. *)
Lemma allocate_all_spec (uninit : nat -> nat -> Z) (vs : list string) :
  forall st,
    NoDup vs -> loaded vs -> consistent st ->
    exists st',
      allocate_all num_nodes uninit mesh_vars vs st = Ok st'
      /\ length (mesh_views st') = length (mesh_views st)
      /\ forall rank v,
           rank < length (mesh_views st) ->
           (In v vs -> read_mesh_var st' rank v = dict_get v mesh_vars)
           /\ (~ In v vs -> read_mesh_var st' rank v = read_mesh_var st rank v).
Proof.
  induction vs as [|v0 rest IH]; intros st Hnd Hl Hc.
  - exists st. simpl. split; [reflexivity|]. split; [reflexivity|].
    intros rank v _. tauto.
  - inversion Hnd as [|? ? Hnot Hnd']; subst.
    destruct (Hl v0 (or_introl eq_refl)) as [src [Hv Hlen]].
    simpl. rewrite (allocate_eq uninit st v0 src Hv Hlen). simpl.
    destruct (IH _ Hnd' (fun v H => Hl v (or_intror H))
                 (consistent_after_allocate st v0 src Hc))
      as [st' [Hrun [Hviews Hread]]].
    exists st'. split; [exact Hrun|]. simpl in Hviews.
    rewrite length_map in Hviews. split; [exact Hviews|].
    intros rank v Hr.
    assert (Hr' : rank < length (map (dict_set v0 (length (windows st)))
                                     (mesh_views st)))
      by (rewrite length_map; exact Hr).
    destruct (Hread rank v Hr') as [Hin Hout]. split.
    + intros [E|Hv']; [|exact (Hin Hv')].
      subst v0. rewrite (Hout Hnot).
      rewrite (read_after_allocate st v src rank v Hc Hr), String.eqb_refl.
      symmetry. exact Hv.
    + intros Hno. rewrite Hout by (intros H; apply Hno; right; exact H).
      rewrite (read_after_allocate st v0 src rank v Hc Hr).
      destruct (String.eqb_spec v0 v) as [E|N]; [|reflexivity].
      exfalso. apply Hno. left. exact E.
Qed.

(** The loop does not look at what the fresh windows held. *)
Lemma allocate_all_uninit (u1 u2 : nat -> nat -> Z) (vs : list string) :
  forall st,
    loaded vs ->
    allocate_all num_nodes u1 mesh_vars vs st
    = allocate_all num_nodes u2 mesh_vars vs st.
Proof.
  induction vs as [|v0 rest IH]; intros st Hl; [reflexivity|].
  destruct (Hl v0 (or_introl eq_refl)) as [src [Hv Hlen]].
  simpl. rewrite !(allocate_eq _ st v0 src Hv Hlen). simpl.
  apply IH. intros v H. apply Hl. right. exact H.
Qed.

End SharedFacts.

Lemma checked_loaded (num_nodes : nat) (mesh_vars : dict (list Z)) :
  check_lengths num_nodes mesh_vars = Ok tt ->
  forall v, In v (dict_keys mesh_vars) ->
            exists src, dict_get v mesh_vars = Some src
                        /\ length src = num_nodes.
Proof.
  intros Hc v Hin. apply dict_keys_In_get in Hin. destruct Hin as [src Hs].
  exists src. split; [exact Hs|].
  apply (proj1 (check_lengths_ok num_nodes mesh_vars) Hc v).
  apply dict_get_Some_In. exact Hs.
Qed.

Lemma init_shared_arrs_inv (fs : filesystem) (datadir : string) (size : nat)
    (uninit : nat -> nat -> Z) (st : shared_state) :
  _init_shared_arrs fs datadir size uninit = Ok st ->
  exists mesh_vars coastal,
    _get_mesh_vars fs datadir = Ok mesh_vars
    /\ dict_get "coastal_dist" mesh_vars = Some coastal
    /\ check_lengths (length coastal) mesh_vars = Ok tt
    /\ allocate_all (length coastal) uninit mesh_vars (dict_keys mesh_vars)
         {| windows := []; mesh_views := repeat [] size |} = Ok st.
Proof.
  unfold _init_shared_arrs.
  destruct (_get_mesh_vars fs datadir) as [mv|e]; simpl; [|discriminate].
  destruct (dict_get "coastal_dist" mv) as [c|] eqn:Ec; [|discriminate].
  destruct (check_lengths (length c) mv) as [[]|e] eqn:El; simpl;
    [|discriminate].
  intros H. exists mv, c. auto.
Qed.

(** X6: after [_init_shared_arrs] every rank reads, under every variable
    name, exactly the array the root loaded, and nothing under any other
    name; all the arrays have the length of ["coastal_dist"]. *)
Theorem X6_ranks_read_the_loaded_arrays (fs : filesystem) (datadir : string)
    (size : nat) (uninit : nat -> nat -> Z) (st : shared_state)
    (Hinit : _init_shared_arrs fs datadir size uninit = Ok st) :
  exists mesh_vars coastal,
    _get_mesh_vars fs datadir = Ok mesh_vars
    /\ dict_get "coastal_dist" mesh_vars = Some coastal
    /\ (forall rank v,
           rank < size ->
           read_mesh_var st rank v = dict_get v mesh_vars)
    /\ (forall rank v arr,
           read_mesh_var st rank v = Some arr ->
           length arr = length coastal).
Proof.
  destruct (init_shared_arrs_inv _ _ _ _ _ Hinit)
    as [mv [c [Hload [Hc [Hlen Hrun]]]]].
  exists mv, c. split; [exact Hload|]. split; [exact Hc|].
  destruct (allocate_all_spec (length c) mv uninit (dict_keys mv)
              {| windows := []; mesh_views := repeat [] size |}
              (get_mesh_vars_NoDup _ _ _ Hload)
              (checked_loaded _ _ Hlen))
    as [st' [Hrun' [Hviews Hread]]].
  { intros view v win Hin Hg. simpl in Hin. apply repeat_spec in Hin.
    subst view. discriminate. }
  rewrite Hrun in Hrun'. injection Hrun' as <-.
  simpl in Hviews, Hread. rewrite repeat_length in Hviews, Hread.
  assert (Hall : forall rank v,
             rank < size -> read_mesh_var st rank v = dict_get v mv).
  { intros rank v Hr. destruct (Hread rank v Hr) as [Hin Hout].
    destruct (in_dec string_dec v (dict_keys mv)) as [Hv|Hv];
      [exact (Hin Hv)|].
    rewrite (Hout Hv). unfold read_mesh_var. simpl.
    rewrite nth_error_repeat by exact Hr. simpl.
    symmetry. apply dict_get_None. exact Hv. }
  split; [exact Hall|].
  intros rank v arr Hr.
  assert (Hrank : rank < size).
  { unfold read_mesh_var in Hr.
    destruct (nth_error (mesh_views st) rank) eqn:E; [|discriminate].
    rewrite <- Hviews. apply nth_error_Some. congruence. }
  rewrite (Hall rank v Hrank) in Hr.
  apply (proj1 (check_lengths_ok _ _) Hlen v).
  apply dict_get_Some_In. exact Hr.
Qed.

Lemma X6_ranks_read_the_loaded_arrays_witness :
  exists st,
    _init_shared_arrs MoreExamples.fs_full "data" 2 (fun _ _ => 0%Z) = Ok st
    /\ read_mesh_var st 1 "depth_std" = Some [4; 5; 6]%Z.
Proof.
  eexists. split; [reflexivity|].
  destruct (X6_ranks_read_the_loaded_arrays MoreExamples.fs_full "data" 2
              (fun _ _ => 0%Z) _ eq_refl)
    as [mv [c [Hload [_ [Hread _]]]]].
  rewrite (Hread 1 "depth_std"%string) by lia.
  injection Hload as <-. reflexivity.
Defined.

(** X7: when the root's loading or length check fails,
    [_init_shared_arrs] fails with that error, before any window is
    allocated; and what it returns does not depend on what the fresh
    shared memory held: the root overwrites every element of every window
    before the barrier. *)
Theorem X7_shared_arrays_hold_no_fresh_memory (fs : filesystem)
    (datadir : string) (size : nat) :
  (forall e uninit,
      _init_shared_arrs_root fs datadir = Raise e ->
      _init_shared_arrs fs datadir size uninit = Raise e)
  /\ (forall u1 u2,
         _init_shared_arrs fs datadir size u1
         = _init_shared_arrs fs datadir size u2).
Proof.
  unfold _init_shared_arrs, _init_shared_arrs_root.
  destruct (_get_mesh_vars fs datadir) as [mv|e] eqn:Hload; simpl;
    [|split; [intros e0 u [= <-]; reflexivity | reflexivity]].
  destruct (dict_get "coastal_dist" mv) as [c|];
    [|split; [intros e0 u [= <-]; reflexivity | reflexivity]].
  destruct (check_lengths (length c) mv) as [[]|e] eqn:Hlen; simpl;
    [|split; [intros e0 u [= <-]; reflexivity | reflexivity]].
  split; [discriminate|].
  intros u1 u2. apply allocate_all_uninit. apply checked_loaded. exact Hlen.
Qed.

Lemma X7_shared_arrays_hold_no_fresh_memory_witness :
  _init_shared_arrs
    {| listdir := fun _ => None;
       isdir := fun _ => false;
       h5file := fun p =>
         if String.eqb p "data/coastal_dist.hdf5"
         then Some [("dist", [7; 8; 9]%Z)]
         else if String.eqb p "data/bathy_stats.hdf5"
         then Some [("depth_mean", [1; 2]%Z)]
         else None |}
    "data" 2 (fun _ _ => 0%Z)
  = Raise ValueError.
Proof.
  apply (proj1 (X7_shared_arrays_hold_no_fresh_memory _ "data" 2)).
  reflexivity.
Defined.

(** ** The landfall index *)

Section LandfallFacts.

Variable is_land : Q -> Q -> bool.

(** Row [j] comes ashore, with [was_land] standing for the row before the
    first. *)
Local Abbreviation ashore was_land coords j :=
  (match nth_error coords j with
   | Some (lat, lon) =>
       is_land lat lon && in_gulf lat lon
       && match j%nat with
          | 0 => negb was_land
          | S p => negb (on_land is_land coords p)
          end
   | None => false
   end).

Lemma ashore_shift (was_land : bool) (lat lon : Q) (rest : list (Q * Q))
    (j : nat) :
  ashore was_land ((lat, lon) :: rest) (S j)
  = ashore (is_land lat lon) rest j.
Proof.
  simpl. destruct (nth_error rest j) as [[la lo]|]; [|reflexivity].
  destruct j as [|p]; reflexivity.
Qed.

Lemma landfall_scan_spec (coords : list (Q * Q)) :
  forall i was_land,
    match landfall_scan is_land i was_land coords with
    | Some t =>
        exists j, t = i + j
                  /\ ashore was_land coords j = true
                  /\ forall j', j' < j -> ashore was_land coords j' = false
    | None => forall j, ashore was_land coords j = false
    end.
Proof.
  induction coords as [|[lat lon] rest IH]; intros i w.
  - simpl. intros j. destruct j; reflexivity.
  - cbn [landfall_scan].
    destruct (negb w && is_land lat lon && in_gulf lat lon) eqn:E.
    + exists 0. split; [lia|]. split; [|intros j' Hj'; lia].
      simpl. apply andb_true_iff in E. destruct E as [E1 E3].
      apply andb_true_iff in E1. destruct E1 as [E1 E2].
      rewrite E1, E2, E3. reflexivity.
    + assert (H0 : ashore w ((lat, lon) :: rest) 0 = false).
      { simpl. destruct w, (is_land lat lon), (in_gulf lat lon);
          simpl in *; congruence. }
      specialize (IH (S i) (is_land lat lon)).
      destruct (landfall_scan is_land (S i) (is_land lat lon) rest) as [t|].
      * destruct IH as [j [Ht [Hj Hmin]]].
        exists (S j). split; [lia|]. split.
        -- rewrite (ashore_shift w). exact Hj.
        -- intros [|j'] Hlt; [exact H0|].
           rewrite (ashore_shift w). apply Hmin. lia.
      * intros [|j]; [exact H0|]. rewrite (ashore_shift w). apply IH.
Qed.

Lemma ashore_from_sea (coords : list (Q * Q)) (j : nat) :
  ashore false coords j = comes_ashore is_land coords j.
Proof.
  unfold comes_ashore. destruct (nth_error coords j) as [[la lo]|];
    [|reflexivity].
  destruct j; reflexivity.
Qed.

End LandfallFacts.

(** X8: the scan of [determine_landfall] stops at index [t] exactly when
    row [t] is the first row of the track that comes ashore inside the box
    -- on land, with 24 < lat < 31 and -98 < lon < -88, and first of the
    track or preceded by a row off land.  A row that is on land after a
    row on land is never taken, whether in the box or not. *)
Theorem X8_landfall_is_first_row_ashore (is_land : Q -> Q -> bool)
    (track_coords : list (Q * Q)) (t : nat) :
  landfall_index is_land track_coords = Some t <->
  comes_ashore is_land track_coords t = true
  /\ forall j, j < t -> comes_ashore is_land track_coords j = false.
Proof.
  unfold landfall_index.
  pose proof (landfall_scan_spec is_land track_coords 0 false) as S.
  destruct (landfall_scan is_land 0 false track_coords) as [t'|].
  - destruct S as [j [Ht [Hj Hmin]]]. simpl in Ht. subst t'.
    rewrite ashore_from_sea in Hj. split.
    + intros [= <-]. split; [exact Hj|].
      intros j' Hlt. rewrite <- ashore_from_sea. apply Hmin. exact Hlt.
    + intros [Ht Htmin]. f_equal.
      destruct (Nat.lt_trichotomy j t) as [Hlt|[E|Hgt]]; [|exact E|].
      * rewrite (Htmin j Hlt) in Hj. discriminate.
      * specialize (Hmin t Hgt). rewrite ashore_from_sea in Hmin. congruence.
  - split; [discriminate|]. intros [Ht _].
    specialize (S t). rewrite ashore_from_sea in S. congruence.
Qed.

Lemma X8_landfall_is_first_row_ashore_witness :
  landfall_index MoreExamples.land_north_of_29 MoreExamples.track = Some 3.
Proof.
  apply (proj2 (X8_landfall_is_first_row_ashore
                  MoreExamples.land_north_of_29 MoreExamples.track 3)).
  split; [reflexivity|].
  intros j Hj. destruct j as [|[|[|j]]]; [reflexivity | reflexivity | reflexivity | lia].
Defined.

(** X9: the scan finds no landfall exactly when no row of the track comes
    ashore inside the box; in particular a track whose first row is on
    land outside the box and that never leaves land has no landfall,
    wherever it goes. *)
Theorem X9_no_landfall (is_land : Q -> Q -> bool)
    (track_coords : list (Q * Q)) :
  (landfall_index is_land track_coords = None <->
   forall j, comes_ashore is_land track_coords j = false)
  /\ (forall lat lon rest,
         track_coords = (lat, lon) :: rest ->
         in_gulf lat lon = false ->
         (forall j, j < length track_coords ->
                    on_land is_land track_coords j = true) ->
         landfall_index is_land track_coords = None).
Proof.
  assert (Hnone : landfall_index is_land track_coords = None <->
                  forall j, comes_ashore is_land track_coords j = false).
  { unfold landfall_index.
    pose proof (landfall_scan_spec is_land track_coords 0 false) as S.
    destruct (landfall_scan is_land 0 false track_coords) as [t'|].
    - destruct S as [j [_ [Hj _]]]. rewrite ashore_from_sea in Hj.
      split; [discriminate|]. intros H. rewrite (H j) in Hj. discriminate.
    - split; [|reflexivity]. intros _ j. rewrite <- ashore_from_sea.
      apply S. }
  split; [exact Hnone|].
  intros lat lon rest -> Hbox Hland. apply Hnone. intros j.
  unfold comes_ashore.
  destruct (nth_error ((lat, lon) :: rest) j) as [[la lo]|] eqn:Ej;
    [|reflexivity].
  destruct j as [|p].
  - simpl in Ej. injection Ej as <- <-. rewrite Hbox.
    apply andb_false_iff. left. apply andb_false_r.
  - assert (Hp : p < length ((lat, lon) :: rest)).
    { assert (S p < length ((lat, lon) :: rest))
        by (apply nth_error_Some; congruence). lia. }
    rewrite (Hland p Hp). apply andb_false_r.
Qed.

Lemma X9_no_landfall_witness :
  landfall_index MoreExamples.land_north_of_29
    [(30 # 1, - (80 # 1)); (30 # 1, - (90 # 1))]%Q = None.
Proof.
  refine (proj2 (X9_no_landfall MoreExamples.land_north_of_29
                   [(30 # 1, - (80 # 1)); (30 # 1, - (90 # 1))]%Q)
                (30 # 1)%Q (- (80 # 1))%Q [(30 # 1, - (90 # 1))%Q]
                eq_refl eq_refl _).
  intros j Hj. simpl in Hj.
  destruct j as [|[|j]]; [reflexivity | reflexivity | lia].
Defined.

(** ** The selected node indices *)

Lemma where_from_spec (mask : list bool) :
  forall i x,
    In x (where_from i mask) <->
    i <= x /\ nth_error mask (x - i) = Some true.
Proof.
  induction mask as [|b t IH]; intros i x.
  - simpl. split; [contradiction|]. intros [_ H].
    destruct (x - i); discriminate.
  - assert (Hcons : In x (where_from (S i) t) <->
                    i < x /\ nth_error (b :: t) (x - i) = Some true).
    { rewrite IH. split.
      - intros [Hle Hn]. split; [lia|].
        replace (x - i) with (S (x - S i)) by lia. exact Hn.
      - intros [Hlt Hn]. split; [lia|].
        replace (x - i) with (S (x - S i)) in Hn by lia. exact Hn. }
    simpl. destruct b; simpl.
    + rewrite Hcons. split.
      * intros [<-|[Hlt Hn]].
        -- split; [lia|]. rewrite Nat.sub_diag. reflexivity.
        -- split; [lia | exact Hn].
      * intros [Hle Hn]. destruct (Nat.eq_dec i x) as [E|N]; [left; exact E|].
        right. split; [lia | exact Hn].
    + rewrite Hcons. split.
      * intros [Hlt Hn]. split; [lia | exact Hn].
      * intros [Hle Hn]. split; [|exact Hn].
        destruct (Nat.eq_dec i x) as [E|N]; [|lia].
        subst x. rewrite Nat.sub_diag in Hn. discriminate.
Qed.

Lemma where_from_sorted (mask : list bool) :
  forall i, StronglySorted lt (where_from i mask).
Proof.
  induction mask as [|b t IH]; intros i; simpl; [constructor|].
  destruct b; [|apply IH].
  constructor; [apply IH|].
  apply Forall_forall. intros x Hx. apply where_from_spec in Hx. lia.
Qed.

Lemma slice_step_In {A} (l : list A) :
  forall skip step x, In x (slice_step skip step l) -> In x l.
Proof.
  induction l as [|a t IH]; intros skip step x; simpl; [tauto|].
  destruct skip as [|s]; simpl.
  - intros [E|H]; [left; exact E | right; exact (IH _ _ _ H)].
  - intros H. right. exact (IH _ _ _ H).
Qed.

Lemma slice_step_sorted {A} (R : A -> A -> Prop) (l : list A) :
  forall skip step,
    StronglySorted R l -> StronglySorted R (slice_step skip step l).
Proof.
  induction l as [|a t IH]; intros skip step Hs; simpl; [constructor|].
  inversion Hs as [|? ? Ht Ha]; subst.
  destruct skip as [|s]; [|apply IH; exact Ht].
  constructor; [apply IH; exact Ht|].
  apply Forall_forall. intros x Hx. apply slice_step_In in Hx.
  rewrite Forall_forall in Ha. exact (Ha x Hx).
Qed.

(** The [j]-th item of a strided slice from the start is item [j * step]. *)
Lemma slice_step_nth {A} (l : list A) (step j : nat) :
  1 <= step ->
  nth_error (slice_step 0 step l) j = nth_error l (j * step).
Proof.
  intros Hs. destruct l as [|d0 t] eqn:El.
  - simpl. rewrite !nth_error_nil. reflexivity.
  - rewrite <- El. assert (Hslice := range_loop_slice step Hs d0 l 0 (length l)).
    unfold range in *. rewrite <- Hslice by lia.
    destruct (range_loop_closed step Hs (length l) 0 (length l)) as [m [Hr Hm]];
      [lia|].
    rewrite Hr, map_map. simpl.
    destruct (Nat.lt_ge_cases j m) as [Hlt|Hge].
    + rewrite (nth_error_nth' _ d0) by (rewrite length_map, length_seq; exact Hlt).
      rewrite (nth_indep _ d0 (nth (0 * step) l d0))
        by (rewrite length_map, length_seq; exact Hlt).
      rewrite (map_nth (fun x => nth (x * step) l d0)), seq_nth by exact Hlt.
      simpl. symmetry. apply nth_error_nth'. apply Hm. exact Hlt.
    + rewrite (proj2 (nth_error_None _ _))
        by (rewrite length_map, length_seq; exact Hge).
      symmetry. apply nth_error_None.
      destruct (Nat.lt_ge_cases (j * step) (length l)) as [H|H]; [|exact H].
      apply Hm in H. lia.
Qed.

Lemma sorted_app {A} (R : A -> A -> Prop) (l1 l2 : list A) :
  StronglySorted R l1 -> StronglySorted R l2 ->
  (forall a b, In a l1 -> In b l2 -> R a b) ->
  StronglySorted R (l1 ++ l2).
Proof.
  intros H1 H2 H. induction l1 as [|a t IH]; [exact H2|].
  inversion H1 as [|? ? Ht Ha]; subst. simpl. constructor.
  - apply IH; [exact Ht|]. intros x y Hx Hy. apply H; [right|]; assumption.
  - apply Forall_app. split; [exact Ha|].
    apply Forall_forall. intros y Hy. apply H; [left; reflexivity | exact Hy].
Qed.

Lemma sorted_rev {A} (R : A -> A -> Prop) (l : list A) :
  StronglySorted R l -> StronglySorted (fun a b => R b a) (rev l).
Proof.
  induction 1 as [|a t Ht IH Ha]; simpl; [constructor|].
  apply sorted_app; [exact IH | repeat constructor|].
  intros x y Hx [<-|[]]. apply in_rev in Hx.
  rewrite Forall_forall in Ha. exact (Ha x Hx).
Qed.

Lemma slice_by_inv {A} (step : Z) (l sel : list A) :
  slice_by step l = Ok sel ->
  ((0 < step)%Z /\ sel = slice_step 0 (Z.to_nat step) l)
  \/ ((step < 0)%Z /\ sel = slice_step 0 (Z.to_nat (- step)) (rev l)).
Proof.
  unfold slice_by. destruct (Z.eqb_spec step 0) as [E|N]; [discriminate|].
  destruct (Z.ltb_spec 0 step) as [P|P]; intros [= <-];
    [left | right]; split; try reflexivity; lia.
Qed.

Lemma slice_step_head {A} (l : list A) (step : nat) :
  hd_error (slice_step 0 step l) = hd_error l.
Proof.
  destruct l; reflexivity.
Qed.

Lemma np_where_spec (mask : list bool) (i : nat) :
  In i (np_where mask) <-> nth_error mask i = Some true.
Proof.
  unfold np_where. rewrite where_from_spec, Nat.sub_0_r.
  split; [tauto|]. intros H. split; [lia | exact H].
Qed.

(** X10: whatever the sign of the (non-zero) downsampling factor, the
    selected indices are node indices at which the mask holds, and there
    is none exactly when the mask holds nowhere.  With a positive factor
    they are in strictly increasing order and begin with the first masked
    node; with a negative one the slice runs backwards: they are in
    strictly decreasing order and begin with the last masked node. *)
Theorem X10_selected_indices_are_masked_nodes (mask : list bool)
    (downsample_factor : Z) (inds : list nat)
    (Hsel : select_inds mask downsample_factor = Ok inds) :
  (forall i, In i inds -> i < length mask /\ nth_error mask i = Some true)
  /\ (inds = [] <-> forall j, nth_error mask j <> Some true)
  /\ ((0 < downsample_factor)%Z ->
      StronglySorted lt inds
      /\ hd_error inds = hd_error (np_where mask))
  /\ ((downsample_factor < 0)%Z ->
      StronglySorted gt inds
      /\ hd_error inds = hd_error (rev (np_where mask))).
Proof.
  unfold select_inds in Hsel. apply slice_by_inv in Hsel.
  assert (Hin : forall i, In i inds -> In i (np_where mask)).
  { intros i Hi. destruct Hsel as [[_ ->]|[_ ->]];
      apply slice_step_In in Hi; [exact Hi | apply in_rev; exact Hi]. }
  assert (Hhd : inds = [] <-> np_where mask = []).
  { destruct Hsel as [[_ ->]|[_ ->]].
    - destruct (np_where mask); simpl; split; congruence.
    - destruct (np_where mask) as [|a t] eqn:Ew; [simpl; tauto|].
      split; [|discriminate]. intros He.
      assert (Hr : rev (a :: t) <> []).
      { simpl. intros H. apply app_eq_nil in H. destruct H; discriminate. }
      destruct (rev (a :: t)); [contradiction | discriminate]. }
  split; [|split; [|split]].
  - intros i Hi. apply Hin, np_where_spec in Hi. split; [|exact Hi].
    apply nth_error_Some. congruence.
  - rewrite Hhd. split.
    + intros He j Hj. apply np_where_spec in Hj. rewrite He in Hj.
      contradiction.
    + intros Hno. destruct (np_where mask) as [|a t] eqn:Ew; [reflexivity|].
      exfalso. apply (Hno a). apply np_where_spec. rewrite Ew. left.
      reflexivity.
  - intros Hp. destruct Hsel as [[_ ->]|[Hn _]]; [|lia]. split.
    + apply slice_step_sorted. apply where_from_sorted.
    + apply slice_step_head.
  - intros Hn. destruct Hsel as [[Hp _]|[_ ->]]; [lia|]. split.
    + apply slice_step_sorted.
      exact (sorted_rev lt _ (where_from_sorted mask 0)).
    + apply slice_step_head.
Qed.

Lemma X10_selected_indices_are_masked_nodes_witness :
  StronglySorted gt [6; 4; 1].
Proof.
  apply (proj2 (proj2 (proj2 (X10_selected_indices_are_masked_nodes
                                MoreExamples.mask8 (-2) [6; 4; 1] eq_refl)))).
  lia.
Defined.

(** X11: downsampling keeps every [downsample_factor]-th masked node.  With
    a positive factor [f] the [j]-th selected index is masked node number
    [j * f], counted from the first; with a negative factor [-f] it is
    masked node number [j * f] counted back from the last; either way [j]
    is a position of the selection exactly when [j * f] is a position
    among the masked nodes.  A factor of zero is an error. *)
Theorem X11_downsampling_keeps_every_nth (mask : list bool)
    (downsample_factor : Z) :
  (downsample_factor = 0%Z ->
   select_inds mask downsample_factor = Raise ValueError)
  /\ ((0 < downsample_factor)%Z ->
      exists inds,
        select_inds mask downsample_factor = Ok inds
        /\ (forall j,
               nth_error inds j
               = nth_error (np_where mask) (j * Z.to_nat downsample_factor))
        /\ (forall j,
               j < length inds <->
               j * Z.to_nat downsample_factor < length (np_where mask)))
  /\ ((downsample_factor < 0)%Z ->
      exists inds,
        select_inds mask downsample_factor = Ok inds
        /\ (forall j,
               j * Z.to_nat (- downsample_factor) < length (np_where mask) ->
               nth_error inds j
               = nth_error (np_where mask)
                   (length (np_where mask) - 1
                    - j * Z.to_nat (- downsample_factor)))
        /\ (forall j,
               j < length inds <->
               j * Z.to_nat (- downsample_factor)
               < length (np_where mask))).
Proof.
  unfold select_inds, slice_by. split; [|split].
  - intros ->. reflexivity.
  - intros Hf. destruct (Z.eqb_spec downsample_factor 0) as [E|_]; [lia|].
    destruct (Z.ltb_spec 0 downsample_factor) as [_|P]; [|lia].
    eexists. split; [reflexivity|].
    assert (Hnth := fun j => slice_step_nth (np_where mask)
                               (Z.to_nat downsample_factor) j
                               ltac:(lia)).
    split; [exact Hnth|].
    intros j. rewrite <- !nth_error_Some, Hnth. tauto.
  - intros Hf. destruct (Z.eqb_spec downsample_factor 0) as [E|_]; [lia|].
    destruct (Z.ltb_spec 0 downsample_factor) as [P|_]; [lia|].
    eexists. split; [reflexivity|].
    assert (Hnth := fun j => slice_step_nth (rev (np_where mask))
                               (Z.to_nat (- downsample_factor)) j
                               ltac:(lia)).
    split.
    + intros j Hj. rewrite Hnth, nth_error_rev.
      destruct (Nat.ltb_spec (j * Z.to_nat (- downsample_factor))
                  (length (np_where mask))) as [_|H]; [|lia].
      f_equal. lia.
    + intros j. rewrite <- nth_error_Some, Hnth, nth_error_Some, length_rev.
      tauto.
Qed.

Lemma X11_downsampling_keeps_every_nth_witness :
  exists inds,
    select_inds MoreExamples.mask8 (-2) = Ok inds
    /\ nth_error inds 1 = nth_error (np_where MoreExamples.mask8) 2.
Proof.
  destruct (proj2 (proj2 (X11_downsampling_keeps_every_nth
                            MoreExamples.mask8 (-2))))
    as [inds [Hs [Hn _]]]; [lia|].
  exists inds. split; [exact Hs|]. apply (Hn 1). simpl. lia.
Defined.

(** ** The record of a storm *)

(** X12: in the mesh variables an extraction works with, a variable of the
    storm's own directory takes precedence over the shared one of the same
    name, every shared variable the storm does not have is there with the
    shared array, and the storm's own names come first. *)
Theorem X12_own_mesh_vars_take_precedence (own shared : dict (list Z)) :
  (forall k,
      dict_get k (merge_mesh_vars own shared)
      = match dict_get k own with
        | Some arr => Some arr
        | None => dict_get k shared
        end)
  /\ (exists extra,
         dict_keys (merge_mesh_vars own shared) = dict_keys own ++ extra)
  /\ (NoDup (dict_keys own) -> NoDup (dict_keys (merge_mesh_vars own shared))).
Proof.
  unfold merge_mesh_vars. revert own.
  induction shared as [|[k0 v0] t IH]; intros own; simpl.
  - split; [|split].
    + intros k. destruct (dict_get k own); reflexivity.
    + exists []. rewrite app_nil_r. reflexivity.
    + tauto.
  - destruct (dict_get k0 own) as [a0|] eqn:E0.
    + destruct (IH own) as [Hget [Hkeys Hnd]]. split; [|split].
      * intros k. rewrite Hget. destruct (dict_get k own) eqn:Ek;
          [reflexivity|].
        destruct (String.eqb_spec k0 k) as [E|N]; [congruence | reflexivity].
      * exact Hkeys.
      * exact Hnd.
    + destruct (IH (dict_set k0 v0 own)) as [Hget [[extra Hkeys] Hnd]].
      apply dict_get_None in E0. split; [|split].
      * intros k. rewrite Hget. destruct (String.eqb_spec k0 k) as [E|N].
        -- subst k0. rewrite dict_get_set_same.
           apply dict_get_None in E0. rewrite E0. reflexivity.
        -- rewrite (dict_get_set_other _ _ _ _ N). reflexivity.
      * exists (k0 :: extra).
        rewrite Hkeys, (dict_set_keys_new own k0 v0 E0), <- app_assoc.
        reflexivity.
      * intros H. apply Hnd. apply dict_set_NoDup. exact H.
Qed.

Lemma X12_own_mesh_vars_take_precedence_witness :
  NoDup (dict_keys (merge_mesh_vars [("depth_mean", [9]%Z)]
                      MoreExamples.shared8)).
Proof.
  apply (proj2 (proj2 (X12_own_mesh_vars_take_precedence
                         [("depth_mean", [9]%Z)] MoreExamples.shared8))).
  repeat constructor. intros [].
Defined.

Section TakeFacts.

Variable inds : list nat.

(** The array [arr[inds]] when no index is past the end. *)
Local Abbreviation taken arr :=
  {| shape := [length inds]; flat := map (fun i => nth i arr 0%Z) inds |}.

Lemma take_values (arr : list Z) (l : list nat) :
  (forall i, In i l -> i < length arr) ->
  mapM (fun i => match nth_error arr i with
                 | Some v => Ok v
                 | None => Raise IndexError
                 end) l
  = Ok (map (fun i => nth i arr 0%Z) l).
Proof.
  induction l as [|i t IH]; intros H; simpl; [reflexivity|].
  rewrite (nth_error_nth' arr 0%Z (H i (or_introl eq_refl))). simpl.
  rewrite IH by (intros j Hj; apply H; right; exact Hj). reflexivity.
Qed.

Lemma take_fails (arr : list Z) (l : list nat) :
  (exists i, In i l /\ length arr <= i) ->
  mapM (fun i => match nth_error arr i with
                 | Some v => Ok v
                 | None => Raise IndexError
                 end) l
  = Raise IndexError.
Proof.
  induction l as [|i t IH]; intros [j [Hj Hlen]]; [contradiction|].
  simpl. destruct (nth_error arr i) as [v|] eqn:Ei; simpl; [|reflexivity].
  destruct Hj as [E|Hj].
  - subst j. apply nth_error_None in Hlen. congruence.
  - rewrite IH by (exists j; auto). reflexivity.
Qed.

Lemma take_ok (arr : list Z) :
  (forall i, In i inds -> i < length arr) -> take arr inds = Ok (taken arr).
Proof. intros H. unfold take. rewrite (take_values arr inds H). reflexivity. Qed.

Lemma take_cases (arr : list Z) :
  (take arr inds = Ok (taken arr)
   /\ forall i, In i inds -> i < length arr)
  \/ (take arr inds = Raise IndexError
      /\ exists i, In i inds /\ length arr <= i).
Proof.
  assert (D : (forall i, In i inds -> i < length arr)
              \/ exists i, In i inds /\ length arr <= i).
  { clear. induction inds as [|i t IH]; [left; intros i []|].
    destruct (Nat.lt_ge_cases i (length arr)) as [Hlt|Hge].
    - destruct IH as [IH|[j [Hj Hl]]].
      + left. intros j [<-|Hj]; auto.
      + right. exists j. split; [right; exact Hj | exact Hl].
    - right. exists i. split; [left; reflexivity | exact Hge]. }
  destruct D as [H|H].
  - left. split; [apply take_ok; exact H | exact H].
  - right. split; [|exact H]. unfold take. rewrite (take_fails arr inds H).
    reflexivity.
Qed.

(** The loop over the mesh variables: it completes when every array
    covers the indices, and then every mesh variable is in the record with
    one row per index, the other keys being as before. *)
Lemma add_mesh_vars_spec (items : list (string * list Z)) :
  forall res,
    (forall k arr i, In (k, arr) items -> In i inds -> i < length arr) ->
    exists r,
      add_mesh_vars inds items res = Ok r
      /\ (forall k, In k (dict_keys items) ->
                    exists arr, In (k, arr) items
                                /\ dict_get k r = Some (VArr (taken arr)))
      /\ (forall k, ~ In k (dict_keys items) -> dict_get k r = dict_get k res)
      /\ (NoDup (dict_keys res) -> NoDup (dict_keys r)).
Proof.
  induction items as [|[k0 arr0] t IH]; intros res Hb.
  - exists res. simpl. split; [reflexivity|]. split; [tauto|]. tauto.
  - simpl. rewrite (take_ok arr0 (fun i Hi => Hb k0 arr0 i (or_introl eq_refl) Hi)).
    simpl.
    destruct (IH (dict_set k0 (VArr (taken arr0)) res)
                 (fun k arr i H Hi => Hb k arr i (or_intror H) Hi))
      as [r [Hrun [Hin [Hout Hnd]]]].
    exists r. split; [exact Hrun|]. split; [|split].
    + intros k Hk.
      destruct (in_dec string_dec k (dict_keys t)) as [Ht|Ht].
      * destruct (Hin k Ht) as [arr [Ha Hg]]. exists arr. split; [right; exact Ha | exact Hg].
      * destruct Hk as [E|Hk]; [|contradiction]. simpl in E. subst k0.
        exists arr0. split; [left; reflexivity|].
        rewrite (Hout k Ht). apply dict_get_set_same.
    + intros k Hk. rewrite Hout by (intros H; apply Hk; right; exact H).
      apply dict_get_set_other. intros E. apply Hk. left. exact E.
    + intros H. apply Hnd. apply dict_set_NoDup. exact H.
Qed.

Lemma add_mesh_vars_fails (items : list (string * list Z)) :
  forall res,
    (exists k arr i, In (k, arr) items /\ In i inds /\ length arr <= i) ->
    add_mesh_vars inds items res = Raise IndexError.
Proof.
  induction items as [|[k0 arr0] t IH]; intros res [k [arr [i [Hin [Hi Hl]]]]];
    [contradiction|].
  simpl. destruct (take_cases arr0) as [[Ht _]|[Ht _]]; rewrite Ht; simpl;
    [|reflexivity].
  destruct Hin as [E|Hin].
  - injection E as -> ->.
    destruct (take_cases arr) as [[_ Hb]|[Hf _]]; [|congruence].
    specialize (Hb i Hi). lia.
  - apply IH. exists k, arr, i. auto.
Qed.

End TakeFacts.

Section RecordFacts.

Variable inds : list nat.

Local Abbreviation taken arr :=
  {| shape := [length inds]; flat := map (fun i => nth i arr 0%Z) inds |}.

Lemma add_mesh_vars_inv (items : list (string * list Z)) :
  forall res r,
    add_mesh_vars inds items res = Ok r ->
    forall k arr i, In (k, arr) items -> In i inds -> i < length arr.
Proof.
  induction items as [|[k0 arr0] t IH]; intros res r H k arr i Hin Hi;
    [contradiction|].
  simpl in H. destruct (take_cases inds arr0) as [[Ht Hb]|[Ht _]];
    rewrite Ht in H; simpl in H; [|discriminate].
  destruct Hin as [E|Hin].
  - injection E as _ <-. apply Hb. exact Hi.
  - apply (IH _ _ H k arr i Hin Hi).
Qed.


(** The seven entries the function adds itself. *)
Local Abbreviation own_items x y landfall_dists depth zeta_max coord :=
  [("x"%string, VArr (taken x)); ("y"%string, VArr (taken y));
   ("landfall_dist"%string, VArr (taken landfall_dists));
   ("depth"%string, VArr (taken depth));
   ("landfall_location"%string,
    VArr {| shape := [1; 2]; flat := [fst coord; snd coord] |});
   ("maxele"%string, VArr (taken zeta_max));
   ("inds"%string,
    VArr {| shape := [length inds]; flat := map Z.of_nat inds |})].

Lemma finish_record_inv (res : record)
    (x y landfall_dists depth zeta_max : list Z) (coord : Z * Z)
    (local_mesh_vars : dict (list Z)) (r : record) :
  finish_record res x y landfall_dists depth zeta_max coord inds
    local_mesh_vars = Ok r ->
  (forall i, In i inds ->
             i < length zeta_max /\ i < length x /\ i < length y
             /\ i < length landfall_dists /\ i < length depth)
  /\ add_mesh_vars inds local_mesh_vars
       (dict_update res
          (own_items x y landfall_dists depth zeta_max coord)) = Ok r.
Proof.
  unfold finish_record. intros H.
  destruct (take_cases inds zeta_max) as [[T1 B1]|[T1 _]]; rewrite T1 in H;
    simpl in H; [|discriminate].
  destruct (take_cases inds x) as [[T2 B2]|[T2 _]]; rewrite T2 in H;
    simpl in H; [|discriminate].
  destruct (take_cases inds y) as [[T3 B3]|[T3 _]]; rewrite T3 in H;
    simpl in H; [|discriminate].
  destruct (take_cases inds landfall_dists) as [[T4 B4]|[T4 _]];
    rewrite T4 in H; simpl in H; [|discriminate].
  destruct (take_cases inds depth) as [[T5 B5]|[T5 _]]; rewrite T5 in H;
    simpl in H; [|discriminate].
  split; [|exact H]. intros i Hi. repeat split; auto.
Qed.

Lemma own_items_NoDup (x y landfall_dists depth zeta_max : list Z)
    (coord : Z * Z) :
  NoDup (dict_keys (own_items x y landfall_dists depth zeta_max coord)).
Proof. repeat constructor; simpl; intuition discriminate. Qed.

Lemma taken_shape (arr : list Z) :
  shape (taken arr) = [length inds] /\ wf (taken arr) = true.
Proof.
  split; [reflexivity|]. unfold wf. simpl.
  rewrite length_map, Nat.mul_1_r. apply Nat.eqb_refl.
Qed.

End RecordFacts.

(** Where the entries of a completed record come from. *)
Lemma finish_record_lookup (res : record)
    (x y landfall_dists depth zeta_max : list Z) (landfall_coord : Z * Z)
    (inds : list nat) (local_mesh_vars : dict (list Z)) (r : record) :
  finish_record res x y landfall_dists depth zeta_max landfall_coord inds
    local_mesh_vars = Ok r ->
  (forall k, In k (dict_keys local_mesh_vars) ->
             exists arr,
               In (k, arr) local_mesh_vars
               /\ dict_get k r
                  = Some (VArr {| shape := [length inds];
                                  flat := map (fun i => nth i arr 0%Z) inds |}))
  /\ (forall k,
         ~ In k (dict_keys local_mesh_vars) ->
         dict_get k r
         = match
             dict_get k
               [("x"%string,
                 VArr {| shape := [length inds];
                         flat := map (fun i => nth i x 0%Z) inds |});
                ("y"%string,
                 VArr {| shape := [length inds];
                         flat := map (fun i => nth i y 0%Z) inds |});
                ("landfall_dist"%string,
                 VArr {| shape := [length inds];
                         flat := map (fun i => nth i landfall_dists 0%Z) inds |});
                ("depth"%string,
                 VArr {| shape := [length inds];
                         flat := map (fun i => nth i depth 0%Z) inds |});
                ("landfall_location"%string,
                 VArr {| shape := [1; 2];
                         flat := [fst landfall_coord; snd landfall_coord] |});
                ("maxele"%string,
                 VArr {| shape := [length inds];
                         flat := map (fun i => nth i zeta_max 0%Z) inds |});
                ("inds"%string,
                 VArr {| shape := [length inds];
                         flat := map Z.of_nat inds |})]
           with
           | Some v => Some v
           | None => dict_get k res
           end)
  /\ (NoDup (dict_keys res) -> NoDup (dict_keys r)).
Proof.
  intros Hfin.
  destruct (finish_record_inv _ _ _ _ _ _ _ _ _ _ Hfin) as [_ Hadd].
  match type of Hadd with
  | add_mesh_vars _ _ ?res0 = _ =>
      destruct (add_mesh_vars_spec inds local_mesh_vars res0
                  (add_mesh_vars_inv inds _ _ _ Hadd))
        as [r' [Hrun [Hin [Hout Hnd]]]]
  end.
  rewrite Hadd in Hrun. injection Hrun as <-.
  split; [exact Hin|]. split.
  - intros k Hm. rewrite (Hout k Hm).
    apply dict_update_get.
    apply (own_items_NoDup inds x y landfall_dists depth zeta_max
             landfall_coord).
  - intros H. apply Hnd. apply dict_update_NoDup. exact H.
Qed.

(** X13: in the record a storm returns, the keys ["x"], ["y"],
    ["landfall_dist"], ["depth"], ["maxele"], ["inds"] and every mesh
    variable hold a well-formed one-dimensional array with one row per
    selected index; ["landfall_location"] holds a single row of two,
    unless a mesh variable has that name; the other keys hold what the
    statistics put there; and no key is there twice. *)
Theorem X13_record_has_one_row_per_index (res : record)
    (x y landfall_dists depth zeta_max : list Z) (landfall_coord : Z * Z)
    (inds : list nat) (local_mesh_vars : dict (list Z)) (r : record)
    (Hfin : finish_record res x y landfall_dists depth zeta_max
              landfall_coord inds local_mesh_vars = Ok r) :
  (forall k,
      In k ["x"; "y"; "landfall_dist"; "depth"; "maxele"; "inds"]%string
      \/ In k (dict_keys local_mesh_vars) ->
      exists a, dict_get k r = Some (VArr a)
                /\ shape a = [length inds] /\ wf a = true)
  /\ (~ In "landfall_location"%string (dict_keys local_mesh_vars) ->
      dict_get "landfall_location" r
      = Some (VArr {| shape := [1; 2];
                      flat := [fst landfall_coord; snd landfall_coord] |}))
  /\ (forall k,
         ~ In k ["x"; "y"; "landfall_dist"; "depth"; "landfall_location";
                 "maxele"; "inds"]%string ->
         ~ In k (dict_keys local_mesh_vars) ->
         dict_get k r = dict_get k res)
  /\ (NoDup (dict_keys res) -> NoDup (dict_keys r)).
Proof.
  destruct (finish_record_lookup _ _ _ _ _ _ _ _ _ _ Hfin)
    as [Hin [Hown Hnd]].
  split; [|split; [|split]].
  - intros k Hk.
    destruct (in_dec string_dec k (dict_keys local_mesh_vars)) as [Hm|Hm].
    + destruct (Hin k Hm) as [arr [_ Hg]]. eexists. split; [exact Hg|].
      apply taken_shape.
    + destruct Hk as [Hk|Hk]; [|contradiction].
      rewrite (Hown k Hm). simpl in Hk.
      destruct Hk as [<-|[<-|[<-|[<-|[<-|[<-|[]]]]]]]; simpl;
        eexists; (split; [reflexivity|]);
        (split; [reflexivity|]); unfold wf; simpl;
        rewrite length_map, Nat.mul_1_r; apply Nat.eqb_refl.
  - intros Hm. rewrite (Hown _ Hm). reflexivity.
  - intros k Hk Hm. rewrite (Hown k Hm).
    match goal with
    | |- match ?g with _ => _ end = _ =>
        assert (E : g = None) by (apply dict_get_None; exact Hk); rewrite E
    end.
    reflexivity.
  - exact Hnd.
Qed.

Lemma X13_record_has_one_row_per_index_witness :
  exists r,
    finish_record [] (x MoreExamples.nodes8) (y MoreExamples.nodes8)
      (landfall_dists MoreExamples.nodes8) (depth MoreExamples.nodes8)
      MoreExamples.zeta8 (29, -90)%Z [1; 4; 6]
      MoreExamples.shared8 = Ok r
    /\ exists a, dict_get "depth_mean" r = Some (VArr a)
                 /\ shape a = [3] /\ wf a = true.
Proof.
  eexists. split; [reflexivity|].
  apply (proj1 (X13_record_has_one_row_per_index []
                  (x MoreExamples.nodes8) (y MoreExamples.nodes8)
                  (landfall_dists MoreExamples.nodes8)
                  (depth MoreExamples.nodes8) MoreExamples.zeta8
                  (29, -90)%Z [1; 4; 6] MoreExamples.shared8 _ eq_refl)).
  right. right. left. reflexivity.
Defined.




Lemma extract_inv (fs : filesystem) (shared : dict (list Z))
    (dirname : string) (s : storm_inputs) (factor : Z) (r : record) :
  _extract_storm_data fs shared dirname s factor = Ok (Some r) ->
  exists coord own nd coastal mask inds res maxele,
    landfall s = Ok (Some coord)
    /\ _get_mesh_vars fs dirname = Ok own
    /\ nodes s = Ok nd
    /\ dict_get "coastal_dist" (merge_mesh_vars own shared) = Some coastal
    /\ node_mask s coastal = Ok mask
    /\ select_inds mask factor = Ok inds
    /\ inds <> []
    /\ forcing_stats s inds = Ok res
    /\ zeta_max s = Ok maxele
    /\ finish_record res (x nd) (y nd) (landfall_dists nd) (depth nd)
         maxele coord inds (merge_mesh_vars own shared)
       = Ok r.
Proof.
  unfold _extract_storm_data.
  destruct (landfall s) as [[coord|]|e] eqn:El; cbn [bind];
    [|discriminate|discriminate].
  destruct (_get_mesh_vars fs dirname) as [own|e] eqn:Eo; cbn [bind];
    [|discriminate].
  destruct (time_inds s) as [[|t0 ts]|e] eqn:Et; cbn [bind];
    [discriminate| |discriminate].
  destruct (nodes s) as [nd|e] eqn:En; cbn [bind]; [|discriminate].
  destruct (dict_get "coastal_dist" (merge_mesh_vars own shared))
    as [coastal|] eqn:Ec; [|discriminate].
  destruct (node_mask s coastal) as [mask|e] eqn:Em; cbn [bind];
    [|discriminate].
  destruct (select_inds mask factor) as [inds|e] eqn:Es;
    cbn [bind]; [|discriminate].
  destruct inds as [|i0 inds]; [discriminate|].
  destruct (forcing_stats s (i0 :: inds)) as [res|e] eqn:Ef; cbn [bind];
    [|discriminate].
  destruct (zeta_max s) as [maxele|e] eqn:Ez; cbn [bind]; [|discriminate].
  destruct (finish_record _ _ _ _ _ _ _ _ _) as [r'|e] eqn:Efin; cbn [bind];
    [|discriminate].
  intros [= <-]. exists coord, own, nd, coastal, mask, (i0 :: inds), res, maxele.
  repeat (split; [first [reflexivity | eassumption | discriminate]|]).
  exact Efin.
Qed.

(** X15: a record that [_extract_storm_data] returns always has at least
    one selected index, and holds them under ["inds"]; so for every such
    record the storm tag of [create] succeeds, and gives the unit a storm
    array of at least one row, as long as ["inds"]. *)
Theorem X15_returned_record_can_be_tagged (fs : filesystem)
    (shared : dict (list Z)) (dirname : string) (s : storm_inputs)
    (downsample_factor : Z) (r : record)
    (Hext : _extract_storm_data fs shared dirname s downsample_factor
            = Ok (Some r)) :
  exists (inds : list nat) (a : ndarray),
    1 <= length inds
    /\ dict_get "inds" r = Some (VArr a)
    /\ shape a = [length inds]
    /\ forall i,
         tag_storm i r
         = Ok (dict_set "storm" (VArr (full (length inds) (Z.of_nat i))) r).
Proof.
  destruct (extract_inv _ _ _ _ _ _ Hext)
    as [coord [own [nd [coastal [mask [inds [res [maxele
         [_ [_ [_ [_ [_ [_ [Hne [_ [_ Hfin]]]]]]]]]]]]]]]]].
  destruct (finish_record_lookup _ _ _ _ _ _ _ _ _ _ Hfin) as [Hin [Hown _]].
  assert (Ha : exists a, dict_get "inds" r = Some (VArr a)
                         /\ shape a = [length inds]).
  { destruct (in_dec string_dec "inds"%string
                (dict_keys (merge_mesh_vars own shared))) as [Hm|Hm].
    - destruct (Hin _ Hm) as [arr [_ Hg]]. eexists. split; [exact Hg|].
      reflexivity.
    - rewrite (Hown _ Hm). eexists. split; reflexivity. }
  destruct Ha as [a [Hg Hs]].
  exists inds, a. split; [destruct inds; [contradiction | simpl; lia]|].
  split; [exact Hg|]. split; [exact Hs|].
  intros i. unfold tag_storm, len. rewrite Hg, Hs. reflexivity.
Qed.

Lemma X15_returned_record_can_be_tagged_witness :
  exists r,
    _extract_storm_data MoreExamples.fs_empty MoreExamples.shared8
      "data/storms/s001" MoreExamples.storm8 (-2) = Ok (Some r)
    /\ exists (inds : list nat) (a : ndarray),
         1 <= length inds /\ dict_get "inds" r = Some (VArr a).
Proof.
  eexists. split; [reflexivity|].
  destruct (X15_returned_record_can_be_tagged MoreExamples.fs_empty
              MoreExamples.shared8 "data/storms/s001" MoreExamples.storm8
              (-2) _ eq_refl) as [inds [a [H1 [H2 _]]]].
  exists inds, a. split; [exact H1 | exact H2].
Defined.




(* ================================================================== *)
(** * The job as a whole *)
(* ================================================================== *)

Lemma unit_rank (n size i : nat) :
  1 <= size -> i < n ->
  i mod size < size /\ In i (range (i mod size) n size).
Proof.
  intros Hs Hi. split; [apply Nat.mod_upper_bound; lia|].
  apply (in_range size Hs). split; [exact Hi|].
  exists (i / size). rewrite (Nat.div_mod_eq i size) at 1. lia.
Qed.

Lemma Forall2_seq_nth {B} (P : nat -> B -> Prop) (n : nat) :
  forall start l,
    Forall2 P (seq start n) l ->
    forall r, r < n -> exists y, nth_error l r = Some y /\ P (start + r) y.
Proof.
  induction n as [|n IH]; intros start l H r Hr; [lia|].
  simpl in H. inversion H as [|x y xs ys Hxy Hrest]; subst.
  destruct r as [|r].
  - exists y. rewrite Nat.add_0_r. split; [reflexivity | exact Hxy].
  - destruct (IH _ _ Hrest r ltac:(lia)) as [y' [Hn Hp]].
    exists y'. split; [exact Hn|].
    replace (start + S r) with (S start + r) by lia. exact Hp.
Qed.

Lemma map_phase_unit (extract : string -> option record) (dirs : list string)
    (size : nat) (locals : list local_data) (i : nat) (info : record) :
  1 <= size -> i < length dirs ->
  map_phase extract dirs size = Ok locals ->
  extract (nth i dirs ""%string) = Some info ->
  exists r, tag_storm i info = Ok r.
Proof.
  intros Hs Hi Hmap Hex.
  destruct (unit_rank (length dirs) size i Hs Hi) as [Hr Hin].
  pose proof (map_phase_ranks _ _ _ _ Hmap) as HF.
  destruct (Forall2_seq_nth _ _ _ _ HF _ Hr) as [ld [_ Hw]].
  simpl in Hw. destruct (worker_local_inv _ _ _ _ _ Hw) as [out Hrun].
  destruct (run_units_inv _ _ _ _ _ Hrun) as [arrs [Hloop _]].
  exact (map_loop_tagged _ _ _ _ _ _ _ _ Hloop Hin Hex).
Qed.

(** X17: every record the extractor returns must hold ["inds"] as an array
    of at least one dimension: if some unit of the run returns a record
    without ["inds"], with a scalar there, or with a 0-d array, the rank
    that visits the unit raises in
    [info["storm"] = np.full(len(info["inds"]), i)] and the job is aborted
    before any gather, whatever the other units return. *)
Theorem X17_record_without_inds_aborts_the_job
    (extract : string -> option record) (dirs : list string) (size i : nat)
    (info : record)
    (Hsize : 1 <= size) (Hi : i < length dirs)
    (Hinfo : extract (nth i dirs ""%string) = Some info)
    (Hbad : match dict_get "inds" info with
            | Some (VArr a) => shape a = []
            | Some (VScal _) => True
            | None => True
            end) :
  (exists e, forall j, tag_storm j info = Raise e)
  /\ exists e, create_data extract dirs size = Aborted e.
Proof.
  assert (Htag : exists e, forall j, tag_storm j info = Raise e).
  { unfold tag_storm, len.
    destruct (dict_get "inds" info) as [[a|x]|];
      [rewrite Hbad| |]; eexists; intros j; reflexivity. }
  split; [exact Htag|].
  destruct Htag as [e0 Htag]. unfold create_data.
  destruct (map_phase extract dirs size) as [locals|e] eqn:Hmap.
  - destruct (map_phase_unit _ _ _ _ _ _ Hsize Hi Hmap Hinfo) as [r Hr].
    rewrite Htag in Hr. discriminate.
  - exists e. reflexivity.
Qed.

Lemma X17_record_without_inds_aborts_the_job_witness :
  exists e,
    create_data
      (fun d => if String.eqb d "b" then Some [("maxele", VArr (full 2 5))]
                else Some [("inds", VArr (full 1 0)); ("maxele", VArr (full 1 7))])
      ["a"; "b"; "c"] 2 = Aborted e.
Proof.
  apply (X17_record_without_inds_aborts_the_job _ ["a"; "b"; "c"] 2 1
           [("maxele", VArr (full 2 5))]); simpl; try lia; reflexivity.
Defined.

Section Failures.

Variable extract : string -> option record.
Variable dirs : list string.

Local Abbreviation filled arrs :=
  (Forall (fun kv : string * list value => snd kv <> []) arrs).

Lemma dict_set_Forall {V} (P : string * V -> Prop) (k : string) (v : V)
    (d : dict V) :
  Forall P d -> P (k, v) -> Forall P (dict_set k v d).
Proof.
  intros Hd Hp. induction d as [|[k' v'] t IH]; simpl.
  - constructor; [exact Hp | constructor].
  - inversion Hd; subst. destruct (String.eqb k' k).
    + constructor; assumption.
    + constructor; [assumption | apply IH; assumption].
Qed.

Lemma append_item_filled (arrs : accum) (kv : string * value) :
  filled arrs -> filled (append_item arrs kv).
Proof.
  intros H. unfold append_item.
  destruct (dict_get (fst kv) arrs) as [l|];
    apply dict_set_Forall; try exact H; simpl.
  - destruct l; discriminate.
  - discriminate.
Qed.

Lemma fold_append_filled (items : record) :
  forall arrs, filled arrs -> filled (fold_left append_item items arrs).
Proof.
  induction items as [|kv t IH]; intros arrs H; simpl; [exact H|].
  apply IH, append_item_filled, H.
Qed.

Lemma map_loop_filled (idxs : list nat) :
  forall arrs out arrs' out',
    filled arrs ->
    map_loop extract dirs idxs arrs out = Ok (arrs', out') ->
    filled arrs'.
Proof.
  induction idxs as [|i rest IH]; intros arrs out arrs' out' Hf H;
    cbn [map_loop] in H.
  - injection H as <- _. exact Hf.
  - destruct (extract (nth i dirs ""%string)) as [info|].
    + destruct (tag_storm i info) as [info'|e]; cbn [bind] in H;
        [|discriminate].
      apply (IH _ _ _ _ (fold_append_filled _ _ Hf) H).
    + apply (IH _ _ _ _ Hf H).
Qed.

Lemma tag_storm_error (i : nat) (info : record) (e : exn) :
  tag_storm i info = Raise e -> e = KeyError "inds" \/ e = TypeError.
Proof.
  unfold tag_storm, len.
  destruct (dict_get "inds" info) as [[a|x]|];
    [destruct (shape a)| |]; cbn [bind]; intros [= <-]; auto.
Qed.

Lemma map_loop_error (idxs : list nat) :
  forall arrs out e,
    map_loop extract dirs idxs arrs out = Raise e ->
    e = KeyError "inds" \/ e = TypeError.
Proof.
  induction idxs as [|i rest IH]; intros arrs out e H; cbn [map_loop] in H;
    [discriminate|].
  destruct (extract (nth i dirs ""%string)) as [info|]; [|exact (IH _ _ _ H)].
  destruct (tag_storm i info) as [info'|e'] eqn:Et; cbn [bind] in H.
  - exact (IH _ _ _ H).
  - injection H as <-. exact (tag_storm_error _ _ _ Et).
Qed.

Lemma concat_along_error (trail : list nat) (vs : list value) (e : exn) :
  concat_along trail vs = Raise e -> e = ValueError.
Proof.
  induction vs as [|[a|x] t IH]; simpl; [discriminate| |congruence].
  destruct (shape a) as [|n tr]; [congruence|].
  destruct (shape_eqb tr trail); [|congruence].
  destruct (concat_along trail t); cbn [bind]; [discriminate|].
  intros [= <-]. apply IH. reflexivity.
Qed.

Lemma scalars_error (vs : list value) (e : exn) :
  scalars vs = Raise e -> e = ValueError.
Proof.
  induction vs as [|[a|x] t IH]; simpl; [discriminate| |].
  - destruct (shape a); [|congruence].
    destruct (flat a) as [|y [|z l]]; try congruence.
    destruct (scalars t); cbn [bind]; [discriminate|].
    intros [= <-]. apply IH. reflexivity.
  - destruct (scalars t); cbn [bind]; [discriminate|].
    intros [= <-]. apply IH. reflexivity.
Qed.

Lemma consolidate_key_error (v : list value) (e : exn) :
  v <> [] -> consolidate_key v = Raise e -> e = ValueError.
Proof.
  intros Hv. destruct v as [|[a|x] t]; [congruence| |]; clear Hv.
  - unfold consolidate_key, concatenate.
    destruct (shape a) as [|n tr] eqn:Es; [congruence|].
    destruct (concat_along tr (VArr a :: t)) eqn:Ec; cbn [bind];
      [discriminate|].
    intros [= <-]. exact (concat_along_error _ _ _ Ec).
  - unfold consolidate_key, array.
    destruct (scalars (VScal x :: t)) eqn:Ec; cbn [bind]; [discriminate|].
    intros [= <-]. exact (scalars_error _ _ Ec).
Qed.

Lemma consolidate_error (arrs : accum) :
  forall local e,
    filled arrs -> consolidate arrs local = Raise e -> e = ValueError.
Proof.
  induction arrs as [|[k v] t IH]; intros local e Hf H; [discriminate|].
  inversion Hf as [|x l Hv Ht]; subst. cbn [consolidate] in H.
  destruct (consolidate_key v) as [a|e'] eqn:Ek; cbn [bind] in H.
  - exact (IH _ _ Ht H).
  - injection H as <-. exact (consolidate_key_error _ _ Hv Ek).
Qed.

Lemma run_units_error (idxs : list nat) (e : exn) :
  run_units extract dirs idxs = Raise e ->
  e = KeyError "inds" \/ e = TypeError \/ e = ValueError.
Proof.
  unfold run_units.
  destruct (map_loop extract dirs idxs [] []) as [[arrs out]|e'] eqn:El;
    cbn [bind fst snd].
  - destruct (consolidate arrs []) as [ld|e'] eqn:Ec; cbn [bind];
      [discriminate|].
    intros [= <-]. right. right.
    apply (consolidate_error _ _ _ (map_loop_filled _ _ _ _ _ (Forall_nil _) El) Ec).
  - intros [= <-]. destruct (map_loop_error _ _ _ _ El); auto.
Qed.

Lemma mapM_error {A B} (f : A -> result B) (l : list A) (e : exn) :
  mapM f l = Raise e -> exists x, In x l /\ f x = Raise e.
Proof.
  induction l as [|x t IH]; simpl; [discriminate|].
  destruct (f x) as [y|e'] eqn:Ef; cbn [bind].
  - destruct (mapM f t) as [ys|e'] eqn:Em; cbn [bind]; [discriminate|].
    intros [= <-]. destruct (IH eq_refl) as [x' [Hin Hx]]. eauto.
  - intros [= <-]. eauto.
Qed.

End Failures.

Local Abbreviation dimensioned a := (exists n tr, shape a = n :: tr).

Lemma mapM_len_ok (locals : list ndarray) :
  (forall a, In a locals -> dimensioned a) ->
  mapM len locals = Ok (map rows locals).
Proof.
  induction locals as [|a t IH]; intros H; [reflexivity|].
  cbn [mapM map]. destruct (H a (or_introl eq_refl)) as [n [tr Hs]].
  unfold len at 1, rows at 1. rewrite Hs. cbn [bind hd].
  rewrite IH; [reflexivity|]. intros b Hb. apply H. right. exact Hb.
Qed.

Lemma gather_round_error (root_local : ndarray) (rest : list ndarray)
    (e : exn) :
  (forall a, In a (root_local :: rest) -> dimensioned a) ->
  gather_round (root_local :: rest) = Raise e ->
  e = MPIError \/ e = ValueError.
Proof.
  intros Hd. rewrite gather_round_unfold, (mapM_len_ok _ Hd). cbn [bind].
  unfold Gatherv. destruct (list_eq_dec _ _ _); cbn [bind].
  - unfold reshape. destruct (_ =? _); [discriminate|].
    intros [= <-]. right. reflexivity.
  - intros [= <-]. left. reflexivity.
Qed.

Lemma heads_In {X} (queues : list (list X)) (hs : list X)
    (rest : list (list X)) :
  heads queues = Some (hs, rest) ->
  (forall h, In h hs -> exists q, In q queues /\ In h q)
  /\ (forall q' x, In q' rest -> In x q' -> exists q, In q queues /\ In x q).
Proof.
  intros H. destruct (heads_inv _ _ _ H) as [-> ->]. split.
  - intros h Hh. apply in_flat_map in Hh. destruct Hh as [q [Hq Hh]].
    exists q. split; [exact Hq|]. destruct q; simpl in Hh; [contradiction|].
    destruct Hh as [<-|[]]. left. reflexivity.
  - intros q' x Hq' Hx. apply in_map_iff in Hq'.
    destruct Hq' as [q [<- Hq]]. exists q. split; [exact Hq|].
    destruct q; simpl in Hx; [contradiction|]. right. exact Hx.
Qed.

Lemma gather_loop_error (root_pending : list (string * ndarray)) :
  forall others data e,
    (forall kv, In kv root_pending -> dimensioned (snd kv)) ->
    (forall q kv, In q others -> In kv q -> dimensioned (snd kv)) ->
    gather_loop root_pending others data = Aborted e ->
    e = MPIError \/ e = ValueError.
Proof.
  induction root_pending as [|[k a] t IH]; intros others data e Hr Ho H;
    cbn [gather_loop] in H; [discriminate|].
  destruct (heads others) as [[hs rest]|] eqn:Eh; [|discriminate].
  destruct (heads_In _ _ _ Eh) as [Hhs Hrest].
  destruct (gather_round (a :: map snd hs)) as [g|e'] eqn:Eg.
  - apply (IH _ _ _ (fun kv Hkv => Hr kv (or_intror Hkv))) in H;
      [exact H|].
    intros q' kv Hq' Hkv. destruct (Hrest _ _ Hq' Hkv) as [q [Hq Hx]].
    exact (Ho _ _ Hq Hx).
  - injection H as <-. apply (gather_round_error _ _ _) in Eg; [exact Eg|].
    intros b [<-|Hb].
    + exact (Hr (k, a) (or_introl eq_refl)).
    + apply in_map_iff in Hb. destruct Hb as [kv [<- Hkv]].
      destruct (Hhs _ Hkv) as [q [Hq Hx]]. exact (Ho _ _ Hq Hx).
Qed.

Lemma pending_In (ld : local_data) (kv : string * ndarray) :
  In kv (pending ld) -> dict_get (fst kv) ld = Some (snd kv).
Proof.
  unfold pending. intros H. apply in_flat_map in H.
  destruct H as [k [_ Hk]].
  destruct (dict_get k ld) as [a|] eqn:Eg; [|contradiction].
  destruct Hk as [<-|[]]. exact Eg.
Qed.

Lemma gather_phase_error (locals : list local_data) (e : exn) :
  (forall ld k a, In ld locals -> dict_get k ld = Some a -> dimensioned a) ->
  gather_phase locals = Aborted e ->
  e = MPIError \/ e = ValueError.
Proof.
  intros Hd. destruct locals as [|root_local others]; [discriminate|].
  cbn [gather_phase]. apply gather_loop_error.
  - intros kv Hkv. exact (Hd _ _ _ (or_introl eq_refl) (pending_In _ _ Hkv)).
  - intros q kv Hq Hkv. apply in_map_iff in Hq. destruct Hq as [ld [<- Hld]].
    exact (Hd _ _ _ (or_intror Hld) (pending_In _ _ Hkv)).
Qed.

Lemma Forall2_In_r {A B} (P : A -> B -> Prop) (l : list A) (l' : list B) :
  Forall2 P l l' -> forall y, In y l' -> exists x, In x l /\ P x y.
Proof.
  induction 1 as [|x y l l' Hxy _ IH]; intros z Hz; [contradiction|].
  destruct Hz as [<-|Hz]; [exists x; split; [left; reflexivity | exact Hxy]|].
  destruct (IH _ Hz) as [x' [Hx' Hp]]. exists x'. split; [right|]; assumption.
Qed.

Lemma map_phase_dimensioned (extract : string -> option record)
    (dirs : list string) (size : nat) (locals : list local_data)
    (ld : local_data) (k : string) (a : ndarray) :
  map_phase extract dirs size = Ok locals ->
  In ld locals -> dict_get k ld = Some a ->
  exists n tr, shape a = n :: tr.
Proof.
  intros Hmap Hld Hg.
  destruct (Forall2_In_r _ _ _ (map_phase_ranks _ _ _ _ Hmap) _ Hld)
    as [rank [_ Hw]].
  destruct (worker_local_inv _ _ _ _ _ Hw) as [out Hrun].
  destruct (run_units_layout _ _ _ _ _ _ _ Hrun Hg) as [_ [tr Hs]].
  eauto.
Qed.

Lemma mapM_ext_in {A B} (f g : A -> result B) (l : list A) :
  (forall x, In x l -> f x = g x) -> mapM f l = mapM g l.
Proof.
  induction l as [|x t IH]; intros H; [reflexivity|].
  cbn [mapM]. rewrite (H x (or_introl eq_refl)), IH; [reflexivity|].
  intros y Hy. apply H. right. exact Hy.
Qed.

Section UnguardedFacts.

Variable extract : string -> result (option record).
Variable dirs : list string.

Lemma unguarded_map_loop_ok (idxs : list nat) :
  forall arrs out st,
    Unguarded.map_loop extract dirs idxs arrs out = Ok st ->
    map_loop (Unguarded.returned extract) dirs idxs arrs out = Ok st.
Proof.
  induction idxs as [|i rest IH]; intros arrs out st H;
    cbn [Unguarded.map_loop map_loop] in *; [exact H|].
  unfold Unguarded.returned at 1.
  destruct (extract (nth i dirs ""%string)) as [[info|]|e]; cbn [bind] in H;
    [|exact (IH _ _ _ H)|discriminate].
  destruct (tag_storm i info) as [info'|e]; cbn [bind] in *;
    [exact (IH _ _ _ H) | discriminate].
Qed.

Lemma unguarded_map_loop_error (idxs : list nat) :
  forall arrs out e,
    Unguarded.map_loop extract dirs idxs arrs out = Raise e ->
    (exists i, In i idxs /\ extract (nth i dirs ""%string) = Raise e)
    \/ e = KeyError "inds" \/ e = TypeError.
Proof.
  induction idxs as [|i rest IH]; intros arrs out e H;
    cbn [Unguarded.map_loop] in H; [discriminate|].
  assert (Hrest : forall arrs' out',
             Unguarded.map_loop extract dirs rest arrs' out' = Raise e ->
             (exists j, In j (i :: rest)
                        /\ extract (nth j dirs ""%string) = Raise e)
             \/ e = KeyError "inds" \/ e = TypeError).
  { intros arrs' out' H'. destruct (IH _ _ _ H') as [[j [Hj Ej]]|H''];
      [left; exists j; split; [right; exact Hj | exact Ej] | right; exact H'']. }
  destruct (extract (nth i dirs ""%string)) as [[info|]|e0] eqn:Ex;
    cbn [bind] in H.
  - destruct (tag_storm i info) as [info'|e0] eqn:Et; cbn [bind] in H;
      [exact (Hrest _ _ H)|].
    injection H as <-. right. exact (tag_storm_error _ _ _ Et).
  - exact (Hrest _ _ H).
  - injection H as <-. left. exists i. split; [left; reflexivity | exact Ex].
Qed.

Lemma unguarded_map_loop_returns (idxs : list nat) :
  (forall i, In i idxs ->
             exists info, extract (nth i dirs ""%string) = Ok info) ->
  forall arrs out,
    Unguarded.map_loop extract dirs idxs arrs out
    = map_loop (Unguarded.returned extract) dirs idxs arrs out.
Proof.
  induction idxs as [|i rest IH]; intros Hall arrs out; [reflexivity|].
  cbn [Unguarded.map_loop map_loop]. unfold Unguarded.returned at 1.
  destruct (Hall i (or_introl eq_refl)) as [info Ex]. rewrite Ex.
  cbn [bind].
  assert (Hrest : forall j, In j rest ->
                            exists info', extract (nth j dirs ""%string)
                                          = Ok info')
    by (intros j Hj; apply Hall; right; exact Hj).
  destruct info as [info|]; [|apply IH; exact Hrest].
  destruct (tag_storm i info); cbn [bind]; [apply IH; exact Hrest|].
  reflexivity.
Qed.

Lemma unguarded_run_units_ok (idxs : list nat)
    (res : local_data * list string) :
  Unguarded.run_units extract dirs idxs = Ok res ->
  run_units (Unguarded.returned extract) dirs idxs = Ok res.
Proof.
  unfold Unguarded.run_units, run_units.
  destruct (Unguarded.map_loop extract dirs idxs [] []) as [st|e] eqn:El;
    cbn [bind]; [|discriminate].
  rewrite (unguarded_map_loop_ok _ _ _ _ El). cbn [bind]. tauto.
Qed.

Lemma unguarded_run_units_error (idxs : list nat) (e : exn) :
  Unguarded.run_units extract dirs idxs = Raise e ->
  (exists i, In i idxs /\ extract (nth i dirs ""%string) = Raise e)
  \/ e = KeyError "inds" \/ e = TypeError \/ e = ValueError.
Proof.
  unfold Unguarded.run_units.
  destruct (Unguarded.map_loop extract dirs idxs [] []) as [[arrs out]|e']
    eqn:El; cbn [bind fst snd].
  - destruct (consolidate arrs []) as [ld|e'] eqn:Ec; cbn [bind];
      [discriminate|].
    intros [= <-]. right. right. right.
    apply unguarded_map_loop_ok in El.
    apply (consolidate_error _ _ _
             (map_loop_filled _ _ _ _ _ _ _ (Forall_nil _) El) Ec).
  - intros [= <-].
    destruct (unguarded_map_loop_error _ _ _ _ El) as [H|[H|H]]; auto.
Qed.

End UnguardedFacts.

(** X18: line 232 calls the extractor without a guard, so an exception of
    the call ends the run.  A run that is aborted ends with the error of
    an extractor call on one of its units, or with one of four errors of
    [create] itself: before the gather a rank raises only in
    [info["storm"] = np.full(len(info["inds"]), i)] (no ["inds"]:
    [KeyError]; ["inds"] without a length: [TypeError]) or in
    [np.concatenate] / [np.array] ([ValueError]), and in the gather what
    is left is a [Gatherv] whose counts do not fit and the final
    [reshape]; [v[0]] and [len(local_data[k])] never fail.  When every
    extractor call returns, the run is the run of [create] over what the
    calls return. *)
Theorem X18_job_failures (extract : string -> result (option record))
    (dirs : list string) (size : nat) :
  (forall e,
      Unguarded.create_data extract dirs size = Aborted e ->
      (exists i, i < length dirs
                 /\ extract (nth i dirs ""%string) = Raise e)
      \/ e = KeyError "inds" \/ e = TypeError \/ e = ValueError
      \/ e = MPIError)
  /\ ((forall i, i < length dirs ->
                 exists info, extract (nth i dirs ""%string) = Ok info) ->
      Unguarded.create_data extract dirs size
      = create_data (Unguarded.returned extract) dirs size)
  /\ (forall locals ld k a,
         Unguarded.map_phase extract dirs size = Ok locals ->
         In ld locals -> dict_get k ld = Some a ->
         exists n tr, shape a = n :: tr /\ len a = Ok n).
Proof.
  assert (Hok : forall locals,
             Unguarded.map_phase extract dirs size = Ok locals ->
             map_phase (Unguarded.returned extract) dirs size = Ok locals).
  { intros locals H. unfold Unguarded.map_phase, map_phase in *.
    apply mapM_Forall2 in H. apply mapM_Forall2.
    induction H as [|rank ld ranks lds Hw _ IH]; constructor; [|exact IH].
    unfold Unguarded.worker_local, Unguarded.worker in Hw.
    unfold worker_local, worker.
    destruct (Unguarded.run_units extract dirs
                (range rank (length dirs) size)) as [st|e] eqn:Er;
      cbn [bind] in Hw; [|discriminate].
    rewrite (unguarded_run_units_ok _ _ _ _ Er). exact Hw. }
  split; [|split].
  - intros e. unfold Unguarded.create_data.
    destruct (Unguarded.map_phase extract dirs size) as [locals|e'] eqn:Hmap.
    + intros Hg. apply gather_phase_error in Hg; [tauto|].
      intros ld k a. apply (map_phase_dimensioned _ _ _ _ _ _ _ (Hok _ eq_refl)).
    + intros [= <-]. unfold Unguarded.map_phase in Hmap.
      destruct (mapM_error _ _ _ Hmap) as [rank [Hrank Hw]].
      assert (Hsize : 1 <= size) by (apply in_seq in Hrank; lia).
      unfold Unguarded.worker_local, Unguarded.worker in Hw.
      destruct (Unguarded.run_units extract dirs
                  (range rank (length dirs) size)) as [st|e''] eqn:Er;
        cbn [bind] in Hw; [discriminate|].
      injection Hw as <-.
      destruct (unguarded_run_units_error _ _ _ _ Er)
        as [[i [Hi Ei]]|[H|[H|H]]]; auto.
      left. exists i. split; [|exact Ei].
      apply (in_range size Hsize) in Hi. tauto.
  - intros Hall. unfold Unguarded.create_data, create_data.
    assert (E : Unguarded.map_phase extract dirs size
                = map_phase (Unguarded.returned extract) dirs size).
    { unfold Unguarded.map_phase, map_phase. apply mapM_ext_in.
      intros rank Hrank.
      assert (Hsize : 1 <= size) by (apply in_seq in Hrank; lia).
      unfold Unguarded.worker_local, Unguarded.worker, Unguarded.run_units,
        worker_local, worker, run_units.
      rewrite unguarded_map_loop_returns; [reflexivity|].
      intros i Hi. apply Hall. apply (in_range size Hsize) in Hi. tauto. }
    rewrite E. reflexivity.
  - intros locals ld k a Hmap Hld Hg.
    destruct (map_phase_dimensioned _ _ _ _ _ _ _ (Hok _ Hmap) Hld Hg)
      as [n [tr Hs]].
    exists n, tr. split; [exact Hs|]. unfold len. rewrite Hs. reflexivity.
Qed.

Lemma X18_job_failures_witness :
  exists e,
    Unguarded.create_data
      (fun d : string =>
         if String.eqb d "a"
         then Ok (Some [("inds", VArr (Examples.arr1 [3]%Z))])
         else Raise IndexError)
      ["a"; "b"]%string 2 = Aborted e
    /\ ((exists i, i < 2 /\ (if String.eqb (nth i ["a"; "b"]%string "") "a"
                              then Ok (Some [("inds", VArr (Examples.arr1 [3]%Z))])
                              else Raise IndexError) = Raise e)
        \/ e = KeyError "inds" \/ e = TypeError \/ e = ValueError
        \/ e = MPIError).
Proof.
  eexists. split; [reflexivity|].
  apply (proj1 (X18_job_failures
    (fun d : string =>
       if String.eqb d "a"
       then Ok (Some [("inds", VArr (Examples.arr1 [3]%Z))])
       else Raise IndexError)
    ["a"; "b"]%string 2)).
  reflexivity.
Defined.

Section WellFormed.

Variable extract : string -> option record.
Variable dirs : list string.

Local Abbreviation sound v :=
  (match v with VArr a => wf a = true | VScal _ => True end).

Hypothesis extract_sound :
  forall d info k a,
    extract d = Some info -> In (k, VArr a) info -> wf a = true.

Lemma full_wf (n : nat) (x : Z) : wf (full n x) = true.
Proof.
  unfold wf, full. simpl. rewrite repeat_length. apply Nat.eqb_eq. lia.
Qed.

Lemma tagged_sound (i : nat) (r : record) :
  tagged extract dirs i = Some r ->
  Forall (fun kv : string * value => sound (snd kv)) r.
Proof.
  intros H. apply tagged_inv in H. destruct H as [info [Hex Htag]].
  destruct (tag_storm_inv _ _ _ Htag) as [inds [n [_ [_ ->]]]].
  apply dict_set_Forall; [|apply full_wf].
  apply Forall_forall. intros [k [a|x]] Hin; simpl; [|exact I].
  exact (extract_sound _ _ _ _ Hex Hin).
Qed.

Local Abbreviation sound_lists arrs :=
  (Forall (fun kv : string * list value =>
             Forall (fun v => sound v) (snd kv)) arrs).

Lemma append_item_sound (arrs : accum) (kv : string * value) :
  sound_lists arrs -> sound (snd kv) -> sound_lists (append_item arrs kv).
Proof.
  intros H Hv. unfold append_item.
  destruct (dict_get (fst kv) arrs) as [l|] eqn:Eg;
    apply dict_set_Forall; try exact H; simpl.
  - apply Forall_app. split; [|constructor; [exact Hv | constructor]].
    apply dict_get_Some_In in Eg.
    exact (proj1 (Forall_forall _ _) H _ Eg).
  - constructor; [exact Hv | constructor].
Qed.

Lemma fold_append_sound (items : record) :
  forall arrs,
    sound_lists arrs ->
    Forall (fun kv : string * value => sound (snd kv)) items ->
    sound_lists (fold_left append_item items arrs).
Proof.
  induction items as [|kv t IH]; intros arrs H Hi; simpl; [exact H|].
  inversion Hi; subst. apply IH; [apply append_item_sound|]; assumption.
Qed.

Lemma map_loop_sound (idxs : list nat) :
  forall arrs out arrs' out',
    sound_lists arrs ->
    map_loop extract dirs idxs arrs out = Ok (arrs', out') ->
    sound_lists arrs'.
Proof.
  induction idxs as [|i rest IH]; intros arrs out arrs' out' Hs H;
    cbn [map_loop] in H.
  - injection H as <- _. exact Hs.
  - destruct (extract (nth i dirs ""%string)) as [info|] eqn:Ex.
    + destruct (tag_storm i info) as [info'|e] eqn:Et; cbn [bind] in H;
        [|discriminate].
      apply (IH _ _ _ _ (fold_append_sound _ _ Hs
                           (tagged_sound i info'
                              (proj2 (tagged_inv _ _ _ _)
                                 (ex_intro _ info (conj Ex Et))))) H).
    + apply (IH _ _ _ _ Hs H).
Qed.

End WellFormed.

Lemma concat_along_wf (trail : list nat) (vs : list value) :
  forall n fl,
    Forall (fun v => match v with VArr a => wf a = true | VScal _ => True end)
           vs ->
    concat_along trail vs = Ok (n, fl) ->
    length fl = n * size_of trail.
Proof.
  induction vs as [|[a|x] t IH]; intros n fl Hs H; simpl in H.
  - injection H as <- <-. reflexivity.
  - inversion Hs as [|v l Ha Ht]; subst.
    destruct (shape a) as [|m tr] eqn:Es; [discriminate|].
    unfold shape_eqb in H.
    destruct (list_eq_dec Nat.eq_dec tr trail) as [->|]; [|discriminate].
    destruct (concat_along trail t) as [[n' fl']|] eqn:Ec; cbn [bind] in H;
      [|discriminate].
    injection H as <- <-. simpl. rewrite length_app, (IH _ _ Ht eq_refl).
    unfold wf in Ha. apply Nat.eqb_eq in Ha. rewrite Ha, Es. simpl. lia.
  - discriminate.
Qed.

Lemma consolidate_key_wf (v : list value) (a : ndarray) :
  Forall (fun v => match v with VArr a => wf a = true | VScal _ => True end)
         v ->
  consolidate_key v = Ok a -> wf a = true.
Proof.
  intros Hs. destruct v as [|[a0|x] t]; [discriminate| |].
  - unfold consolidate_key, concatenate.
    destruct (shape a0) as [|m tr] eqn:Es; [discriminate|].
    destruct (concat_along tr (VArr a0 :: t)) as [[n fl]|] eqn:Ec;
      cbn [bind]; [|discriminate].
    intros [= <-]. unfold wf. simpl.
    rewrite (concat_along_wf _ _ _ _ Hs Ec). apply Nat.eqb_refl.
  - unfold consolidate_key, array.
    destruct (scalars (VScal x :: t)) as [xs|] eqn:Ec; cbn [bind];
      [|discriminate].
    intros [= <-]. unfold wf. simpl. apply Nat.eqb_eq. lia.
Qed.

Lemma consolidate_wf (arrs : accum) :
  forall local ld,
    Forall (fun kv : string * list value =>
              Forall (fun v => match v with
                               | VArr a => wf a = true
                               | VScal _ => True
                               end) (snd kv)) arrs ->
    Forall (fun kv : string * ndarray => wf (snd kv) = true) local ->
    consolidate arrs local = Ok ld ->
    Forall (fun kv : string * ndarray => wf (snd kv) = true) ld.
Proof.
  induction arrs as [|[k v] t IH]; intros local ld Ha Hl H;
    cbn [consolidate] in H.
  - injection H as <-. exact Hl.
  - inversion Ha as [|x l Hv Ht]; subst.
    destruct (consolidate_key v) as [a|] eqn:Ek; cbn [bind] in H;
      [|discriminate].
    apply (IH _ _ Ht) in H; [exact H|].
    apply dict_set_Forall; [exact Hl|]. exact (consolidate_key_wf _ _ Hv Ek).
Qed.

Lemma run_units_wf (extract : string -> option record) (dirs : list string)
    (idxs : list nat) (ld : local_data) (out : list string) (k : string)
    (a : ndarray) :
  (forall d info k a,
      extract d = Some info -> In (k, VArr a) info -> wf a = true) ->
  run_units extract dirs idxs = Ok (ld, out) ->
  dict_get k ld = Some a ->
  wf a = true /\ shape a = rows a :: tl (shape a).
Proof.
  intros Hex Hrun Hg.
  destruct (run_units_layout _ _ _ _ _ _ _ Hrun Hg) as [_ [tr Hs]].
  split; [|unfold rows; rewrite Hs; reflexivity].
  destruct (run_units_inv _ _ _ _ _ Hrun) as [arrs [Hloop Hcons]].
  pose proof (map_loop_sound extract dirs Hex _ _ _ _ _ (Forall_nil _) Hloop)
    as Hsound.
  pose proof (consolidate_wf _ _ _ Hsound (Forall_nil _) Hcons) as Hwf.
  apply dict_get_Some_In in Hg.
  exact (proj1 (Forall_forall _ _) Hwf _ Hg).
Qed.

Lemma dict_set_new {V} (d : dict V) (k : string) (v : V) :
  ~ In k (dict_keys d) -> dict_set k v d = d ++ [(k, v)].
Proof.
  induction d as [|[k' v'] t IH]; intros H; simpl; [reflexivity|].
  destruct (String.eqb_spec k' k) as [->|N].
  - exfalso. apply H. left. reflexivity.
  - rewrite IH; [reflexivity|]. intros Hin. apply H. right. exact Hin.
Qed.

Lemma gather_round_alone (a : ndarray) :
  wf a = true -> shape a = rows a :: tl (shape a) ->
  gather_round [a] = Ok a.
Proof.
  intros Hw Hs. rewrite gather_round_ready.
  - simpl. rewrite Nat.add_0_r, app_nil_r, <- Hs. destruct a. reflexivity.
  - intros b [<-|[]]. split; assumption.
Qed.

Lemma gather_loop_alone (root_pending : list (string * ndarray)) :
  forall data,
    NoDup (dict_keys (data ++ root_pending)) ->
    (forall kv, In kv root_pending ->
                wf (snd kv) = true
                /\ shape (snd kv) = rows (snd kv) :: tl (shape (snd kv))) ->
    gather_loop root_pending [] data = Finished (data ++ root_pending).
Proof.
  induction root_pending as [|[k a] t IH]; intros data Hnd Hr;
    cbn [gather_loop].
  - rewrite app_nil_r. reflexivity.
  - cbn [heads existsb flat_map map].
    destruct (Hr (k, a) (or_introl eq_refl)) as [Hw Hs].
    cbn [snd] in Hw, Hs. rewrite (gather_round_alone _ Hw Hs).
    assert (Hk : ~ In k (dict_keys data)).
    { unfold dict_keys in *. rewrite map_app in Hnd. simpl in Hnd.
      apply NoDup_remove_2 in Hnd. intros Hin. apply Hnd.
      apply in_or_app. left. exact Hin. }
    rewrite (dict_set_new _ _ _ Hk), IH.
    + rewrite <- app_assoc. reflexivity.
    + rewrite <- app_assoc. exact Hnd.
    + intros kv Hkv. apply Hr. right. exact Hkv.
Qed.

(** X19: a run on a single rank gathers nothing from anyone: when the
    arrays the extractor returns are well formed, every round hands the
    root its own local array back (also one with zero rows), and the
    dataset is the rank's local data, key by key in sorted key order. *)
Theorem X19_single_rank_keeps_its_local_data
    (extract : string -> option record) (dirs : list string)
    (ld : local_data)
    (Hwf : forall d info k a,
        extract d = Some info -> In (k, VArr a) info -> wf a = true)
    (Hlocal : worker_local extract dirs 0 1 = Ok ld) :
  create_data extract dirs 1 = Finished (pending ld)
  /\ dict_keys (pending ld) = sorted (dict_keys ld)
  /\ forall k, dict_get k (pending ld) = dict_get k ld.
Proof.
  split; [|split; [apply pending_keys | apply pending_get]].
  unfold create_data, map_phase. cbn [seq mapM]. rewrite Hlocal.
  cbn [bind gather_phase map].
  destruct (worker_local_inv _ _ _ _ _ Hlocal) as [out Hrun].
  apply (gather_loop_alone (pending ld) []).
  - simpl. rewrite pending_keys. apply sorted_NoDup.
    exact (run_units_NoDup _ _ _ _ _ Hrun).
  - intros [k a] Hkv. apply pending_In in Hkv.
    exact (run_units_wf _ _ _ _ _ _ _ Hwf Hrun Hkv).
Qed.

Lemma X19_single_rank_keeps_its_local_data_witness :
  create_data Examples.extract_landfall
    ["data/storms/s000"; "data/storms/s001"]%string 1
  = Finished Examples.data_landfall.
Proof.
  refine (proj1 (X19_single_rank_keeps_its_local_data
                   Examples.extract_landfall
                   ["data/storms/s000"; "data/storms/s001"]%string
                   [("maxele", Examples.arr1 [100; 101; 110; 111]%Z);
                    ("landfall_location",
                     {| shape := [2; 2]; flat := [29; -90; 30; -89]%Z |});
                    ("inds", Examples.arr1 [7; 8; 3; 4]%Z);
                    ("storm", Examples.arr1 [0; 0; 1; 1]%Z)]
                   _ eq_refl)).
  intros d info k a H Hin. unfold Examples.extract_landfall in H.
  destruct (String.eqb d "data/storms/s000");
    [|destruct (String.eqb d "data/storms/s001"); [|discriminate]];
    injection H as <-; simpl in Hin;
    repeat (destruct Hin as [[= <- <-]|Hin]; [reflexivity|]);
    contradiction.
Defined.

Lemma gather_loop_key_order (root_pending : list (string * ndarray)) :
  forall others data res,
    NoDup (dict_keys (data ++ root_pending)) ->
    gather_loop root_pending others data = Finished res ->
    dict_keys res = dict_keys (data ++ root_pending).
Proof.
  induction root_pending as [|[k a] t IH]; intros others data res Hnd H;
    cbn [gather_loop] in H.
  - injection H as <-. rewrite app_nil_r. reflexivity.
  - destruct (heads others) as [[hs rest]|]; [|discriminate].
    destruct (gather_round (a :: map snd hs)) as [g|]; [|discriminate].
    assert (Hk : ~ In k (dict_keys data)).
    { unfold dict_keys in *. rewrite map_app in Hnd. simpl in Hnd.
      apply NoDup_remove_2 in Hnd. intros Hin. apply Hnd.
      apply in_or_app. left. exact Hin. }
    rewrite (dict_set_new _ _ _ Hk) in H.
    assert (Hkeys : dict_keys ((data ++ [(k, g)]) ++ t)
                    = dict_keys (data ++ (k, a) :: t)).
    { unfold dict_keys. rewrite <- app_assoc, !map_app. reflexivity. }
    rewrite <- Hkeys. apply (IH _ _ _ ltac:(rewrite Hkeys; exact Hnd) H).
Qed.

Lemma map_phase_root (extract : string -> option record) (dirs : list string)
    (size : nat) (locals : list local_data) :
  1 <= size ->
  map_phase extract dirs size = Ok locals ->
  exists out,
    run_units extract dirs (range 0 (length dirs) size)
    = Ok (hd [] locals, out).
Proof.
  intros Hs Hmap. pose proof (map_phase_ranks _ _ _ _ Hmap) as HF.
  destruct size as [|size]; [lia|]. simpl in HF.
  inversion HF as [|x y xs ys Hw _]; subst. simpl.
  exact (worker_local_inv _ _ _ _ _ Hw).
Qed.

(** X20: the dataset of a finished run holds exactly the keys rank 0 met in
    its own units (those of [range(0, len(dirs), size)] that returned data,
    and ["storm"] with them), once each and in sorted order, which is the
    order [data.items()] writes them in.  A key that only the units of
    another rank have is not in the dataset. *)
Theorem X20_dataset_keys_are_the_root_keys
    (extract : string -> option record) (dirs : list string) (size : nat)
    (data : local_data)
    (Hsize : 1 <= size)
    (Hrun : create_data extract dirs size = Finished data) :
  StronglySorted str_le (dict_keys data)
  /\ NoDup (dict_keys data)
  /\ forall k,
       In k (dict_keys data) <->
       exists i r,
         In i (range 0 (length dirs) size)
         /\ tagged extract dirs i = Some r
         /\ In k (dict_keys r).
Proof.
  unfold create_data in Hrun.
  destruct (map_phase extract dirs size) as [locals|] eqn:Hmap;
    [|discriminate].
  destruct (map_phase_root _ _ _ _ Hsize Hmap) as [out Hroot].
  assert (Hkeys : dict_keys data = gather_keys (hd [] locals)).
  { destruct locals as [|root_local others];
      [pose proof (map_phase_ranks _ _ _ _ Hmap) as HF;
       destruct size; [lia | inversion HF]|].
    cbn [gather_phase] in Hrun. cbn [hd] in *.
    rewrite <- pending_keys.
    apply (gather_loop_key_order _ _ [] _) in Hrun; [exact Hrun|].
    simpl. rewrite pending_keys. apply sorted_NoDup.
    exact (run_units_NoDup _ _ _ _ _ Hroot). }
  rewrite Hkeys. unfold gather_keys. split; [apply sorted_ordered|].
  split; [apply sorted_NoDup; exact (run_units_NoDup _ _ _ _ _ Hroot)|].
  intros k. rewrite sorted_In. exact (run_units_keys _ _ _ _ _ k Hroot).
Qed.

Lemma X20_dataset_keys_are_the_root_keys_witness :
  StronglySorted str_le (dict_keys Examples.data_four)
  /\ NoDup (dict_keys Examples.data_four).
Proof.
  destruct (X20_dataset_keys_are_the_root_keys Examples.extract_four
              Examples.dirs_four 2 Examples.data_four) as [Hs [Hn _]].
  - lia.
  - reflexivity.
  - split; [exact Hs | exact Hn].
Defined.




Lemma gather_loop_rounds (root_pending : list (string * ndarray)) :
  forall others data res,
    gather_loop root_pending others data = Finished res ->
    forall q, In q others -> length root_pending <= length q.
Proof.
  induction root_pending as [|[k a] t IH]; intros others data res H q Hq;
    [simpl; lia|].
  cbn [gather_loop] in H.
  destruct (heads others) as [[hs rest]|] eqn:Eh; [|discriminate].
  destruct (gather_round (a :: map snd hs)) as [g|]; [|discriminate].
  destruct (heads_inv _ _ _ Eh) as [_ ->].
  pose proof (IH _ _ _ H (tl q) (in_map _ _ _ Hq)) as Hle.
  unfold heads in Eh.
  destruct (existsb _ others) eqn:Ee; [discriminate|].
  destruct q as [|x q'].
  - exfalso. assert (Ht : existsb
       (fun q : list (string * ndarray) =>
          match q with [] => true | _ => false end) others = true)
      by (apply existsb_exists; exists []; split; [exact Hq | reflexivity]).
    congruence.
  - simpl in *. lia.
Qed.

Lemma pending_length (ld : local_data) :
  length (pending ld) = length (dict_keys ld).
Proof.
  rewrite <- (length_map fst (pending ld)).
  change (map fst (pending ld)) with (dict_keys (pending ld)).
  rewrite pending_keys. unfold gather_keys.
  apply Permutation_length, sorted_perm.
Qed.

(** X22: the root's gather loop runs one round per key of the root, and
    each round needs every other rank to enter a collective of its own.
    So a run finishes on the root only if every other rank holds at least
    as many keys as the root; a rank that holds fewer leaves the root
    waiting in a collective, or the run aborts before. *)
Theorem X22_finishing_needs_enough_rounds_on_every_rank
    (root_local : local_data) (others : list local_data) (data : local_data)
    (Hgather : gather_phase (root_local :: others) = Finished data) :
  forall ld, In ld others ->
             length (dict_keys root_local) <= length (dict_keys ld).
Proof.
  intros ld Hld. rewrite <- !pending_length.
  cbn [gather_phase] in Hgather.
  exact (gather_loop_rounds _ _ _ _ Hgather _ (in_map pending _ _ Hld)).
Qed.

Lemma X22_finishing_needs_enough_rounds_on_every_rank_witness :
  length (dict_keys (nth 0 Examples.locals_four []))
  <= length (dict_keys (nth 1 Examples.locals_four [])).
Proof.
  apply (X22_finishing_needs_enough_rounds_on_every_rank
           (nth 0 Examples.locals_four [])
           [nth 1 Examples.locals_four []] Examples.data_four).
  - reflexivity.
  - left. reflexivity.
Defined.

Lemma gather_loop_untouched (root_pending : list (string * ndarray)) :
  forall others data res k,
    ~ In k (dict_keys root_pending) ->
    gather_loop root_pending others data = Finished res ->
    dict_get k res = dict_get k data.
Proof.
  induction root_pending as [|[k0 a] t IH]; intros others data res k Hk H;
    cbn [gather_loop] in H.
  - injection H as <-. reflexivity.
  - destruct (heads others) as [[hs rest]|]; [|discriminate].
    destruct (gather_round (a :: map snd hs)) as [g|]; [|discriminate].
    rewrite (IH _ _ _ k (fun Hin => Hk (or_intror Hin)) H).
    apply dict_get_set_other. intros ->. apply Hk. left. reflexivity.
Qed.

Lemma heads_first {X} (queues : list (list X)) (hs : list X)
    (rest : list (list X)) :
  heads queues = Some (hs, rest) ->
  Forall2 (fun q h => nth_error q 0 = Some h) queues hs.
Proof.
  unfold heads. destruct (existsb _ queues) eqn:Ee; [discriminate|].
  intros [= <- _]. induction queues as [|q t IH]; [constructor|].
  cbn [existsb] in Ee. apply Bool.orb_false_iff in Ee. destruct Ee as [Eq Et].
  destruct q as [|x q']; [discriminate|]. cbn [flat_map firstn app].
  constructor; [reflexivity | exact (IH Et)].
Qed.

Lemma gather_loop_position (root_pending : list (string * ndarray)) :
  forall others data res,
    NoDup (dict_keys root_pending) ->
    gather_loop root_pending others data = Finished res ->
    forall j k a,
      nth_error root_pending j = Some (k, a) ->
      exists hs g,
        Forall2 (fun q h => exists k', nth_error q j = Some (k', h)) others hs
        /\ gather_round (a :: hs) = Ok g
        /\ dict_get k res = Some g.
Proof.
  induction root_pending as [|[k0 a0] t IH]; intros others data res Hnd H j k a Hj;
    [destruct j; discriminate|].
  cbn [gather_loop] in H.
  destruct (heads others) as [[hs rest]|] eqn:Eh; [|discriminate].
  destruct (gather_round (a0 :: map snd hs)) as [g|] eqn:Eg; [|discriminate].
  inversion Hnd as [|x l Hk0 Ht]; subst.
  destruct j as [|j].
  - injection Hj as <- <-. exists (map snd hs), g. split; [|split].
    + pose proof (heads_first _ _ _ Eh) as HF. clear -HF.
      induction HF as [|q [k' h] qs hs' Hq _ IH]; [constructor|].
      constructor; [exists k'; exact Hq | exact IH].
    + exact Eg.
    + rewrite (gather_loop_untouched _ _ _ _ _ Hk0 H).
      apply dict_get_set_same.
  - destruct (IH _ _ _ Ht H j k a Hj) as [hs' [g' [HF [Hr Hget]]]].
    exists hs', g'. split; [|split; assumption].
    destruct (heads_inv _ _ _ Eh) as [_ ->]. clear -HF.
    remember (map (@tl _) others) as tls eqn:Etl.
    revert others Etl.
    induction HF as [|q h qs hs'' [k' Hq] _ IH]; intros others Etl.
    + destruct others; [constructor | discriminate].
    + destruct others as [|q0 others']; [discriminate|].
      injection Etl as -> ->. constructor; [|apply IH; reflexivity].
      exists k'. destruct q0; [destruct j; discriminate | exact Hq].
Qed.

Lemma pending_nth (ld : local_data) (j : nat) (k : string) (a : ndarray) :
  nth_error (pending ld) j = Some (k, a) ->
  nth_error (gather_keys ld) j = Some k /\ dict_get k ld = Some a.
Proof.
  intros H. split.
  - rewrite <- pending_keys. unfold dict_keys.
    rewrite nth_error_map, H. reflexivity.
  - exact (pending_In _ _ (nth_error_In _ _ H)).
Qed.

(** X23: the rounds of the gather are matched by position, never by name:
    no rank sends its keys to another.  In a finished run the array stored
    under the root's [j]-th key has the trailing shape of the root's array
    and as many rows as the arrays have together that the ranks hold
    under their own [j]-th keys, whatever those keys are called there. *)
Theorem X23_rounds_pair_keys_by_position
    (root_local : local_data) (others : list local_data) (data : local_data)
    (j : nat) (k : string)
    (Hdict : NoDup (dict_keys root_local))
    (Hgather : gather_phase (root_local :: others) = Finished data)
    (Hj : nth_error (gather_keys root_local) j = Some k) :
  exists root_array rest g,
    Forall2 (fun ld a =>
               exists k', nth_error (gather_keys ld) j = Some k'
                          /\ dict_get k' ld = Some a)
            (root_local :: others) (root_array :: rest)
    /\ dict_get k root_local = Some root_array
    /\ dict_get k data = Some g
    /\ shape g
       = list_sum (map rows (root_array :: rest)) :: tl (shape root_array).
Proof.
  cbn [gather_phase] in Hgather.
  assert (Ha : exists a, nth_error (pending root_local) j = Some (k, a)).
  { rewrite <- pending_keys in Hj. unfold dict_keys in Hj.
    rewrite nth_error_map in Hj.
    destruct (nth_error (pending root_local) j) as [[k0 a]|]; [|discriminate].
    injection Hj as ->. eauto. }
  destruct Ha as [a Ha].
  assert (Hnd : NoDup (dict_keys (pending root_local)))
    by (rewrite pending_keys; apply sorted_NoDup; exact Hdict).
  destruct (gather_loop_position _ _ _ _ Hnd Hgather _ _ _ Ha)
    as [hs [g [HF [Hr Hget]]]].
  exists a, hs, g. split; [|split; [|split; [exact Hget|]]].
  - constructor.
    + exists k. exact (pending_nth _ _ _ _ Ha).
    + clear -HF. remember (map pending others) as qs eqn:Eq.
      revert others Eq.
      induction HF as [|q h qs' hs' [k' Hq] _ IH]; intros others Eq.
      * destruct others; [constructor | discriminate].
      * destruct others as [|ld others']; [discriminate|].
        injection Eq as -> ->. constructor; [|apply IH; reflexivity].
        exists k'. exact (pending_nth _ _ _ _ Hq).
  - exact (proj2 (pending_nth _ _ _ _ Ha)).
  - rewrite (proj2 (gather_round_inv _ _ _ Hr)).
    destruct (shape a) as [|n [|m tr]]; reflexivity.
Qed.

Lemma X23_rounds_pair_keys_by_position_witness :
  exists g,
    dict_get "maxele" Examples.data_four = Some g
    /\ shape g = [14].
Proof.
  destruct (X23_rounds_pair_keys_by_position
              (nth 0 Examples.locals_four [])
              [nth 1 Examples.locals_four []] Examples.data_four
              1 "maxele") as [a [rest [g [HF [Ha [Hg Hs]]]]]].
  - simpl. repeat constructor; simpl; intuition discriminate.
  - reflexivity.
  - reflexivity.
  - exists g. split; [exact Hg|].
    vm_compute in Hg. injection Hg as <-. reflexivity.
Defined.
